(** * Utterance routing and the fallback priority-band protocol of ovos-core

    A shallow embedding of [ovos_core/intent_services/fallback_service.py]
    ([FallbackService]) and of the routing part of
    [ovos_core/intent_services/__init__.py] ([IntentService]).

    Python objects are modelled as follows.
    - The message bus, the matchers other than the fallback service, the
      transformer plugins and the clock are external: they are an [Env] of
      oracles, each of which may look at everything that happened so far.
    - Every call the code makes to the outside (bus subscription, emit,
      request/response, matcher call, activation, error sound) is appended to
      a chronological [trace]; properties are stated on that trace.
    - A Python exception is the [Raise] outcome of the state-and-error monad
      [M]; the state survives an exception, as mutations do in Python.
    - [registered_fallbacks] is an insertion-ordered dict: an association list
      with the update-in-place behaviour of Python dicts. *)

From Stdlib Require Import ZArith Lia.
From stdpp Require Import base numbers strings list sorting gmap.

Local Open Scope string_scope.
Local Open Scope list_scope.

(** ** Python idioms *)

(** [x or d] on an optional integer: [None] (key absent or null) and [0] are
    the falsy values. *)
Definition py_or (x : option Z) (d : Z) : Z :=
  match x with
  | Some v => if (v =? 0)%Z then d else v
  | None => d
  end.

(** Truthiness of an optional string ([None] and the empty string are falsy). *)
Definition truthy_str (x : option string) : bool :=
  match x with
  | Some s => negb (String.eqb s "")
  | None => false
  end.

(** Truthiness of an optional boolean with [None] for an absent key read by
    [dict.get(key, False)]. *)
Definition truthy_bool (x : option bool) : bool := default false x.

(** Insertion-ordered dicts with string keys. *)
Section Dict.
Context {V : Type}.

(** [k in d] *)
Definition dict_contains (k : string) (d : list (string * V)) : bool :=
  bool_decide (k ∈ d.*1).

(** [d.get(k)] *)
Fixpoint dict_get (k : string) (d : list (string * V)) : option V :=
  match d with
  | [] => None
  | (k', v) :: d' => if decide (k = k') then Some v else dict_get k d'
  end.

(** [d[k] = v]: an existing key keeps its position, a new key goes last. *)
Fixpoint dict_set (k : string) (v : V) (d : list (string * V))
  : list (string * V) :=
  match d with
  | [] => [(k, v)]
  | (k', v') :: d' =>
      if decide (k = k') then (k, v) :: d' else (k', v') :: dict_set k v d'
  end.

(** [d.pop(k)] for a key that is present; total here, the caller guards. *)
Fixpoint dict_pop (k : string) (d : list (string * V)) : list (string * V) :=
  match d with
  | [] => []
  | (k', v') :: d' =>
      if decide (k = k') then d' else (k', v') :: dict_pop k d'
  end.
End Dict.

(** [sorted(l, key=key)]: Python's sort is stable, and a stable sort is
    determined by its input, so insertion from the right models it. *)
Section Sorted.
Context {A : Type} (key : A → Z).

Fixpoint insert_by_key (x : A) (l : list A) : list A :=
  match l with
  | [] => [x]
  | y :: l' =>
      if (key x <=? key y)%Z then x :: y :: l' else y :: insert_by_key x l'
  end.

Fixpoint py_sorted (l : list A) : list A :=
  match l with
  | [] => []
  | x :: l' => insert_by_key x (py_sorted l')
  end.
End Sorted.

(** ** Data model *)

(** [FallbackRange = namedtuple('FallbackRange', ['start', 'stop'])] *)
Record FallbackRange := mkRange { start : Z; stop : Z }.

(** [IntentMatch = namedtuple('IntentMatch', ['intent_service',
    'intent_type', 'intent_data', 'skill_id'])] *)
Record IntentMatch := mkMatch {
  intent_service : string;
  intent_type : option string;
  intent_data : gmap string string;
  skill_id : option string;
}.

(** The utterance message: [data["utterances"]], [data["lang"]] and the
    context dict. *)
Record Message := mkMessage {
  msg_type : string;
  data_utterances : list string;
  data_lang : option string;
  context : gmap string string;
}.

(** Data of [ovos.skills.fallback.register] / [.deregister]. *)
Record RegisterData := mkRegister {
  reg_skill_id : string;
  reg_priority : option Z;
}.

(** Data of [ovos.skills.fallback.pong]; [can_handle] is read with
    [data.get("can_handle", True)]. *)
Record Pong := mkPong {
  pong_skill_id : string;
  can_handle : option bool;
}.

(** Data of a reply obtained by [wait_for_response]: the keys ['error'],
    ['result'] (per-handler reply) and ['handled'] (legacy reply), each
    possibly absent. *)
Record Response := mkResponse {
  data_error : option string;
  data_result : option bool;
  data_handled : option bool;
}.

(** [ovos_workshop.skills.fallback.FallbackMode] *)
Inductive FallbackMode := ACCEPT_ALL | BLACKLIST | WHITELIST.

(** [Configuration()["skills"]["fallbacks"]] *)
Record FallbackConfig := mkFallbackConfig {
  fallback_priorities : gmap string Z;
  fallback_mode : option FallbackMode;
  fallback_blacklist : list string;
  fallback_whitelist : list string;
}.

(** [Configuration()]: the string-valued and the list-valued entries, both
    looked up by key. *)
Record Configuration := mkConfiguration {
  cfg_strings : gmap string string;
  cfg_lists : gmap string (list string);
}.

(** The nine entries of [match_funcs]. *)
Inductive stage :=
| Converse | PadatiousHigh | Adapt | CommonQA | FallbackHigh
| PadatiousMedium | FallbackMedium | PadatiousLow | FallbackLow.

Global Instance stage_eq_dec : EqDecision stage.
Proof. solve_decision. Defined.

(** Data of the messages the code puts on the bus. *)
Inductive payload :=
| PEmpty
| PData (utts : list string) (lng : option string)
| PRequest (sid : string) (utts : list string) (utt : string) (lng : string)
| PLegacy (utt : string) (lng : string) (range : Z * Z)
| PIntent (utts : list string) (lng : option string)
    (idata : gmap string string).

(** Calls to the outside, in the order they happen.  [EvEmit] is a message
    accepted by the bus; [EvResponse] is the return of [wait_for_response]
    for the request it names; [EvPong] is one run of the discovery listener;
    [EvCall] and [EvRet] are the call and the normal return of an entry of
    [match_funcs]. *)
Inductive event :=
| EvOn (ty handler : string)
| EvRemove (ty handler : string)
| EvEmit (ty : string) (p : payload)
| EvResponse (request : payload) (reply_type : string) (r : option Response)
| EvPong (p : Pong)
| EvSleep
| EvCall (s : stage)
| EvRet (s : stage) (m : option IntentMatch)
| EvSetupLocale (lng : string)
| EvActivate (sid : string)
| EvErrorSound.

Inductive exn :=
| IndexError | KeyError | TransportError | SetupLocaleError | ExternalError.

Inductive outcome (A : Type) :=
| Ok (a : A)
| Raise (e : exn).
Arguments Ok {A} a.
Arguments Raise {A} e.

(** ** The outside world *)

(** Oracles for everything the code does not own.  Each one that stands for a
    call made during routing receives the trace up to that call, so a handler
    may answer differently every time it is asked. *)
Record Env := mkEnv {
  (** whether the transport accepts an emitted message of this type; when
      it does not, [bus.emit] raises *)
  emit_ok : list event → string → bool;
  (** the reply [bus.wait_for_response] gets on this reply type, [None] when
      none came before its timeout *)
  response : list event → string → option Response;
  (** the pongs the bus hands to the discovery listener before the caller
      looks at the clock again *)
  pongs : list event → list Pong;
  (** how many 20 ms sleeps pass before [time.time() - start <= 0.5] fails *)
  polls : list event → nat;
  (** the matchers that are not the fallback service *)
  matcher : stage → list event → list string → string → Message →
            outcome (option IntentMatch);
  (** [ovos_utils.messagebus.get_message_lang] *)
  get_message_lang : Message → string;
  (** [UtteranceTransformersService.transform] *)
  utterance_transform : list string → gmap string string →
                        outcome (list string * gmap string string);
  (** [MetadataTransformersService.transform] *)
  metadata_transform : gmap string string → outcome (gmap string string);
  (** whether [ovos_config.locale.setup_locale] accepts the language *)
  setup_locale_ok : string → bool;
}.

(** What the service objects and the bus client hold. *)
Record World := mkWorld {
  registered_fallbacks : list (string * Z);
  listeners : list (string * string);
  trace : list event;
}.

Definition set_registered (f : list (string * Z) → list (string * Z))
    (w : World) : World :=
  mkWorld (f (registered_fallbacks w)) (listeners w) (trace w).

Definition set_listeners (f : list (string * string) → list (string * string))
    (w : World) : World :=
  mkWorld (registered_fallbacks w) (f (listeners w)) (trace w).

Definition add_event (e : event) (w : World) : World :=
  mkWorld (registered_fallbacks w) (listeners w) (trace w ++ [e]).

(** ** State and error monad *)

Definition M (A : Type) : Type := World → outcome A * World.

Definition ret {A} (a : A) : M A := λ w, (Ok a, w).

Definition raise {A} (e : exn) : M A := λ w, (Raise e, w).

Definition bind {A B} (m : M A) (k : A → M B) : M B :=
  λ w, match m w with
       | (Ok a, w') => k a w'
       | (Raise e, w') => (Raise e, w')
       end.

Notation "'let*' x ':=' m 'in' k" := (bind m (λ x, k))
  (at level 10, x pattern, m at level 100, k at level 200).

(** [try: m except Exception: pass] *)
Definition try_ (m : M unit) : M unit :=
  λ w, match m w with
       | (Ok _, w') => (Ok tt, w')
       | (Raise _, w') => (Ok tt, w')
       end.

Definition lift {A} (o : outcome A) : M A := λ w, (o, w).

Definition log (e : event) : M unit := λ w, (Ok tt, add_event e w).

Definition history : M (list event) := λ w, (Ok (trace w), w).

Definition registry : M (list (string * Z)) :=
  λ w, (Ok (registered_fallbacks w), w).

(** Removes the first occurrence, as [list.remove] does. *)
Fixpoint remove_first {A} `{EqDecision A} (x : A) (l : list A) : list A :=
  match l with
  | [] => []
  | y :: l' => if decide (x = y) then l' else y :: remove_first x l'
  end.

(** ** The message bus client *)

Section Services.
Context (env : Env) (fallback_config : FallbackConfig)
  (config : Configuration).

(** [bus.on(ty, handler)] *)
Definition bus_on (ty handler : string) : M unit :=
  λ w, (Ok tt,
        add_event (EvOn ty handler) (set_listeners (λ l, l ++ [(ty, handler)]) w)).

(** [bus.remove(ty, handler)] *)
Definition bus_remove (ty handler : string) : M unit :=
  λ w, (Ok tt,
        add_event (EvRemove ty handler)
          (set_listeners (remove_first (ty, handler)) w)).

(** [bus.emit(Message(ty, data))] *)
Definition bus_emit (ty : string) (data : payload) : M unit :=
  λ w, if emit_ok env (trace w) ty
       then (Ok tt, add_event (EvEmit ty data) w)
       else (Raise TransportError, w).

(** [bus.wait_for_response(Message(ty, data), reply_type)]: emits the
    message and blocks until a reply of type [reply_type] or the timeout. *)
Definition bus_wait_for_response (ty : string) (data : payload)
    (reply_type : string) : M (option Response) :=
  let* _ := bus_emit ty data in
  let* h := history in
  let r := response env h reply_type in
  let* _ := log (EvResponse data reply_type r) in
  ret r.

(** ** FallbackService *)

Definition handle_register_fallback (message : RegisterData) : M unit :=
  let skill_id := reg_skill_id message in
  let priority := py_or (reg_priority message) 101 in
  let priority_overrides := fallback_priorities fallback_config in
  match priority_overrides !! skill_id with
  | Some new_priority =>
      λ w, (Ok tt, set_registered (dict_set skill_id new_priority) w)
  | None =>
      λ w, (Ok tt, set_registered (dict_set skill_id priority) w)
  end.

Definition handle_deregister_fallback (message : RegisterData) : M unit :=
  let skill_id := reg_skill_id message in
  λ w, if dict_contains skill_id (registered_fallbacks w)
       then (Ok tt, set_registered (dict_pop skill_id) w)
       else (Ok tt, w).

Definition _fallback_allowed (skill_id : string) : bool :=
  let opmode := default ACCEPT_ALL (fallback_mode fallback_config) in
  match opmode with
  | BLACKLIST =>
      negb (bool_decide (skill_id ∈ fallback_blacklist fallback_config))
  | WHITELIST =>
      bool_decide (skill_id ∈ fallback_whitelist fallback_config)
  | ACCEPT_ALL => true
  end.

(** [start < p <= stop] *)
Definition in_band (fb_range : FallbackRange) (p : Z) : bool :=
  (start fb_range <? p)%Z && (p <=? stop fb_range)%Z.

(** The closure [handle_ack] of [_collect_fallback_skills]; [acc] is the
    pair of the lists [skill_ids] and [fallback_skills] it appends to. *)
Definition handle_ack (msg : Pong) (acc : list string * list string)
    : M (list string * list string) :=
  let skill_id := pong_skill_id msg in
  let* _ := log (EvPong msg) in
  let* registered := registry in
  let fallback_skills :=
    if default true (can_handle msg)
    then if dict_contains skill_id registered
         then acc.2 ++ [skill_id] else acc.2
    else acc.2 in
  ret (acc.1 ++ [skill_id], fallback_skills).

(** The bus runs the listener on each pong it delivers. *)
Fixpoint deliver (ps : list Pong) (acc : list string * list string)
    : M (list string * list string) :=
  match ps with
  | [] => ret acc
  | p :: ps' => let* acc' := handle_ack p acc in deliver ps' acc'
  end.

(** [all(s in skill_ids for s in self.registered_fallbacks)] *)
Definition all_answered (skill_ids : list string)
    (registered : list (string * Z)) : bool :=
  forallb (λ s, bool_decide (s ∈ skill_ids)) registered.*1.

(** The [while] loop of [_collect_fallback_skills]; [n] is the number of
    sleeps left before the deadline. *)
Fixpoint wait_for_acks (n : nat) (acc : list string * list string)
    : M (list string * list string) :=
  let* registered := registry in
  if all_answered acc.1 registered then ret acc
  else match n with
       | O => ret acc
       | S n' =>
           let* _ := log EvSleep in
           let* h := history in
           let* acc' := deliver (pongs env h) acc in
           wait_for_acks n' acc'
       end.

Definition _collect_fallback_skills (message : Message)
    (fb_range : FallbackRange) : M (list string) :=
  let* registered := registry in
  let in_range :=
    (List.filter (λ sp, in_band fb_range sp.2) registered).*1 in
  let skill_ids :=
    List.filter (λ s, negb (bool_decide (s ∈ in_range))) registered.*1 in
  let* _ := bus_on "ovos.skills.fallback.pong" "handle_ack" in
  let* _ := bus_emit "ovos.skills.fallback.ping"
              (PData (data_utterances message) (data_lang message)) in
  let* h := history in
  let n := polls env h in
  let* acc := deliver (pongs env h) (skill_ids, []) in
  let* acc := wait_for_acks n acc in
  let* _ := bus_remove "ovos.skills.fallback.pong" "handle_ack" in
  ret acc.2.

Definition attempt_fallback (utterances : list string) (skill_id : string)
    (lang : string) (message : Message) : M bool :=
  if _fallback_allowed skill_id then
    match utterances with
    | [] => raise IndexError
    | utterance :: _ =>
        let* result :=
          bus_wait_for_response
            ("ovos.skills.fallback." +:+ skill_id +:+ ".request")
            (PRequest skill_id utterances utterance lang)
            ("ovos.skills.fallback." +:+ skill_id +:+ ".response") in
        match result with
        | Some r =>
            match data_error r with
            | Some _ => ret false
            | None => ret (truthy_bool (data_result r))
            end
        | None => ret false
        end
    end
  else ret false.

(** The comprehension
    [[(k, v) for k, v in self.registered_fallbacks.items()
      if k in self._collect_fallback_skills(message, fb_range)]]:
    the condition is evaluated, and so a discovery round is run, for every
    registered item. *)
Fixpoint fallbacks_of (message : Message) (fb_range : FallbackRange)
    (items : list (string * Z)) : M (list (string * Z)) :=
  match items with
  | [] => ret []
  | (k, v) :: items' =>
      let* collected := _collect_fallback_skills message fb_range in
      let* rest := fallbacks_of message fb_range items' in
      ret (if bool_decide (k ∈ collected) then (k, v) :: rest else rest)
  end.

(** The [for skill_id, prio in sorted_handlers] loop; [true] when a handler
    took the utterance. *)
Fixpoint attempt_each (utterances : list string) (lang : string)
    (message : Message) (sorted_handlers : list (string * Z)) : M bool :=
  match sorted_handlers with
  | [] => ret false
  | (skill_id, prio) :: rest =>
      let* result := attempt_fallback utterances skill_id lang message in
      if result then ret true
      else attempt_each utterances lang message rest
  end.

(** [IntentMatch('Fallback', None, {}, None)] *)
Definition fallback_match : IntentMatch := mkMatch "Fallback" None ∅ None.

(** [flatten_list] is the identity on a list of plain transcripts.  The
    function returns the match together with the message it mutated. *)
Definition _fallback_range (utterances : list string) (lang : string)
    (message : Message) (fb_range : FallbackRange)
    : M (option IntentMatch * Message) :=
  let message :=
    mkMessage (msg_type message) utterances (Some lang) (context message) in
  let* items := registry in
  let* fallbacks := fallbacks_of message fb_range items in
  let sorted_handlers := py_sorted snd fallbacks in
  let* taken := attempt_each utterances lang message sorted_handlers in
  if taken then ret (Some fallback_match, message)
  else
    match utterances with
    | [] => raise IndexError
    | utterance :: _ =>
        let* response :=
          bus_wait_for_response "mycroft.skills.fallback"
            (PLegacy utterance lang (start fb_range, stop fb_range))
            "mycroft.skills.fallback.response" in
        match response with
        | Some r =>
            match data_handled r with
            | Some true => ret (Some fallback_match, message)
            | Some false => ret (None, message)
            | None => raise KeyError
            end
        | None => ret (None, message)
        end
    end.

Definition high_prio (utterances : list string) (lang : string)
    (message : Message) : M (option IntentMatch * Message) :=
  _fallback_range utterances lang message (mkRange 0 5).

Definition medium_prio (utterances : list string) (lang : string)
    (message : Message) : M (option IntentMatch * Message) :=
  _fallback_range utterances lang message (mkRange 5 90).

Definition low_prio (utterances : list string) (lang : string)
    (message : Message) : M (option IntentMatch * Message) :=
  _fallback_range utterances lang message (mkRange 90 101).

(** ** IntentService *)

(** A matcher that lives outside this repository. *)
Definition external (s : stage) (utterances : list string) (lang : string)
    (message : Message) : M (option IntentMatch * Message) :=
  let* h := history in
  let* m := lift (matcher env s h utterances lang message) in
  ret (m, message).

Definition _handle_transformers (message : Message) : M Message :=
  let lang := get_message_lang env message in
  let original := data_utterances message in
  let ctx := <["lang" := lang]> (context message) in
  let* transformed := lift (utterance_transform env original ctx) in
  let utterances := transformed.1 in
  let* ctx := lift (metadata_transform env transformed.2) in
  ret (mkMessage (msg_type message) utterances (data_lang message) ctx).

(** [set([cfg.get("lang", "en-us")] + cfg.get("secondary_langs'", []))],
    with the key spelled as in the source. *)
Definition valid_langs : list string :=
  [default "en-us" (cfg_strings config !! "lang")]
    ++ default [] (cfg_lists config !! "secondary_langs'").

Definition lang_keys : list string :=
  ["stt_lang"; "request_lang"; "detected_lang"].

(** The [for k in lang_keys] loop of [disambiguate_lang]. *)
Fixpoint first_valid_lang (ctx : gmap string string) (keys : list string)
    (default_lang : string) : string :=
  match keys with
  | [] => default_lang
  | k :: keys' =>
      match ctx !! k with
      | Some v =>
          if bool_decide (v ∈ valid_langs) then v
          else first_valid_lang ctx keys' default_lang
      | None => first_valid_lang ctx keys' default_lang
      end
  end.

Definition disambiguate_lang (message : Message) : string :=
  let default_lang := get_message_lang env message in
  first_valid_lang (context message) lang_keys default_lang.

(** [setup_locale(lang)] *)
Definition setup_locale (lang : string) : M unit :=
  let* _ := log (EvSetupLocale lang) in
  if setup_locale_ok env lang then ret tt else raise SetupLocaleError.

Definition send_complete_intent_failure (message : Message) : M unit :=
  let* _ := log EvErrorSound in
  bus_emit "complete_intent_failure" PEmpty.

Definition match_funcs
  : list (stage * (list string → string → Message →
                   M (option IntentMatch * Message))) :=
  [ (Converse, external Converse); (PadatiousHigh, external PadatiousHigh);
    (Adapt, external Adapt); (CommonQA, external CommonQA);
    (FallbackHigh, high_prio); (PadatiousMedium, external PadatiousMedium);
    (FallbackMedium, medium_prio); (PadatiousLow, external PadatiousLow);
    (FallbackLow, low_prio) ].

(** The [for match_func in match_funcs] loop.  Each call and each normal
    return of a matching function is recorded in the trace. *)
Fixpoint match_loop
    (funcs : list (stage * (list string → string → Message →
                            M (option IntentMatch * Message))))
    (utterances : list string) (lang : string) (message : Message)
    : M (option IntentMatch * Message) :=
  match funcs with
  | [] => ret (None, message)
  | (s, match_func) :: funcs' =>
      let* _ := log (EvCall s) in
      let* r := match_func utterances lang message in
      let* _ := log (EvRet s r.1) in
      match r.1 with
      | Some _ => ret r
      | None => match_loop funcs' utterances lang r.2
      end
  end.

(** The body of the [try] block of [handle_utterance]; the stopwatch is
    left out. *)
Definition handle_utterance_body (message : Message)
    : M (option IntentMatch * gmap string string) :=
  let* message := _handle_transformers message in
  let lang := disambiguate_lang message in
  let* _ := try_ (setup_locale lang) in
  let utterances := data_utterances message in
  let* r := match_loop match_funcs utterances lang message in
  let message := r.2 in
  let* _ :=
    match r.1 with
    | Some m =>
        let* _ :=
            match skill_id m with
          | Some sid =>
              if truthy_str (Some sid) then log (EvActivate sid) else ret tt
          | None => ret tt
          end in
        match intent_type m with
        | Some ty =>
            if truthy_str (Some ty)
            then bus_emit ty (PIntent (data_utterances message)
                                (data_lang message) (intent_data m))
            else ret tt
        | None => ret tt
        end
    | None => send_complete_intent_failure message
    end in
  ret (r.1, context message).

(** [handle_utterance]: an exception anywhere in the body is logged and the
    function returns [None]. *)
Definition handle_utterance (message : Message)
    : M (option (option IntentMatch * gmap string string)) :=
  λ w, match handle_utterance_body message w with
       | (Ok r, w') => (Ok (Some r), w')
       | (Raise _, w') => (Ok None, w')
       end.

End Services.

(** The access-control policy lets the handler be asked. *)
Definition allowed (fc : FallbackConfig) (sid : string) : Prop :=
  _fallback_allowed fc sid = true.

Global Instance allowed_dec fc sid : Decision (allowed fc sid).
Proof. unfold allowed. apply _. Defined.

(** ** Reading a trace *)

(** The events a call appended when it took the world from [w] to [w']. *)
Definition events_since (w w' : World) : list event :=
  drop (length (trace w)) (trace w').

(** The handler a direct per-handler attempt request is sent to. *)
Definition request_of (e : event) : option string :=
  match e with
  | EvEmit _ (PRequest sid _ _ _) => Some sid
  | _ => None
  end.

Definition requests (evs : list event) : list string := omap request_of evs.

Definition call_of (e : event) : option stage :=
  match e with
  | EvCall s => Some s
  | _ => None
  end.

Definition stage_calls (evs : list event) : list stage := omap call_of evs.

Definition is_stage_event (e : event) : bool :=
  match e with
  | EvCall _ | EvRet _ _ => true
  | _ => false
  end.

Definition stage_events (evs : list event) : list event :=
  List.filter is_stage_event evs.

(** The terminal failure signal: [message.forward('complete_intent_failure')],
    a message of that type with empty data. *)
Definition is_failure_signal (e : event) : bool :=
  match e with
  | EvEmit ty PEmpty => String.eqb ty "complete_intent_failure"
  | _ => false
  end.

Definition failure_signals (evs : list event) : nat :=
  length (List.filter is_failure_signal evs).

(** The stages in the order of the docstring of [handle_utterance]. *)
Definition nine_stages : list stage :=
  [Converse; PadatiousHigh; Adapt; CommonQA; FallbackHigh; PadatiousMedium;
   FallbackMedium; PadatiousLow; FallbackLow].

(** [x] occurs at an earlier position than [y]. *)
Definition before {A} (x y : A) (l : list A) : Prop :=
  ∃ i j, (i < j)%nat ∧ l !! i = Some x ∧ l !! j = Some y.

(** Events of one discovery round. *)
Definition discovery_event (e : event) : Prop :=
  match e with
  | EvOn _ _ | EvRemove _ _ | EvPong _ | EvSleep | EvEmit _ (PData _ _) => True
  | _ => False
  end.

(** Events of one per-handler attempt. *)
Definition attempt_event (e : event) : Prop :=
  match e with
  | EvEmit _ (PRequest _ _ _ _) | EvResponse (PRequest _ _ _ _) _ _ => True
  | _ => False
  end.

(** Events of the legacy singleton request. *)
Definition legacy_event (e : event) : Prop :=
  match e with
  | EvEmit _ (PLegacy _ _ _) | EvResponse (PLegacy _ _ _) _ _ => True
  | _ => False
  end.

Definition band_event (e : event) : Prop :=
  discovery_event e ∨ attempt_event e ∨ legacy_event e.

(** Events that are neither a stage call or return nor the terminal failure
    signal. *)
Definition quiet_event (e : event) : Prop :=
  is_stage_event e = false ∧ is_failure_signal e = false.

(** A per-handler reply that counts as a decline: none in time, one with an
    ['error'] key, or one whose ['result'] is false or absent. *)
Definition declines (r : option Response) : Prop :=
  match r with
  | None => True
  | Some x => data_error x ≠ None ∨ data_result x ≠ Some true
  end.

(** A per-handler reply that takes the utterance. *)
Definition accepts (x : Response) : Prop :=
  data_error x = None ∧ data_result x = Some true.

(** The shape of the attempt events of one band and the value of the loop:
    declined attempts, then nothing more, an accepted attempt, or an
    exception. *)
Inductive attempts : list event → outcome bool → Prop :=
| attempts_none : attempts [] (Ok false)
| attempts_raise e : attempts [] (Raise e)
| attempts_decline ty sid us u l rty r evs v :
    declines r → attempts evs v →
    attempts (EvEmit ty (PRequest sid us u l)
              :: EvResponse (PRequest sid us u l) rty r :: evs) v
| attempts_accept ty sid us u l rty x :
    accepts x →
    attempts [EvEmit ty (PRequest sid us u l);
              EvResponse (PRequest sid us u l) rty (Some x)] (Ok true).

(** The shape of the stage events of the matching loop over the stages [ss]
    and its value [v]: every stage but the last returned no match; the last
    one raised, returned a match, or the list was exhausted. *)
Fixpoint loop_shape (ss : list stage) (evs : list event)
    (v : outcome (option IntentMatch)) : Prop :=
  match ss with
  | [] => evs = [] ∧ v = Ok None
  | s :: ss' =>
      (evs = [EvCall s] ∧ ∃ e, v = Raise e)
      ∨ (∃ m, evs = [EvCall s; EvRet s (Some m)] ∧ v = Ok (Some m))
      ∨ (∃ evs', evs = EvCall s :: EvRet s None :: evs'
                 ∧ loop_shape ss' evs' v)
  end.

(** The match component of the value of a matching function. *)
Definition match_of {B} (r : outcome (option IntentMatch * B))
    : outcome (option IntentMatch) :=
  match r with
  | Ok x => Ok x.1
  | Raise e => Raise e
  end.

(** [m] only appends events, all of them in [P]. *)
Definition appends {A} (P : event → Prop) (m : M A) : Prop :=
  ∀ w, ∃ evs, trace (m w).2 = trace w ++ evs ∧ Forall P evs.

(** [m] leaves the registry and the listener table as they are. *)
Definition frames {A} (m : M A) : Prop :=
  ∀ w, registered_fallbacks (m w).2 = registered_fallbacks w
       ∧ listeners (m w).2 = listeners w.

(** ** The valid-language set in the words of the specification *)

(** "the configured valid-language set (the default language plus the
    configured secondary_langs)" *)
Definition valid_langs_spec (config : Configuration) : list string :=
  [default "en-us" (cfg_strings config !! "lang")]
    ++ default [] (cfg_lists config !! "secondary_langs").

(** ** Concrete configurations and environments *)

Definition no_overrides : FallbackConfig := mkFallbackConfig ∅ None [] [].

(** [fallback_priorities = {"H": 3}] *)
Definition override_H : FallbackConfig :=
  mkFallbackConfig {["H" := 3%Z]} None [] [].

(** [fallback_mode = blacklist], [fallback_blacklist = ["A"]] *)
Definition blacklist_A : FallbackConfig :=
  mkFallbackConfig ∅ (Some BLACKLIST) ["A"] [].

Definition english : Configuration :=
  mkConfiguration {["lang" := "en-us"]} ∅.

(** [lang = "en-us"], [secondary_langs = ["pt-pt"]] *)
Definition bilingual : Configuration :=
  mkConfiguration {["lang" := "en-us"]} {["secondary_langs" := ["pt-pt"]]}.

Definition weather : Message :=
  mkMessage "recognizer_loop:utterance" ["what is the weather"] None ∅.

(** An utterance the speech stage tagged as Portuguese. *)
Definition portuguese : Message :=
  mkMessage "recognizer_loop:utterance" ["que horas sao"] None
    {["stt_lang" := "pt-pt"]}.

Definition empty_world : World := mkWorld [] [] [].

(** B registered first with priority 4, then A with priority 2. *)
Definition weather_world : World := mkWorld [("B", 4%Z); ("A", 2%Z)] [] [].

(** One handler, A, registered with priority 50. *)
Definition medium_world : World := mkWorld [("A", 50%Z)] [] [].

Definition is_ping (e : event) : bool :=
  match e with
  | EvEmit ty _ => String.eqb ty "ovos.skills.fallback.ping"
  | _ => false
  end.

(** Pongs that arrive right after each ping. *)
Definition pong_after_ping (ps : list Pong) (h : list event) : list Pong :=
  match last h with
  | Some e => if is_ping e then ps else []
  | None => []
  end.

(** Nothing answers and every matcher declines. *)
Definition quiet_env : Env :=
  mkEnv (λ _ _, true) (λ _ _, None) (λ _, []) (λ _, 25%nat)
    (λ _ _ _ _ _, Ok None) (λ m, default "en-us" (data_lang m))
    (λ u c, Ok (u, c)) (λ c, Ok c) (λ _, true).

(** Every matcher declines; A and B answer the ping, A then answers its
    request with [result = False], B with [result = True]. *)
Definition weather_env : Env :=
  mkEnv (λ _ _, true)
    (λ _ ty, if String.eqb ty "ovos.skills.fallback.A.response"
             then Some (mkResponse None (Some false) None)
             else if String.eqb ty "ovos.skills.fallback.B.response"
             then Some (mkResponse None (Some true) None)
             else None)
    (pong_after_ping [mkPong "B" (Some true); mkPong "A" (Some true)])
    (λ _, 25%nat)
    (λ _ _ _ _ _, Ok None) (λ m, default "en-us" (data_lang m))
    (λ u c, Ok (u, c)) (λ c, Ok c) (λ _, true).

(** Every matcher declines; A answers every ping with [can_handle = True]
    and every request with [result = True]. *)
Definition eager_env : Env :=
  mkEnv (λ _ _, true)
    (λ _ ty, if String.eqb ty "ovos.skills.fallback.A.response"
             then Some (mkResponse None (Some true) None)
             else None)
    (pong_after_ping [mkPong "A" (Some true)])
    (λ _, 25%nat)
    (λ _ _ _ _ _, Ok None) (λ m, default "en-us" (data_lang m))
    (λ u c, Ok (u, c)) (λ c, Ok c) (λ _, true).

(** The transport refuses the discovery ping. *)
Definition down_env : Env :=
  mkEnv (λ _ ty, negb (String.eqb ty "ovos.skills.fallback.ping"))
    (λ _ _, None) (λ _, []) (λ _, 25%nat)
    (λ _ _ _ _ _, Ok None) (λ m, default "en-us" (data_lang m))
    (λ u c, Ok (u, c)) (λ c, Ok c) (λ _, true).

(** The keyword matcher always matches, every other matcher declines. *)
Definition keyword_match : IntentMatch :=
  mkMatch "Adapt" (Some "weather:WeatherIntent") ∅ (Some "weather").

Definition keyword_env : Env :=
  mkEnv (λ _ _, true) (λ _ _, None) (λ _, []) (λ _, 25%nat)
    (λ s _ _ _ _, match s with Adapt => Ok (Some keyword_match) | _ => Ok None end)
    (λ m, default "en-us" (data_lang m))
    (λ u c, Ok (u, c)) (λ c, Ok c) (λ _, true).

(** ** Further readings of a trace *)

(** The handler a pong makes a candidate: [can_handle] is true or absent and
    the id is registered; the band is not looked at. *)
Definition willing_pong (registered : list (string * Z)) (p : Pong)
    : option string :=
  if default true (can_handle p) && dict_contains (pong_skill_id p) registered
  then Some (pong_skill_id p)
  else None.

(** The candidates the pongs among the events [evs] add up to. *)
Definition willing (registered : list (string * Z)) (evs : list event)
    : list string :=
  omap (λ e, match e with
             | EvPong p => willing_pong registered p
             | _ => None
             end) evs.

Definition is_sleep (e : event) : bool :=
  match e with
  | EvSleep => true
  | _ => false
  end.

(** How often the discovery loop slept. *)
Definition sleeps (evs : list event) : nat := length (List.filter is_sleep evs).

Definition is_ping_emit (e : event) : bool :=
  match e with
  | EvEmit ty (PData _ _) => String.eqb ty "ovos.skills.fallback.ping"
  | _ => false
  end.

(** How many discovery pings were put on the bus. *)
Definition pings (evs : list event) : nat :=
  length (List.filter is_ping_emit evs).

(** The skills the router marked active. *)
Definition activations (evs : list event) : list string :=
  omap (λ e, match e with EvActivate sid => Some sid | _ => None end) evs.

(** The intent messages the router put on the bus: type and intent data. *)
Definition launches (evs : list event) : list (string * gmap string string) :=
  omap (λ e, match e with
             | EvEmit ty (PIntent _ _ idata) => Some (ty, idata)
             | _ => None
             end) evs.

(** ** Sequences of registry events *)

Inductive registry_event :=
| Register (data : RegisterData)
| Deregister (data : RegisterData).

(** The bus runs the handler subscribed to the event's type. *)
Definition dispatch (fc : FallbackConfig) (e : registry_event) : M unit :=
  match e with
  | Register data => handle_register_fallback fc data
  | Deregister data => handle_deregister_fallback data
  end.

Fixpoint dispatch_all (fc : FallbackConfig) (es : list registry_event)
    (w : World) : World :=
  match es with
  | [] => w
  | e :: es' => dispatch_all fc es' (dispatch fc e w).2
  end.

(** A priority [handle_register_fallback] can have stored for [sid]: the
    configured override when there is one, otherwise a reported priority
    that is not falsy. *)
Definition storable (fc : FallbackConfig) (sid : string) (p : Z) : Prop :=
  match fallback_priorities fc !! sid with
  | Some o => p = o
  | None => p ≠ 0%Z
  end.

(** ** Skill names *)

(** [update_skill_name_dict]: [self.skill_names[message.data['id']] =
    message.data['name']].  Python evaluates the right-hand side first; a
    missing key raises and leaves the dict as it is. *)
Definition update_skill_name_dict (data : gmap string string)
    (skill_names : gmap string string)
    : outcome unit * gmap string string :=
  match data !! "name" with
  | None => (Raise KeyError, skill_names)
  | Some name =>
      match data !! "id" with
      | None => (Raise KeyError, skill_names)
      | Some id => (Ok tt, <[id := name]> skill_names)
      end
  end.

(** [self.skill_names.get(skill_id, skill_id)] *)
Definition get_skill_name (skill_names : gmap string string)
    (skill_id : string) : string :=
  default skill_id (skill_names !! skill_id).

(** The dict after the bus delivered the messages [msgs] to
    [update_skill_name_dict], one after the other. *)
Definition update_skill_names (msgs : list (gmap string string))
    (skill_names : gmap string string) : gmap string string :=
  foldl (λ names data, (update_skill_name_dict data names).2) skill_names msgs.

(** The name a message gives to [skill_id], if it is a complete message
    about that skill. *)
Definition names_skill (skill_id : string) (data : gmap string string)
    : option string :=
  match data !! "id", data !! "name" with
  | Some id, Some name => if decide (id = skill_id) then Some name else None
  | _, _ => None
  end.

(** ** Vocabulary registration *)

Definition _is_old_style_keyword_message (data : gmap string string) : bool :=
  negb (bool_decide (is_Some (data !! "entity_value")))
  && bool_decide (is_Some (data !! "start")).

(** [_update_keyword_message] writes into [message.data] in place: the first
    assignment stays when the second one raises. *)
Definition _update_keyword_message (data : gmap string string)
    : outcome unit * gmap string string :=
  match data !! "start" with
  | None => (Raise KeyError, data)
  | Some v =>
      let data := <["entity_value" := v]> data in
      match data !! "end" with
      | None => (Raise KeyError, data)
      | Some t => (Ok tt, <["entity_type" := t]> data)
      end
  end.

(** The arguments of [adapt_service.register_vocabulary]. *)
Record VocabCall := mkVocabCall {
  entity_value : option string;
  entity_type : option string;
  alias_of : option string;
  regex_str : option string;
  vocab_lang : string
}.

(** The data of the message being handled, [self.registered_vocab], and the
    calls made to the keyword matcher. *)
Record VocabState := mkVocabState {
  message_data : gmap string string;
  registered_vocab : list (gmap string string);
  vocab_calls : list VocabCall
}.

(** [handle_register_vocab]; [lang_of] stands for [get_message_lang] and
    [accepts] tells whether [register_vocabulary] returns or raises. *)
Definition handle_register_vocab (lang_of : gmap string string → string)
    (accepts : VocabCall → bool) (st : VocabState)
    : outcome unit * VocabState :=
  let upgraded :=
    if _is_old_style_keyword_message (message_data st)
    then _update_keyword_message (message_data st)
    else (Ok tt, message_data st) in
  let data := upgraded.2 in
  match upgraded.1 with
  | Raise e => (Raise e, mkVocabState data (registered_vocab st) (vocab_calls st))
  | Ok _ =>
      let call :=
        mkVocabCall (data !! "entity_value") (data !! "entity_type")
          (data !! "alias_of") (data !! "regex") (lang_of data) in
      if accepts call
      then (Ok tt, mkVocabState data (registered_vocab st ++ [data])
                     (vocab_calls st ++ [call]))
      else (Raise ExternalError,
            mkVocabState data (registered_vocab st) (vocab_calls st ++ [call]))
  end.
(** * Properties *)

(** ** Dicts *)

Section DictFacts.
Context {V : Type}.
Implicit Types (d : list (string * V)) (k : string) (v : V).

Lemma dict_set_keys k v d :
  (dict_set k v d).*1 = if bool_decide (k ∈ d.*1) then d.*1 else d.*1 ++ [k].
Proof.
  induction d as [|[k' v'] d IH]; csimpl; [done|].
  destruct (decide (k = k')) as [->|Hne]; csimpl.
  - clear IH. case_bool_decide as H; [done|]. destruct H. apply list_elem_of_here.
  - rewrite IH. repeat case_bool_decide; try done; set_solver.
Qed.

Lemma dict_set_NoDup k v d : NoDup d.*1 → NoDup (dict_set k v d).*1.
Proof.
  intros Hd. rewrite dict_set_keys. case_bool_decide as Hk; [done|].
  apply NoDup_app. split_and!; [done| |apply NoDup_singleton].
  intros x Hx ->%list_elem_of_singleton. done.
Qed.

Lemma dict_get_set_eq k v d : dict_get k (dict_set k v d) = Some v.
Proof.
  induction d as [|[k' v'] d IH]; csimpl.
  - by rewrite decide_True.
  - destruct (decide (k = k')) as [->|Hne]; csimpl.
    + by rewrite decide_True.
    + by rewrite decide_False.
Qed.

Lemma dict_get_set_ne k k' v d :
  k ≠ k' → dict_get k' (dict_set k v d) = dict_get k' d.
Proof.
  intros Hne. induction d as [|[k0 v0] d IH]; csimpl.
  - by rewrite decide_False.
  - destruct (decide (k = k0)) as [->|Hne0]; csimpl.
    + by rewrite !decide_False.
    + by rewrite IH.
Qed.

Lemma dict_get_None k d : dict_get k d = None ↔ k ∉ d.*1.
Proof.
  induction d as [|[k' v'] d IH]; csimpl.
  - split; [intros _; apply not_elem_of_nil|done].
  - destruct (decide (k = k')) as [->|Hne].
    + split; [done|]. intros []. apply list_elem_of_here.
    + rewrite IH. rewrite not_elem_of_cons. naive_solver.
Qed.

Lemma dict_get_elem_of k v d : NoDup d.*1 → (k, v) ∈ d ↔ dict_get k d = Some v.
Proof.
  induction d as [|[k' v'] d IH]; csimpl; intros Hd.
  - split; [by intros ?%elem_of_nil|done].
  - apply NoDup_cons in Hd as [Hk Hd]. rewrite elem_of_cons.
    destruct (decide (k = k')) as [->|Hne].
    + split; [|naive_solver].
      intros [?|Hin]; [naive_solver|].
      destruct Hk. apply list_elem_of_fmap. by exists (k', v).
    + rewrite <-IH by done. naive_solver.
Qed.

Lemma dict_pop_keys k d : NoDup d.*1 → k ∉ (dict_pop k d).*1.
Proof.
  induction d as [|[k' v'] d IH]; csimpl; intros Hd.
  - apply not_elem_of_nil.
  - apply NoDup_cons in Hd as [Hk Hd].
    destruct (decide (k = k')) as [->|Hne]; [done|].
    csimpl. rewrite not_elem_of_cons. auto.
Qed.

Lemma dict_pop_sublist k d : dict_pop k d `sublist_of` d.
Proof.
  induction d as [|[k' v'] d IH]; csimpl; [done|].
  destruct (decide (k = k')); [by apply sublist_cons|by apply sublist_skip].
Qed.

Lemma dict_pop_NoDup k d : NoDup d.*1 → NoDup (dict_pop k d).*1.
Proof.
  intros Hd. apply (sublist_NoDup _ d.*1); [done|].
  apply (fmap_sublist fst), dict_pop_sublist.
Qed.

Lemma dict_pop_other k k' d :
  k ≠ k' → dict_get k' (dict_pop k d) = dict_get k' d.
Proof.
  intros Hne. induction d as [|[k0 v0] d IH]; csimpl; [done|].
  destruct (decide (k = k0)) as [->|Hne0]; csimpl.
  - by rewrite decide_False.
  - by rewrite IH.
Qed.
End DictFacts.

(** ** Stable sorting *)

Section SortedFacts.
Context {A : Type} (key : A → Z).
Implicit Types (x y : A) (l : list A).

Definition key_le (x y : A) : Prop := (key x ≤ key y)%Z.

Lemma insert_by_key_Permutation x l : insert_by_key key x l ≡ₚ x :: l.
Proof.
  induction l as [|y l IH]; simpl; [done|].
  destruct (key x <=? key y)%Z; [done|].
  rewrite IH. apply Permutation_swap.
Qed.

Lemma py_sorted_Permutation l : py_sorted key l ≡ₚ l.
Proof.
  induction l as [|x l IH]; simpl; [done|].
  by rewrite insert_by_key_Permutation, IH.
Qed.

Lemma insert_by_key_sorted x l :
  StronglySorted key_le l → StronglySorted key_le (insert_by_key key x l).
Proof.
  induction 1 as [|y l Hl IH Hy]; simpl.
  - repeat constructor.
  - destruct (Z.leb_spec (key x) (key y)) as [Hle|Hlt].
    + constructor; [by constructor|].
      constructor; [done|].
      eapply Forall_impl; [exact Hy|]. unfold key_le. intros; lia.
    + constructor; [done|].
      rewrite insert_by_key_Permutation. constructor; [|done].
      unfold key_le. lia.
Qed.

Lemma py_sorted_sorted l : StronglySorted key_le (py_sorted key l).
Proof.
  induction l as [|x l IH]; simpl; [constructor|].
  by apply insert_by_key_sorted.
Qed.

(** Stability: elements with the same key keep their relative order. *)
Lemma insert_by_key_filter p x l :
  filter (λ a, key a = p) (insert_by_key key x l)
  = filter (λ a, key a = p) (x :: l).
Proof.
  induction l as [|y l IH]; simpl; [done|].
  destruct (Z.leb_spec (key x) (key y)) as [Hle|Hlt]; [done|].
  rewrite filter_cons, IH, !filter_cons.
  destruct (decide (key y = p)), (decide (key x = p)); try done. lia.
Qed.

Lemma py_sorted_stable p l :
  filter (λ a, key a = p) (py_sorted key l) = filter (λ a, key a = p) l.
Proof.
  induction l as [|x l IH]; simpl; [done|].
  by rewrite insert_by_key_filter, !filter_cons, IH.
Qed.
End SortedFacts.

(** ** Relative positions in a list *)

Section BeforeFacts.
Context {A : Type}.
Implicit Types (x y : A) (l : list A).

Lemma before_split x y l :
  before x y l ↔ ∃ l1 l2 l3, l = l1 ++ x :: l2 ++ y :: l3.
Proof.
  split.
  - intros (i & j & Hij & Hi & Hj).
    apply list_elem_of_split_length in Hi as (l1 & r & -> & ->).
    rewrite lookup_app_r in Hj by lia.
    destruct (j - length l1)%nat as [|n] eqn:E; [lia|]. simpl in Hj.
    apply list_elem_of_split_length in Hj as (l2 & l3 & -> & ->).
    by exists l1, l2, l3.
  - intros (l1 & l2 & l3 & ->).
    exists (length l1), (length l1 + S (length l2))%nat. split_and!.
    + lia.
    + by rewrite list_lookup_middle.
    + rewrite lookup_app_r by lia.
      replace (length l1 + S (length l2) - length l1)%nat
        with (S (length l2)) by lia.
      simpl. by rewrite list_lookup_middle.
Qed.

Lemma before_elem_of x y l : before x y l → x ∈ l ∧ y ∈ l.
Proof.
  intros (i & j & _ & Hi & Hj). split; by eapply list_elem_of_lookup_2.
Qed.

Lemma before_sublist x y l1 l2 :
  l1 `sublist_of` l2 → before x y l1 → before x y l2.
Proof.
  intros Hsub (k1 & k2 & k3 & ->)%before_split.
  apply sublist_app_l in Hsub as (m1 & m2 & -> & H1 & Hsub).
  apply sublist_cons_l in Hsub as (m3 & m4 & -> & Hsub).
  apply sublist_app_l in Hsub as (m5 & m6 & -> & H2 & Hsub).
  apply sublist_cons_l in Hsub as (m7 & m8 & -> & Hsub).
  apply before_split. exists (m1 ++ m3), (m5 ++ m7), m8.
  by rewrite <-!app_assoc.
Qed.

Lemma before_sorted (R : A → A → Prop) x y l :
  StronglySorted R l → before x y l → R x y.
Proof.
  intros Hs (l1 & l2 & l3 & ->)%before_split.
  apply StronglySorted_app_1_r, StronglySorted_cons in Hs as [Hall _].
  rewrite Forall_forall in Hall. apply Hall. set_solver.
Qed.

Lemma before_NoDup_ne x y l : NoDup l → before x y l → x ≠ y.
Proof.
  intros Hd (i & j & Hij & Hi & Hj) ->.
  pose proof (NoDup_lookup _ _ _ _ Hd Hi Hj). lia.
Qed.

Lemma before_asym x y l : NoDup l → before x y l → before y x l → False.
Proof.
  intros Hd (i & j & Hij & Hi & Hj) (i' & j' & Hij' & Hi' & Hj').
  pose proof (NoDup_lookup _ _ _ _ Hd Hi Hj').
  pose proof (NoDup_lookup _ _ _ _ Hd Hj Hi'). lia.
Qed.

Lemma before_total x y l :
  x ∈ l → y ∈ l → x ≠ y → before x y l ∨ before y x l.
Proof.
  intros [i Hi]%list_elem_of_lookup [j Hj]%list_elem_of_lookup Hne.
  destruct (lt_eq_lt_dec i j) as [[?| ->]|?].
  - left. by exists i, j.
  - congruence.
  - right. by exists j, i.
Qed.

Lemma before_filter (P : A → bool) x y l :
  before x y l → P x = true → P y = true → before x y (List.filter P l).
Proof.
  intros (l1 & l2 & l3 & ->)%before_split Hx Hy. apply before_split.
  exists (List.filter P l1), (List.filter P l2), (List.filter P l3).
  rewrite List.filter_app. simpl. rewrite Hx, List.filter_app. simpl.
  by rewrite Hy.
Qed.

Lemma before_filter_prop (P : A → Prop) `{!∀ a, Decision (P a)} x y l :
  before x y l → P x → P y → before x y (filter P l).
Proof.
  intros (l1 & l2 & l3 & ->)%before_split Hx Hy. apply before_split.
  exists (filter P l1), (filter P l2), (filter P l3).
  rewrite filter_app, filter_cons_True, filter_app, filter_cons_True; done.
Qed.

Lemma before_take x y l k j :
  before x y l → take k l !! j = Some y → NoDup l → before x y (take k l).
Proof.
  intros (i & j' & Hij & Hi & Hj) Hy Hd.
  apply lookup_take_Some in Hy as [Hy Hjk].
  pose proof (NoDup_lookup _ _ _ _ Hd Hj Hy) as ->.
  exists i, j. split_and!; [done| |].
  - rewrite lookup_take_lt; [done|lia].
  - by rewrite lookup_take_lt.
Qed.

Lemma before_fmap {B} (f : A → B) x y l :
  before x y l → before (f x) (f y) (f <$> l).
Proof.
  intros (i & j & Hij & Hi & Hj). exists i, j.
  rewrite !list_lookup_fmap, Hi, Hj. done.
Qed.

Lemma before_fmap_inv {B} (f : A → B) (b1 b2 : B) l :
  before b1 b2 (f <$> l) → ∃ x y, before x y l ∧ f x = b1 ∧ f y = b2.
Proof.
  intros (i & j & Hij & Hi & Hj).
  rewrite list_lookup_fmap in Hi, Hj.
  destruct (l !! i) as [x|] eqn:Ei; [|done].
  destruct (l !! j) as [y|] eqn:Ej; [|done].
  simpl in *. exists x, y. split; [by exists i, j|naive_solver].
Qed.
End BeforeFacts.

(** ** The monad and the trace *)

Section MonadFacts.
Context {A B : Type}.
Implicit Types (P Q : event → Prop) (m : M A) (w : World).

Lemma events_since_app w w' evs :
  trace w' = trace w ++ evs → events_since w w' = evs.
Proof. intros Ht. unfold events_since. by rewrite Ht, drop_app_length. Qed.

Lemma appends_events_since P m w :
  appends P m →
  trace (m w).2 = trace w ++ events_since w (m w).2
  ∧ Forall P (events_since w (m w).2).
Proof.
  intros Hm. destruct (Hm w) as (evs & Ht & HP).
  by rewrite (events_since_app _ _ _ Ht).
Qed.

Lemma appends_impl P Q m : (∀ e, P e → Q e) → appends P m → appends Q m.
Proof.
  intros HPQ Hm w. destruct (Hm w) as (evs & Ht & HP).
  exists evs. split; [done|]. by eapply Forall_impl.
Qed.

Lemma appends_ret P (a : A) : appends P (ret a).
Proof. intros w. exists []. by rewrite app_nil_r. Qed.

Lemma appends_raise P e : appends P (raise (A:=A) e).
Proof. intros w. exists []. by rewrite app_nil_r. Qed.

Lemma appends_lift P (o : outcome A) : appends P (lift o).
Proof. intros w. exists []. by rewrite app_nil_r. Qed.

Lemma appends_bind P m (k : A → M B) :
  appends P m → (∀ a, appends P (k a)) → appends P (bind m k).
Proof.
  intros Hm Hk w. unfold bind.
  destruct (Hm w) as (evs1 & Ht1 & HP1).
  destruct (m w) as [[a|e] w1]; simpl in *.
  - destruct (Hk a w1) as (evs2 & Ht2 & HP2).
    exists (evs1 ++ evs2). rewrite Ht2, Ht1, app_assoc.
    split; [done|]. by apply Forall_app.
  - by exists evs1.
Qed.

Lemma frames_ret (a : A) : frames (ret a).
Proof. done. Qed.

Lemma frames_raise e : frames (raise (A:=A) e).
Proof. done. Qed.

Lemma frames_lift (o : outcome A) : frames (lift o).
Proof. done. Qed.

Lemma frames_bind m (k : A → M B) :
  frames m → (∀ a, frames (k a)) → frames (bind m k).
Proof.
  intros Hm Hk w. unfold bind. destruct (Hm w) as [Hr Hl].
  destruct (m w) as [[a|e] w1]; simpl in *; [|done].
  destruct (Hk a w1) as [Hr' Hl']. by rewrite Hr', Hl'.
Qed.
End MonadFacts.

Lemma appends_log P e : P e → appends P (log e).
Proof. intros He w. exists [e]. split; [done|]. by constructor. Qed.

Lemma appends_history P : appends P history.
Proof. intros w. exists []. by rewrite app_nil_r. Qed.

Lemma appends_registry P : appends P registry.
Proof. intros w. exists []. by rewrite app_nil_r. Qed.

Lemma appends_try P m : appends P m → appends P (try_ m).
Proof.
  intros Hm w. unfold try_. destruct (Hm w) as (evs & Ht & HP).
  destruct (m w) as [[a|e] w1]; by exists evs.
Qed.

Lemma frames_log e : frames (log e).
Proof. done. Qed.

Lemma frames_history : frames history.
Proof. done. Qed.

Lemma frames_registry : frames registry.
Proof. done. Qed.

Section BusFacts.
Context (env : Env).

Lemma appends_bus_on P ty h : P (EvOn ty h) → appends P (bus_on ty h).
Proof. intros He w. exists [EvOn ty h]. split; [done|]. by constructor. Qed.

Lemma appends_bus_remove P ty h :
  P (EvRemove ty h) → appends P (bus_remove ty h).
Proof.
  intros He w. exists [EvRemove ty h]. split; [done|]. by constructor.
Qed.

Lemma appends_bus_emit P ty d :
  P (EvEmit ty d) → appends P (bus_emit env ty d).
Proof.
  intros He w. unfold bus_emit. destruct (emit_ok env (trace w) ty).
  - exists [EvEmit ty d]. split; [done|]. by constructor.
  - exists []. by rewrite app_nil_r.
Qed.

Lemma frames_bus_emit ty d : frames (bus_emit env ty d).
Proof. intros w. unfold bus_emit. by destruct (emit_ok env (trace w) ty). Qed.

Lemma appends_bus_wait P ty d rty :
  P (EvEmit ty d) → (∀ r, P (EvResponse d rty r)) →
  appends P (bus_wait_for_response env ty d rty).
Proof.
  intros He Hr. unfold bus_wait_for_response.
  apply appends_bind; [by apply appends_bus_emit|]. intros _.
  apply appends_bind; [apply appends_history|]. intros h.
  apply appends_bind; [by apply appends_log|]. intros _.
  apply appends_ret.
Qed.

Lemma frames_bus_wait ty d rty : frames (bus_wait_for_response env ty d rty).
Proof.
  unfold bus_wait_for_response.
  apply frames_bind; [apply frames_bus_emit|]. intros _.
  apply frames_bind; [apply frames_history|]. intros h.
  apply frames_bind; [apply frames_log|]. intros _. apply frames_ret.
Qed.

(** What [bus_wait_for_response] does, step by step. *)
Lemma bus_wait_run ty d rty w :
  bus_wait_for_response env ty d rty w =
  if emit_ok env (trace w) ty
  then let r := response env (trace w ++ [EvEmit ty d]) rty in
       (Ok r, add_event (EvResponse d rty r) (add_event (EvEmit ty d) w))
  else (Raise TransportError, w).
Proof.
  unfold bus_wait_for_response, bind, bus_emit.
  by destruct (emit_ok env (trace w) ty).
Qed.
End BusFacts.

(** ** The fallback registry *)

Lemma register_keeps_keys_unique fc msg w :
  NoDup (registered_fallbacks w).*1 →
  NoDup (registered_fallbacks (handle_register_fallback fc msg w).2).*1.
Proof.
  intros Hd. unfold handle_register_fallback.
  destruct (fallback_priorities fc !! reg_skill_id msg); simpl;
    by apply dict_set_NoDup.
Qed.

Lemma deregister_keeps_keys_unique msg w :
  NoDup (registered_fallbacks w).*1 →
  NoDup (registered_fallbacks (handle_deregister_fallback msg w).2).*1.
Proof.
  intros Hd. unfold handle_deregister_fallback.
  destruct (dict_contains _ _); simpl; [by apply dict_pop_NoDup|done].
Qed.

Lemma register_stores fc sid q w :
  dict_get sid
    (registered_fallbacks (handle_register_fallback fc (mkRegister sid q) w).2)
  = Some (default (py_or q 101) (fallback_priorities fc !! sid)).
Proof.
  unfold handle_register_fallback. simpl.
  destruct (fallback_priorities fc !! sid); simpl; apply dict_get_set_eq.
Qed.

(** C4. Deregistering an id that is not registered, for instance a second
    time in a row, leaves the registry as it is; registering an id again
    replaces the stored priority by the new one: without an override, a
    reported priority [v] other than 0 is stored as [v], whatever was stored
    before, and an absent, null or 0 priority is stored as 101; and when the
    configuration overrides the priority of an id, every registration of it
    stores the override, whatever priority the handler reports and whatever
    was registered before: with the override [{H: 3}], H registered with
    priority 50 is stored with 3, inside the band (0, 5]. *)
Theorem registry_semantics (fc : FallbackConfig) (w : World) (sid : string)
    (p p' : option Z) :
  NoDup (registered_fallbacks w).*1 →
  let deregister := handle_deregister_fallback (mkRegister sid None) in
  let register q := handle_register_fallback fc (mkRegister sid q) in
  let stored w' := dict_get sid (registered_fallbacks w') in
  (sid ∉ (registered_fallbacks w).*1 → deregister w = (Ok tt, w))
  ∧ deregister (deregister w).2 = (Ok tt, (deregister w).2)
  ∧ match fallback_priorities fc !! sid with
    | None =>
        (∀ v, p' = Some v → v ≠ 0%Z →
           stored (register p' (register p w).2).2 = Some v)
        ∧ (p' = None ∨ p' = Some 0%Z →
           stored (register p' (register p w).2).2 = Some 101%Z)
    | Some o => stored (register p w).2 = Some o
                ∧ stored (register p' (register p w).2).2 = Some o
    end
  ∧ (∀ w0, dict_get "H" (registered_fallbacks
        (handle_register_fallback override_H (mkRegister "H" (Some 50%Z)) w0).2)
           = Some 3%Z)
  ∧ in_band (mkRange 0 5) 3 = true.
Proof.
  intros Hd deregister register stored.
  assert (Hgone : ∀ w1, sid ∉ (registered_fallbacks w1).*1 →
                        deregister w1 = (Ok tt, w1)).
  { intros w1 Hno. unfold deregister, handle_deregister_fallback, dict_contains.
    simpl. by rewrite bool_decide_eq_false_2. }
  split_and!.
  - apply Hgone.
  - apply Hgone. unfold deregister, handle_deregister_fallback, dict_contains.
    simpl. case_bool_decide as Hin; simpl; [|done].
    by apply dict_pop_keys.
  - unfold stored, register. rewrite !register_stores.
    destruct (fallback_priorities fc !! sid); [done|]. cbn [default].
    split.
    + intros v -> Hv. cbn [py_or]. by rewrite (proj2 (Z.eqb_neq v 0) Hv).
    + by intros [-> | ->].
  - intros w0. by rewrite register_stores.
  - done.
Qed.

Lemma registry_semantics_witness :
  handle_deregister_fallback (mkRegister "H" None) weather_world
  = (Ok tt, weather_world)
  ∧ dict_get "H" (registered_fallbacks
       (handle_register_fallback override_H (mkRegister "H" (Some 7%Z))
          (handle_register_fallback override_H (mkRegister "H" (Some 50%Z))
             weather_world).2).2) = Some 3%Z
  ∧ dict_get "A" (registered_fallbacks
       (handle_register_fallback no_overrides (mkRegister "A" (Some 7%Z))
          (handle_register_fallback no_overrides (mkRegister "A" (Some 50%Z))
             weather_world).2).2) = Some 7%Z
  ∧ dict_get "A" (registered_fallbacks
       (handle_register_fallback no_overrides (mkRegister "A" (Some 0%Z))
          (handle_register_fallback no_overrides (mkRegister "A" (Some 50%Z))
             weather_world).2).2) = Some 101%Z.
Proof.
  assert (Hd : NoDup (registered_fallbacks weather_world).*1).
  { compute_done. }
  destruct (registry_semantics override_H weather_world "H"
              (Some 50%Z) (Some 7%Z) Hd) as (H1 & _ & H3 & _).
  destruct (registry_semantics no_overrides weather_world "A"
              (Some 50%Z) (Some 7%Z) Hd) as (_ & _ & H7 & _).
  destruct (registry_semantics no_overrides weather_world "A"
              (Some 50%Z) (Some 0%Z) Hd) as (_ & _ & H0 & _).
  split_and!.
  - apply H1. compute_done.
  - exact (proj2 H3).
  - apply (proj1 H7 7%Z); [reflexivity|discriminate].
  - apply (proj2 H0). right. reflexivity.
Defined.

(** C10. A registration whose priority is absent, null or 0 stores priority
    101 when no override exists, which lies in the low band (90, 101] and not
    in the high band. *)
Theorem falsy_priority_is_101 (fc : FallbackConfig) (w : World)
    (sid : string) (p : option Z) :
  fallback_priorities fc !! sid = None →
  p = None ∨ p = Some 0%Z →
  dict_get sid
    (registered_fallbacks (handle_register_fallback fc (mkRegister sid p) w).2)
  = Some 101%Z
  ∧ in_band (mkRange 90 101) 101 = true
  ∧ in_band (mkRange 0 5) 101 = false.
Proof.
  intros Hno Hp. rewrite register_stores, Hno.
  by destruct Hp as [-> | ->].
Qed.

Lemma falsy_priority_is_101_witness :
  dict_get "zero"
    (registered_fallbacks
       (handle_register_fallback no_overrides (mkRegister "zero" (Some 0%Z))
          weather_world).2)
  = Some 101%Z
  ∧ in_band (mkRange 90 101) 101 = true
  ∧ in_band (mkRange 0 5) 101 = false.
Proof.
  apply (falsy_priority_is_101 no_overrides weather_world "zero" (Some 0%Z)).
  - reflexivity.
  - right. reflexivity.
Defined.

(** ** Language resolution *)

(** C5, evaluated on the code.  With [lang = "en-us"] and
    [secondary_langs = ["pt-pt"]] configured and an utterance tagged
    [stt_lang = "pt-pt"], the valid set of the specification contains
    "pt-pt", but the set the code builds reads the key ["secondary_langs'"],
    which holds nothing, so the tag is skipped and the default "en-us" is
    returned. *)
Theorem secondary_langs_are_ignored :
  context portuguese !! "stt_lang" = Some "pt-pt"
  ∧ "pt-pt" ∈ valid_langs_spec bilingual
  ∧ valid_langs bilingual = ["en-us"]
  ∧ get_message_lang quiet_env portuguese = "en-us"
  ∧ disambiguate_lang quiet_env bilingual portuguese = "en-us".
Proof.
  split_and!; try (vm_compute; reflexivity).
  compute_done.
Qed.

(** ** Discovery *)

Lemma world_eta w :
  mkWorld (registered_fallbacks w) (listeners w) (trace w ++ []) = w.
Proof. destruct w. simpl. by rewrite app_nil_r. Qed.

Lemma remove_first_Permutation {A} `{EqDecision A} (x : A) (l : list A) :
  remove_first x (l ++ [x]) ≡ₚ l.
Proof.
  induction l as [|y l IH]; simpl.
  - by rewrite decide_True.
  - destruct (decide (x = y)) as [->|Hne].
    + by rewrite <-Permutation_cons_append.
    + by rewrite IH.
Qed.

Lemma remove_first_fresh {A} `{EqDecision A} (x : A) (l : list A) :
  x ∉ l → remove_first x (l ++ [x]) = l.
Proof.
  induction l as [|y l IH]; simpl; intros Hx.
  - by rewrite decide_True.
  - apply not_elem_of_cons in Hx as [Hne Hx].
    rewrite decide_False by done. by rewrite IH.
Qed.

Section DiscoveryFacts.
Context (env : Env).

Lemma handle_ack_run p acc w :
  ∃ acc', handle_ack p acc w = (Ok acc', add_event (EvPong p) w).
Proof. by eexists. Qed.

Lemma deliver_run ps acc w :
  ∃ acc' evs,
    deliver ps acc w
    = (Ok acc', mkWorld (registered_fallbacks w) (listeners w)
                  (trace w ++ evs))
    ∧ Forall discovery_event evs.
Proof.
  revert acc w. induction ps as [|p ps IH]; intros acc w; simpl.
  - exists acc, []. by rewrite world_eta.
  - unfold bind at 1. destruct (handle_ack_run p acc w) as [acc1 ->].
    destruct (IH acc1 (add_event (EvPong p) w)) as (acc2 & evs & -> & Hevs).
    exists acc2, (EvPong p :: evs). simpl. rewrite <-app_assoc.
    split; [done|]. by constructor.
Qed.

Lemma wait_for_acks_run n acc w :
  ∃ acc' evs,
    wait_for_acks env n acc w
    = (Ok acc', mkWorld (registered_fallbacks w) (listeners w)
                  (trace w ++ evs))
    ∧ Forall discovery_event evs.
Proof.
  revert acc w. induction n as [|n IH]; intros acc w; simpl;
    unfold bind at 1, registry at 1.
  - exists acc, []. rewrite world_eta. by destruct (all_answered _ _).
  - destruct (all_answered _ _).
    { exists acc, []. by rewrite world_eta. }
    unfold bind, log, history. simpl.
    destruct (deliver_run (pongs env (trace w ++ [EvSleep])) acc
                (add_event EvSleep w)) as (acc1 & evs1 & -> & Hevs1).
    match goal with |- context [wait_for_acks env n acc1 ?w2] =>
      destruct (IH acc1 w2) as (acc2 & evs2 & -> & Hevs2)
    end.
    exists acc2, (EvSleep :: evs1 ++ evs2). simpl.
    rewrite <-!app_assoc. split; [done|].
    constructor; [done|]. by apply Forall_app.
Qed.

(** One discovery round, from subscription to removal. *)
Lemma collect_run msg band w :
  let pong := ("ovos.skills.fallback.pong", "handle_ack") in
  if emit_ok env (trace w ++ [EvOn pong.1 pong.2]) "ovos.skills.fallback.ping"
  then ∃ skills evs,
      _collect_fallback_skills env msg band w
      = (Ok skills, mkWorld (registered_fallbacks w)
                      (remove_first pong (listeners w ++ [pong]))
                      (trace w ++ evs))
      ∧ Forall discovery_event evs
  else _collect_fallback_skills env msg band w
       = (Raise TransportError,
          mkWorld (registered_fallbacks w) (listeners w ++ [pong])
            (trace w ++ [EvOn pong.1 pong.2])).
Proof.
  unfold _collect_fallback_skills, bind, registry, bus_on, bus_emit, history.
  simpl. destruct (emit_ok env _ _); [|done].
  set (w1 := add_event _ (add_event _ _)).
  match goal with |- context [deliver ?ps ?acc0 w1] =>
    destruct (deliver_run ps acc0 w1) as (acc1 & evs1 & -> & Hevs1)
  end.
  match goal with |- context [wait_for_acks env ?n acc1 ?w2] =>
    destruct (wait_for_acks_run n acc1 w2) as (acc2 & evs2 & -> & Hevs2)
  end.
  unfold bus_remove, ret. subst w1. simpl.
  exists acc2.2,
    (EvOn "ovos.skills.fallback.pong" "handle_ack"
     :: EvEmit "ovos.skills.fallback.ping"
          (PData (data_utterances msg) (data_lang msg))
     :: evs1 ++ evs2 ++ [EvRemove "ovos.skills.fallback.pong" "handle_ack"]).
  split.
  - unfold add_event, set_listeners. simpl. do 2 f_equal.
    by rewrite <-!app_assoc.
  - do 2 (constructor; [done|]).
    repeat (apply Forall_app; split); by repeat constructor.
Qed.

Lemma appends_collect msg band :
  appends discovery_event (_collect_fallback_skills env msg band).
Proof.
  intros w. pose proof (collect_run msg band w) as Hrun. simpl in Hrun.
  destruct (emit_ok env _ _).
  - destruct Hrun as (skills & evs & -> & Hevs). by exists evs.
  - rewrite Hrun. eexists. split; [done|]. by repeat constructor.
Qed.

Lemma collect_keeps_registry msg band w :
  registered_fallbacks (_collect_fallback_skills env msg band w).2
  = registered_fallbacks w.
Proof.
  pose proof (collect_run msg band w) as Hrun. simpl in Hrun.
  destruct (emit_ok env _ _).
  - by destruct Hrun as (skills & evs & -> & Hevs).
  - by rewrite Hrun.
Qed.
End DiscoveryFacts.

(** C9 as the code has it.  When the bus accepts the ping, the round returns
    (whether every handler answered or the deadline passed) and the listener
    it subscribed is removed again; when the emit of the ping raises, the
    exception leaves [_collect_fallback_skills] before [bus.remove] and the
    listener stays subscribed. *)
Theorem discovery_listener_removed_unless_raised (env : Env) (msg : Message)
    (band : FallbackRange) (w : World) :
  let pong := ("ovos.skills.fallback.pong", "handle_ack") in
  let run := _collect_fallback_skills env msg band w in
  if emit_ok env (trace w ++ [EvOn pong.1 pong.2]) "ovos.skills.fallback.ping"
  then (∃ skills, run.1 = Ok skills) ∧ listeners run.2 ≡ₚ listeners w
  else run.1 = Raise TransportError ∧ listeners run.2 = listeners w ++ [pong].
Proof.
  intros pong run. pose proof (collect_run env msg band w) as Hrun.
  simpl in Hrun. unfold run.
  destruct (emit_ok env _ _).
  - destruct Hrun as (skills & evs & -> & _). simpl. split; [by eexists|].
    apply remove_first_Permutation.
  - by rewrite Hrun.
Qed.

(** C9 as stated fails: the transport refuses the ping, the call raises and
    the pong listener is still in the listener table, which was empty. *)
Lemma discovery_listener_leaks :
  listeners weather_world = []
  ∧ _collect_fallback_skills down_env weather (mkRange 0 5) weather_world
    = (Raise TransportError,
       mkWorld [("B", 4%Z); ("A", 2%Z)]
         [("ovos.skills.fallback.pong", "handle_ack")]
         [EvOn "ovos.skills.fallback.pong" "handle_ack"]).
Proof. split; reflexivity. Qed.

(** ** One priority band *)

Lemma declines_or_accepts (r : option Response) :
  let taken :=
    match r with
    | Some x =>
        match data_error x with
        | Some _ => false
        | None => truthy_bool (data_result x)
        end
    | None => false
    end in
  (declines r ∧ taken = false) ∨ (∃ x, r = Some x ∧ accepts x ∧ taken = true).
Proof.
  destruct r as [[[e|] [[]|] h]|]; simpl; unfold accepts; simpl;
    try (left; split; [|done]; by (left + right)); [|by left].
  right. by eexists.
Qed.

Lemma accepts_not_declines x : accepts x → declines (Some x) → False.
Proof. intros [He Hr] [H|H]; done. Qed.

Lemma requests_app l1 l2 : requests (l1 ++ l2) = requests l1 ++ requests l2.
Proof. apply omap_app. Qed.

Lemma requests_discovery l : Forall discovery_event l → requests l = [].
Proof.
  induction 1 as [|e l He _ IH]; [done|].
  destruct e as [| |ty []| | | | | | | |]; simpl in *; done.
Qed.

Lemma requests_legacy l : Forall legacy_event l → requests l = [].
Proof.
  induction 1 as [|e l He _ IH]; [done|].
  destruct e as [| |ty []|[] | | | | | | |]; simpl in *; done.
Qed.

Section BandFacts.
Context (env : Env) (fc : FallbackConfig).
Implicit Types (w : World) (hs : list (string * Z)).

(** What one attempt does, step by step. *)
Lemma attempt_fallback_run utts sid lng msg w :
  attempt_fallback env fc utts sid lng msg w =
  if _fallback_allowed fc sid then
    match utts with
    | [] => (Raise IndexError, w)
    | u :: _ =>
        let ty := "ovos.skills.fallback." +:+ sid +:+ ".request" in
        let rty := "ovos.skills.fallback." +:+ sid +:+ ".response" in
        let d := PRequest sid utts u lng in
        if emit_ok env (trace w) ty then
          let r := response env (trace w ++ [EvEmit ty d]) rty in
          (Ok match r with
              | Some x =>
                  match data_error x with
                  | Some _ => false
                  | None => truthy_bool (data_result x)
                  end
              | None => false
              end,
           add_event (EvResponse d rty r) (add_event (EvEmit ty d) w))
        else (Raise TransportError, w)
    end
  else (Ok false, w).
Proof.
  unfold attempt_fallback. destruct (_fallback_allowed fc sid); [|done].
  destruct utts as [|u utts]; [done|].
  unfold bind at 1. rewrite bus_wait_run.
  destruct (emit_ok env _ _); [|done]. simpl.
  destruct (response env _ _) as [x|]; [|done].
  by destruct (data_error x).
Qed.

(** The events of the loop over the candidates [hs]: a request goes, in
    the order of [hs], to every allowed candidate up to the one that
    stops the loop. *)
Lemma attempt_each_run utts lng msg hs w v w' :
  attempt_each env fc utts lng msg hs w = (v, w') →
  ∃ att k,
    trace w' = trace w ++ att
    ∧ attempts att v
    ∧ requests att = filter (allowed fc) (take k hs.*1).
Proof.
  revert w. induction hs as [|[sid p] hs IH]; intros w; simpl.
  { intros [= <- <-]. exists [], 0%nat. rewrite app_nil_r.
    split_and!; by try constructor. }
  unfold bind at 1. rewrite attempt_fallback_run.
  destruct (_fallback_allowed fc sid) eqn:Hal.
  - destruct utts as [|u utts'].
    { intros [= <- <-]. exists [], 0%nat. simpl. rewrite app_nil_r.
      split_and!; by try constructor. }
    simpl. destruct (emit_ok env _ _).
    + set (ty := "ovos.skills.fallback." +:+ sid +:+ ".request").
      set (rty := "ovos.skills.fallback." +:+ sid +:+ ".response").
      set (d := PRequest sid (u :: utts') u lng).
      set (r := response env _ rty).
      destruct (declines_or_accepts r) as [[Hdec ->]|(x & Hr & Hacc & ->)].
      * intros (att & k & Ht & Hshape & Hreq)%IH.
        exists (EvEmit ty d :: EvResponse d rty r :: att), (S k).
        split_and!.
        -- rewrite Ht. simpl. by rewrite <-!app_assoc.
        -- by constructor.
        -- simpl. rewrite filter_cons_True by done. by rewrite Hreq.
      * intros [= <- <-].
        exists [EvEmit ty d; EvResponse d rty r], 1%nat. simpl.
        rewrite <-app_assoc, ?take_0, Hr, filter_cons_True by done.
        split_and!; try done. by constructor.
    + intros [= <- <-]. exists [], 0%nat. simpl. rewrite app_nil_r.
      split_and!; by try constructor.
  - intros (att & k & Ht & Hshape & Hreq)%IH.
    exists att, (S k). simpl. rewrite filter_cons_False; [done|].
    unfold allowed. by rewrite Hal.
Qed.

Lemma appends_fallbacks_of msg band hs :
  appends discovery_event (fallbacks_of env msg band hs).
Proof.
  induction hs as [|[k v] hs IH]; simpl; [apply appends_ret|].
  apply appends_bind; [apply appends_collect|]. intros c.
  apply appends_bind; [apply IH|]. intros rest. apply appends_ret.
Qed.

Lemma fallbacks_of_sublist msg band hs w fallbacks w1 :
  fallbacks_of env msg band hs w = (Ok fallbacks, w1) →
  fallbacks `sublist_of` hs.
Proof.
  revert w fallbacks w1. induction hs as [|[k v] hs IH];
    intros w fallbacks w1; simpl.
  { intros [= <- _]. done. }
  unfold bind.
  destruct (_collect_fallback_skills env msg band w) as [[c|e] w2]; [|done].
  destruct (fallbacks_of env msg band hs w2) as [[rest|e] w3] eqn:E; [|done].
  intros [= <- _]. apply IH in E.
  case_bool_decide; [by apply sublist_skip|by apply sublist_cons].
Qed.
End BandFacts.

Section BandRun.
Context (env : Env) (fc : FallbackConfig).

(** The events of one band: discovery rounds, then the attempts, then the
    legacy request when no candidate took the utterance. *)
Lemma fallback_range_run utts lng msg band w r w' :
  let msg' := mkMessage (msg_type msg) utts (Some lng) (context msg) in
  _fallback_range env fc utts lng msg band w = (r, w') →
  ∃ disc att leg v,
    trace w' = trace w ++ disc ++ att ++ leg
    ∧ Forall discovery_event disc
    ∧ attempts att v
    ∧ Forall legacy_event leg
    ∧ (v = Ok true → leg = [] ∧ r = Ok (Some fallback_match, msg'))
    ∧ (∀ m x, r = Ok (m, x) →
         x = msg' ∧ (m = None ∨ m = Some fallback_match))
    ∧ (∃ fallbacks k,
         fallbacks `sublist_of` registered_fallbacks w
         ∧ requests att
           = filter (allowed fc) (take k (py_sorted snd fallbacks).*1)
         ∧ ∀ fb w1,
             fallbacks_of env msg' band (registered_fallbacks w) w
             = (Ok fb, w1) → fb = fallbacks).
Proof.
  intros msg'. unfold _fallback_range. fold msg'.
  unfold bind at 1, registry at 1.
  unfold bind at 1.
  destruct (appends_fallbacks_of env msg' band (registered_fallbacks w) w)
    as (disc & Hdisc & HPdisc).
  destruct (fallbacks_of env msg' band (registered_fallbacks w) w)
    as [[fallbacks|e] w1] eqn:Efb; simpl in Hdisc.
  2:{ intros [= <- <-]. exists disc, [], [], (Raise e).
      rewrite !app_nil_r. split_and!; try done; try constructor.
      exists [], 0%nat. split_and!; try done. apply sublist_nil_l. }
  unfold bind at 1.
  destruct (attempt_each env fc utts lng msg' (py_sorted snd fallbacks) w1)
    as [v w2] eqn:Eatt.
  destruct (attempt_each_run env fc _ _ _ _ _ _ _ Eatt)
    as (att & k & Hatt & Hshape & Hreq).
  assert (Hk : ∃ fallbacks0 k0,
    fallbacks0 `sublist_of` registered_fallbacks w
    ∧ requests att
      = filter (allowed fc) (take k0 (py_sorted snd fallbacks0).*1)
    ∧ ∀ fb w0, (Ok fallbacks, w1) = (Ok fb, w0) → fb = fallbacks0).
  { exists fallbacks, k. split_and!; [|done|by intros ? ? [= <- <-]].
    by eapply fallbacks_of_sublist. }
  destruct v as [[|]|e].
  - intros [= <- <-]. exists disc, att, [], (Ok true).
    rewrite app_nil_r, Hatt, Hdisc, app_assoc.
    split_and!; try done.
    intros m x [= <- <-]. auto.
  - destruct utts as [|u utts'].
    { intros [= <- <-]. exists disc, att, [], (Ok false).
      rewrite app_nil_r, Hatt, Hdisc, app_assoc. by split_and!. }
    unfold bind at 1. rewrite bus_wait_run.
    destruct (emit_ok env _ _).
    2:{ intros [= <- <-]. exists disc, att, [], (Ok false).
        rewrite app_nil_r, Hatt, Hdisc, app_assoc. by split_and!. }
    simpl.
    set (d := PLegacy u lng (start band, stop band)).
    set (rty := "mycroft.skills.fallback.response").
    set (rep := response env _ rty).
    intros Hrun.
    exists disc, att,
      [EvEmit "mycroft.skills.fallback" d; EvResponse d rty rep], (Ok false).
    assert (Ht : trace w' = trace w ++ disc ++ att
                   ++ [EvEmit "mycroft.skills.fallback" d;
                       EvResponse d rty rep]).
    { destruct rep as [x|]; [destruct (data_handled x) as [[]|]|];
        injection Hrun as <- <-; simpl;
        rewrite Hatt, Hdisc, <-!app_assoc; done. }
    split_and!; try done.
    + by repeat constructor.
    + intros m x Hr. subst r.
      destruct rep as [y|]; [destruct (data_handled y) as [[]|]|];
        unfold ret, raise in Hrun; simplify_eq; auto.
  - intros [= <- <-]. exists disc, att, [], (Raise e).
    rewrite app_nil_r, Hatt, Hdisc, app_assoc. by split_and!.
Qed.

Lemma appends_fallback_range utts lng msg band :
  appends band_event (_fallback_range env fc utts lng msg band).
Proof.
  intros w.
  destruct (_fallback_range env fc utts lng msg band w) as [r w'] eqn:E.
  destruct (fallback_range_run _ _ _ _ _ _ _ E)
    as (disc & att & leg & v & Ht & Hd & Ha & Hl & _).
  exists (disc ++ att ++ leg). split; [done|].
  repeat (apply Forall_app; split).
  - eapply Forall_impl; [done|]. by left.
  - clear -Ha. induction Ha; repeat constructor; try done;
      by (right; left).
  - eapply Forall_impl; [done|]. by (right; right).
Qed.
End BandRun.

(** ** Declines and acceptance within a band *)

Lemma events_since_refl w : events_since w w = [].
Proof. unfold events_since. by rewrite drop_all. Qed.

Lemma events_since_two e1 e2 w :
  events_since w (add_event e2 (add_event e1 w)) = [e1; e2].
Proof. apply events_since_app. simpl. by rewrite <-app_assoc. Qed.

(** An element of the middle part of a list that occurs in neither end. *)
Lemma app_eq_middle {A} (x : A) (l1 l2 l3 pre post : list A) :
  l1 ++ l2 ++ l3 = pre ++ x :: post → x ∉ l1 → x ∉ l3 →
  ∃ pre' post', l2 = pre' ++ x :: post' ∧ pre = l1 ++ pre' ∧ post = post' ++ l3.
Proof.
  intros Heq H1 H3.
  apply app_eq_inv in Heq as [(k & -> & Hk)|(k & -> & Hk)].
  - destruct k as [|y k]; simpl in Hk.
    + symmetry in Hk.
      change (x :: post) with ([] ++ x :: post) in Hk.
      apply app_eq_inv in Hk as [(k2 & Hl2 & Hk2)|(k2 & Hnil & Hl3)].
      * destruct k2 as [|z k2]; simpl in Hk2.
        { destruct H3. rewrite <-Hk2. apply list_elem_of_here. }
        injection Hk2 as <- ->. exists [], k2. by rewrite !app_nil_r.
      * symmetry in Hnil. apply app_eq_nil in Hnil as [-> ->].
        simpl in Hl3. destruct H3. rewrite Hl3. apply list_elem_of_here.
    + injection Hk as <- _. destruct H1. set_solver.
  - apply app_eq_inv in Hk as [(k2 & -> & Hk2)|(k2 & -> & Hl3)].
    + destruct k2 as [|z k2]; simpl in Hk2.
      { destruct H3. rewrite <-Hk2. apply list_elem_of_here. }
      injection Hk2 as <- ->. by exists k, k2.
    + destruct H3. rewrite Hl3. set_solver.
Qed.

Lemma attempts_accept_last att v pre post d rty x :
  attempts att v → att = pre ++ EvResponse d rty (Some x) :: post →
  accepts x → post = [] ∧ v = Ok true.
Proof.
  intros Hatt. revert pre.
  induction Hatt as [|e|ty sid us u l rty' r evs v Hdec Hatt IH
                     |ty sid us u l rty' y Hacc]; intros pre Heq Hx.
  - by destruct pre.
  - by destruct pre.
  - destruct pre as [|a [|b pre]]; simpl in Heq.
    + done.
    + injection Heq as _ _ _ -> _. by destruct (accepts_not_declines x).
    + injection Heq as _ _ Heq. by eapply IH.
  - destruct pre as [|a [|b pre]]; simpl in Heq.
    + done.
    + by injection Heq as _ _ _ _ <-.
    + injection Heq as _ _ Heq. by destruct pre.
Qed.

Lemma response_not_discovery d rty r l :
  Forall discovery_event l → EvResponse d rty r ∉ l.
Proof.
  intros Hl Hin. rewrite Forall_forall in Hl. by apply Hl in Hin.
Qed.

Lemma handler_response_not_legacy sid us u lng rty r l :
  Forall legacy_event l → EvResponse (PRequest sid us u lng) rty r ∉ l.
Proof.
  intros Hl Hin. rewrite Forall_forall in Hl. by apply Hl in Hin.
Qed.

(** C7. A per-handler attempt that got a reply with an ['error'] key, a reply
    whose ['result'] is false or absent, or no reply before the timeout,
    returns false; and after an attempt that returned false the loop goes on
    with the remaining candidates from the state that attempt left. *)
Theorem decline_affects_only_that_handler (env : Env) (fc : FallbackConfig)
    (utts : list string) (sid : string) (p : Z) (lng : string)
    (msg : Message) (rest : list (string * Z)) (w : World)
    (ty rty : string) (d : payload) (rep : option Response) :
  let attempt := attempt_fallback env fc utts sid lng msg w in
  events_since w attempt.2 = [EvEmit ty d; EvResponse d rty rep] →
  rep = None
  ∨ (∃ x, rep = Some x
          ∧ (is_Some (data_error x) ∨ data_result x = Some false
             ∨ data_result x = None)) →
  attempt.1 = Ok false
  ∧ attempt_each env fc utts lng msg ((sid, p) :: rest) w
    = attempt_each env fc utts lng msg rest attempt.2.
Proof.
  intros attempt Hev Hrep.
  assert (Hfalse : attempt.1 = Ok false).
  { unfold attempt in *. rewrite attempt_fallback_run in Hev |- *.
    destruct (_fallback_allowed fc sid);
      [|by rewrite events_since_refl in Hev].
    destruct utts as [|u utts']; [by rewrite events_since_refl in Hev|].
    simpl in *. destruct (emit_ok env _ _);
      [|by rewrite events_since_refl in Hev].
    simpl in *. rewrite events_since_two in Hev.
    injection Hev as _ _ _ _ Hr. rewrite Hr.
    destruct Hrep as [->|(x & -> & Hx)]; [done|].
    destruct Hx as [[e He]|[Hx|Hx]]; simpl.
    - by rewrite He.
    - rewrite Hx. by destruct (data_error x).
    - rewrite Hx. by destruct (data_error x). }
  split; [done|].
  simpl. unfold bind at 1. fold attempt.
  destruct attempt as [[b|e] w1]; simpl in *; by simplify_eq.
Qed.

Lemma decline_affects_only_that_handler_witness :
  attempt_fallback weather_env no_overrides ["what is the weather"] "A"
    "en-us" weather weather_world
  = (Ok false,
     mkWorld [("B", 4%Z); ("A", 2%Z)] []
       [EvEmit "ovos.skills.fallback.A.request"
          (PRequest "A" ["what is the weather"] "what is the weather" "en-us");
        EvResponse
          (PRequest "A" ["what is the weather"] "what is the weather" "en-us")
          "ovos.skills.fallback.A.response"
          (Some (mkResponse None (Some false) None))])
  ∧ requests (trace (attempt_each weather_env no_overrides
                       ["what is the weather"] "en-us" weather
                       [("A", 2%Z); ("B", 4%Z)] weather_world).2)
    = ["A"; "B"].
Proof.
  pose proof (decline_affects_only_that_handler weather_env no_overrides
    ["what is the weather"] "A" 2 "en-us" weather [("B", 4%Z)] weather_world
    "ovos.skills.fallback.A.request" "ovos.skills.fallback.A.response"
    (PRequest "A" ["what is the weather"] "what is the weather" "en-us")
    (Some (mkResponse None (Some false) None))) as H.
  destruct H as [H1 H2].
  - reflexivity.
  - right. eexists. split; [reflexivity|]. right. left. reflexivity.
  - split; [reflexivity|]. rewrite H2. reflexivity.
Defined.

(** C6. When a handler answers its request with [result = True] and no
    error, nothing more happens in the band (no further candidate is asked,
    no legacy request is sent) and the band returns
    [IntentMatch('Fallback', None, {}, None)], which does not name the
    handler.  In the scenario of the specification (every other stage
    declines, B registered with priority 4 and A with priority 2 in the high
    band, A answers false and B true) the router returns that match, asks A
    and then B, and stops at the high band. *)
Theorem accepted_attempt_ends_band (env : Env) (fc : FallbackConfig)
    (utts : list string) (lng : string) (msg : Message)
    (band : FallbackRange) (w : World) :
  let run := _fallback_range env fc utts lng msg band w in
  (∀ pre post sid us u l rty x,
     events_since w run.2
     = pre ++ EvResponse (PRequest sid us u l) rty (Some x) :: post →
     data_error x = None → data_result x = Some true →
     post = [] ∧ match_of run.1 = Ok (Some (mkMatch "Fallback" None ∅ None)))
  ∧ (let out := handle_utterance weather_env no_overrides english weather
                  weather_world in
     (∃ ctx, out.1 = Ok (Some (Some (mkMatch "Fallback" None ∅ None), ctx)))
     ∧ requests (trace out.2) = ["A"; "B"]
     ∧ stage_calls (trace out.2)
       = [Converse; PadatiousHigh; Adapt; CommonQA; FallbackHigh]
     ∧ failure_signals (trace out.2) = 0%nat).
Proof.
  intros run. split.
  - intros pre post sid us u l rty x Hev He Hr.
    destruct run as [r w'] eqn:Erun. unfold run in Erun.
    destruct (fallback_range_run _ _ _ _ _ _ _ _ _ Erun)
      as (disc & att & leg & v & Ht & Hd & Ha & Hl & Htaken & _).
    simpl in Hev. rewrite (events_since_app _ _ _ Ht) in Hev.
    apply app_eq_middle in Hev as (pre' & post' & Hatt & _ & ->).
    + destruct (attempts_accept_last _ _ _ _ _ _ _ Ha Hatt) as [-> ->];
        [done|].
      destruct (Htaken eq_refl) as [-> ->]. done.
    + by apply response_not_discovery.
    + by apply handler_response_not_legacy.
  - vm_compute. split_and!; try reflexivity. by eexists.
Qed.

Lemma accepted_attempt_ends_band_witness :
  match_of (_fallback_range weather_env no_overrides ["what is the weather"]
              "en-us" weather (mkRange 0 5) weather_world).1
  = Ok (Some (mkMatch "Fallback" None ∅ None)).
Proof.
  pose (rq := λ sid, PRequest sid ["what is the weather"]
                       "what is the weather" "en-us").
  pose (round :=
    [EvOn "ovos.skills.fallback.pong" "handle_ack";
     EvEmit "ovos.skills.fallback.ping"
       (PData ["what is the weather"] (Some "en-us"));
     EvPong (mkPong "B" (Some true)); EvPong (mkPong "A" (Some true));
     EvRemove "ovos.skills.fallback.pong" "handle_ack"]).
  destruct (accepted_attempt_ends_band weather_env no_overrides
              ["what is the weather"] "en-us" weather (mkRange 0 5)
              weather_world) as [H _].
  apply (H (round ++ round ++
             [EvEmit "ovos.skills.fallback.A.request" (rq "A");
              EvResponse (rq "A") "ovos.skills.fallback.A.response"
                (Some (mkResponse None (Some false) None));
              EvEmit "ovos.skills.fallback.B.request" (rq "B")])
           [] "B" ["what is the weather"] "what is the weather" "en-us"
           "ovos.skills.fallback.B.response"
           (mkResponse None (Some true) None)).
  - vm_compute. reflexivity.
  - reflexivity.
  - reflexivity.
Defined.

(** C3, evaluated on the code.  A is registered with priority 50, outside the
    band (0, 5], and answers the ping with [can_handle = True]; the listener
    adds it to the willing handlers without looking at the band, and the
    high band sends A a direct request. *)
Theorem out_of_band_handler_is_asked :
  let run := high_prio eager_env no_overrides ["what is the weather"] "en-us"
               weather medium_world in
  registered_fallbacks medium_world = [("A", 50%Z)]
  ∧ in_band (mkRange 0 5) 50 = false
  ∧ requests (trace run.2) = ["A"]
  ∧ match_of run.1 = Ok (Some fallback_match).
Proof. vm_compute. by split_and!. Qed.

(** ** Order of the attempts within a band *)

Section OrderFacts.
Context (fc : FallbackConfig) (reg fallbacks : list (string * Z))
  (k : nat).
Context (Hreg : NoDup reg.*1) (Hsub : fallbacks `sublist_of` reg).

Local Abbreviation sorted_handlers := (py_sorted snd fallbacks).
Local Abbreviation reqs := (filter (allowed fc) (take k sorted_handlers.*1)).

Lemma sorted_handlers_keys_NoDup : NoDup sorted_handlers.*1.
Proof.
  rewrite py_sorted_Permutation.
  apply (sublist_NoDup _ reg.*1); [done|]. by apply (fmap_sublist fst).
Qed.

Lemma reqs_sublist : reqs `sublist_of` sorted_handlers.*1.
Proof.
  etrans; [apply sublist_filter|apply sublist_take].
Qed.

Lemma reqs_NoDup : NoDup reqs.
Proof.
  eapply sublist_NoDup; [apply sorted_handlers_keys_NoDup|].
  apply reqs_sublist.
Qed.

Lemma sorted_handlers_in_reg x : x ∈ sorted_handlers → x ∈ reg.
Proof.
  rewrite py_sorted_Permutation.
  intros Hx. by eapply elem_of_sublist.
Qed.

Lemma reg_functional h p p' : (h, p) ∈ reg → (h, p') ∈ reg → p = p'.
Proof.
  intros H1 H2. apply dict_get_elem_of in H1, H2; [|done..]. congruence.
Qed.

(** Two handlers asked in some order stand in that order among the sorted
    candidates. *)
Lemma reqs_before_sorted h1 h2 p1 p2 :
  before h1 h2 reqs → (h1, p1) ∈ reg → (h2, p2) ∈ reg →
  before (h1, p1) (h2, p2) sorted_handlers.
Proof.
  intros Hb H1 H2.
  apply (before_sublist _ _ _ _ reqs_sublist) in Hb.
  apply before_fmap_inv in Hb as ([x1 q1] & [x2 q2] & Hb & Hx1 & Hx2).
  simpl in *. subst x1 x2.
  destruct (before_elem_of _ _ _ Hb) as [Hin1 Hin2].
  apply sorted_handlers_in_reg in Hin1, Hin2.
  by rewrite (reg_functional _ _ _ H1 Hin1), (reg_functional _ _ _ H2 Hin2).
Qed.

Lemma reqs_lower_priority_first i j h1 h2 p1 p2 :
  reqs !! i = Some h1 → reqs !! j = Some h2 →
  (h1, p1) ∈ reg → (h2, p2) ∈ reg → (p1 < p2)%Z → (i < j)%nat.
Proof.
  intros Hi Hj H1 H2 Hlt.
  destruct (lt_eq_lt_dec i j) as [[?| ->]|Hji]; [done| |].
  - assert (h1 = h2) as -> by congruence.
    pose proof (reg_functional _ _ _ H1 H2). lia.
  - assert (Hb : before h2 h1 reqs) by (by exists j, i).
    apply (reqs_before_sorted _ _ p2 p1) in Hb; [|done..].
    apply (before_sorted (key_le snd)) in Hb;
      [|apply py_sorted_sorted].
    unfold key_le in Hb. simpl in Hb. lia.
Qed.

Lemma reqs_ties_in_registration_order i j h1 h2 p :
  reqs !! i = Some h1 → reqs !! j = Some h2 →
  before (h1, p) (h2, p) reg → (i < j)%nat.
Proof.
  intros Hi Hj Hb.
  pose proof (NoDup_fmap_1 fst _ Hreg) as Hnd.
  destruct (before_elem_of _ _ _ Hb) as [H1 H2].
  destruct (lt_eq_lt_dec i j) as [[?| ->]|Hji]; [done| |].
  - assert (h1 = h2) as -> by congruence.
    by destruct (before_NoDup_ne _ _ _ Hnd Hb).
  - assert (Hb' : before h2 h1 reqs) by (by exists j, i).
    apply (reqs_before_sorted _ _ p p) in Hb'; [|done..].
    apply (before_filter_prop (λ a, a.2 = p)) in Hb'; [|done..].
    rewrite py_sorted_stable in Hb'.
    apply (before_sublist _ _ _ fallbacks) in Hb';
      [|apply sublist_filter].
    apply (before_sublist _ _ _ reg) in Hb'; [|done].
    by destruct (before_asym _ _ _ Hnd Hb Hb').
Qed.

Lemma reqs_earlier_candidate_was_asked j h1 h2 p1 p2 :
  (h1, p1) ∈ fallbacks → (h2, p2) ∈ fallbacks → (p1 < p2)%Z →
  allowed fc h1 → reqs !! j = Some h2 →
  ∃ i, (i < j)%nat ∧ reqs !! i = Some h1.
Proof.
  intros H1 H2 Hlt Hal Hj.
  assert (Hs1 : (h1, p1) ∈ sorted_handlers)
    by (by rewrite py_sorted_Permutation).
  assert (Hs2 : (h2, p2) ∈ sorted_handlers)
    by (by rewrite py_sorted_Permutation).
  assert (Hb : before (h1, p1) (h2, p2) sorted_handlers).
  { destruct (before_total _ _ _ Hs1 Hs2) as [Hb|Hb]; [|done|].
    - intros [= _ ->]. lia.
    - apply (before_sorted (key_le snd)) in Hb; [|apply py_sorted_sorted].
      unfold key_le in Hb. simpl in Hb. lia. }
  apply (before_fmap fst) in Hb. simpl in Hb.
  apply list_elem_of_lookup_2 in Hj as Hin.
  apply list_elem_of_filter in Hin as [Hal2 Hin].
  apply list_elem_of_lookup in Hin as [j' Hj'].
  apply (before_take _ _ _ k j') in Hb;
    [|done|apply sorted_handlers_keys_NoDup].
  apply (before_filter_prop (allowed fc)) in Hb; [|done..].
  destruct Hb as (i & j0 & Hij & Hi & Hj0).
  pose proof (NoDup_lookup _ _ _ _ reqs_NoDup Hj Hj0) as ->.
  by exists i.
Qed.
End OrderFacts.

(** C2. Within one band, with the registry holding each handler once: of two
    handlers that receive a direct request, the one with the lower priority
    receives it first, and of two with the same priority the one registered
    first; and when a handler that reported willingness (it is in the list of
    candidates that discovery yields) is sent a request, every willing
    handler of strictly lower priority that the access policy allows has been
    sent its request before. *)
Theorem attempts_follow_priority (env : Env) (fc : FallbackConfig)
    (utts : list string) (lng : string) (msg : Message)
    (band : FallbackRange) (w : World) :
  NoDup (registered_fallbacks w).*1 →
  let msg' := mkMessage (msg_type msg) utts (Some lng) (context msg) in
  let reg := registered_fallbacks w in
  let run := _fallback_range env fc utts lng msg band w in
  let reqs := requests (events_since w run.2) in
  (∀ i j h1 h2 p1 p2,
     reqs !! i = Some h1 → reqs !! j = Some h2 →
     (h1, p1) ∈ reg → (h2, p2) ∈ reg →
     ((p1 < p2)%Z → (i < j)%nat)
     ∧ (p1 = p2 → before (h1, p1) (h2, p2) reg → (i < j)%nat))
  ∧ (∀ fallbacks w1 h1 h2 p1 p2 j,
       fallbacks_of env msg' band reg w = (Ok fallbacks, w1) →
       (h1, p1) ∈ fallbacks → (h2, p2) ∈ fallbacks → (p1 < p2)%Z →
       allowed fc h1 → reqs !! j = Some h2 →
       ∃ i, (i < j)%nat ∧ reqs !! i = Some h1).
Proof.
  intros Hnd msg' reg run reqs.
  destruct run as [r w'] eqn:Erun. unfold run in Erun.
  destruct (fallback_range_run _ _ _ _ _ _ _ _ _ Erun)
    as (disc & att & leg & v & Ht & Hd & Ha & Hl & _ & _
        & fallbacks & k & Hsub & Hreq & Hfb).
  assert (Hreqs : reqs = filter (allowed fc)
                           (take k (py_sorted snd fallbacks).*1)).
  { unfold reqs. simpl. rewrite (events_since_app _ _ _ Ht), !requests_app.
    rewrite (requests_discovery disc), (requests_legacy leg) by done.
    simpl. by rewrite app_nil_r. }
  rewrite Hreqs. split.
  - intros i j h1 h2 p1 p2 Hi Hj H1 H2. split.
    + by eapply reqs_lower_priority_first.
    + intros -> Hb. by eapply reqs_ties_in_registration_order.
  - intros fb w1 h1 h2 p1 p2 j Hfbeq H1 H2 Hlt Hal Hj.
    apply Hfb in Hfbeq as ->.
    exact (reqs_earlier_candidate_was_asked fc reg fallbacks k Hnd Hsub
             j h1 h2 p1 p2 H1 H2 Hlt Hal Hj).
Qed.

Lemma attempts_follow_priority_witness :
  ∃ i, (i < 1)%nat
       ∧ requests (events_since weather_world
                     (_fallback_range weather_env no_overrides
                        ["what is the weather"] "en-us" weather (mkRange 0 5)
                        weather_world).2) !! i = Some "A".
Proof.
  assert (Hnd : NoDup (registered_fallbacks weather_world).*1)
    by compute_done.
  destruct (attempts_follow_priority weather_env no_overrides
              ["what is the weather"] "en-us" weather (mkRange 0 5)
              weather_world Hnd) as [_ H].
  apply (H [("B", 4%Z); ("A", 2%Z)]
           (fallbacks_of weather_env
              (mkMessage (msg_type weather) ["what is the weather"]
                 (Some "en-us") (context weather))
              (mkRange 0 5) (registered_fallbacks weather_world)
              weather_world).2
           "A" "B" 2%Z 4%Z 1%nat).
  - vm_compute. reflexivity.
  - compute_done.
  - compute_done.
  - reflexivity.
  - reflexivity.
  - vm_compute. reflexivity.
Defined.

(** ** The matching loop *)

Lemma stage_events_app l1 l2 :
  stage_events (l1 ++ l2) = stage_events l1 ++ stage_events l2.
Proof. apply List.filter_app. Qed.

Lemma failure_signals_app l1 l2 :
  failure_signals (l1 ++ l2) = (failure_signals l1 + failure_signals l2)%nat.
Proof. unfold failure_signals. by rewrite List.filter_app, length_app. Qed.

Lemma stage_events_quiet l : Forall quiet_event l → stage_events l = [].
Proof.
  induction 1 as [|e l [He _] _ IH]; [done|].
  unfold stage_events in *. simpl. by rewrite He.
Qed.

Lemma failure_signals_quiet l : Forall quiet_event l → failure_signals l = 0%nat.
Proof.
  induction 1 as [|e l [_ He] _ IH]; [done|].
  unfold failure_signals in *. simpl. by rewrite He.
Qed.

Lemma stage_calls_app l1 l2 :
  stage_calls (l1 ++ l2) = stage_calls l1 ++ stage_calls l2.
Proof. apply omap_app. Qed.

Lemma stage_calls_stage_events l : stage_calls (stage_events l) = stage_calls l.
Proof.
  induction l as [|e l IH]; [done|].
  unfold stage_events in *. destruct e; simpl; by rewrite ?IH.
Qed.

Lemma elem_of_stage_events e l :
  e ∈ stage_events l ↔ e ∈ l ∧ is_stage_event e = true.
Proof.
  unfold stage_events. rewrite !list_elem_of_In, List.filter_In. done.
Qed.

Lemma band_event_quiet e : band_event e → quiet_event e.
Proof.
  destruct e as [| |ty []|[]| | | | | | |]; intros [H|[H|H]];
    simpl in H; try done.
Qed.

Section LoopFacts.
Context (env : Env) (fc : FallbackConfig) (config : Configuration).

Lemma appends_external P s utts lng msg :
  appends P (external env s utts lng msg).
Proof.
  unfold external.
  apply appends_bind; [apply appends_history|]. intros h.
  apply appends_bind; [apply appends_lift|]. intros m. apply appends_ret.
Qed.

Lemma match_funcs_quiet :
  Forall (λ sf, ∀ utts lng msg, appends quiet_event (sf.2 utts lng msg))
         (match_funcs env fc).
Proof.
  repeat constructor; simpl; intros utts lng msg;
    try apply appends_external;
    (eapply appends_impl; [apply band_event_quiet|]);
    apply appends_fallback_range.
Qed.

Lemma match_funcs_stages : (match_funcs env fc).*1 = nine_stages.
Proof. reflexivity. Qed.

(** The stage events of the loop have the shape [loop_shape], and the loop
    emits no failure signal. *)
Lemma match_loop_run funcs utts lng msg w r w' :
  Forall (λ sf, ∀ utts lng msg, appends quiet_event (sf.2 utts lng msg))
         funcs →
  match_loop funcs utts lng msg w = (r, w') →
  ∃ evs, trace w' = trace w ++ evs
         ∧ loop_shape funcs.*1 (stage_events evs) (match_of r)
         ∧ failure_signals evs = 0%nat.
Proof.
  intros Hq. revert msg w.
  induction Hq as [|[s f] funcs Hf Hq IH]; intros msg w; simpl.
  { intros [= <- <-]. exists []. by rewrite app_nil_r. }
  unfold bind at 1, log at 1. unfold bind at 1.
  destruct (Hf utts lng msg (add_event (EvCall s) w))
    as (evf & Htf & Hqf). simpl in Htf, Hf.
  pose proof (stage_events_quiet _ Hqf) as Hsf.
  pose proof (failure_signals_quiet _ Hqf) as Hff.
  destruct (f utts lng msg (add_event (EvCall s) w))
    as [[[m msg1]|e] w1]; simpl in Htf.
  - unfold bind at 1, log at 1. simpl.
    destruct m as [x|].
    + intros [= <- <-]. exists (EvCall s :: evf ++ [EvRet s (Some x)]).
      split_and!.
      * simpl. rewrite Htf, <-!app_assoc. done.
      * right. left. exists x. split; [|done].
        change (EvCall s :: evf ++ [EvRet s (Some x)])
          with ([EvCall s] ++ evf ++ [EvRet s (Some x)]).
        by rewrite !stage_events_app, Hsf.
      * change (EvCall s :: evf ++ [EvRet s (Some x)])
          with ([EvCall s] ++ evf ++ [EvRet s (Some x)]).
        by rewrite !failure_signals_app, Hff.
    + intros (evs & Ht & Hshape & Hfail)%IH.
      exists (EvCall s :: evf ++ [EvRet s None] ++ evs). split_and!.
      * rewrite Ht. simpl. rewrite Htf, <-!app_assoc. done.
      * right. right. exists (stage_events evs). split; [|done].
        change (EvCall s :: evf ++ [EvRet s None] ++ evs)
          with ([EvCall s] ++ evf ++ [EvRet s None] ++ evs).
        by rewrite !stage_events_app, Hsf.
      * change (EvCall s :: evf ++ [EvRet s None] ++ evs)
          with ([EvCall s] ++ evf ++ [EvRet s None] ++ evs).
        by rewrite !failure_signals_app, Hff, Hfail.
  - intros [= <- <-]. exists (EvCall s :: evf). split_and!.
    + rewrite Htf. simpl. by rewrite <-app_assoc.
    + left. split; [|by eexists].
      change (EvCall s :: evf) with ([EvCall s] ++ evf).
      by rewrite stage_events_app, Hsf.
    + change (EvCall s :: evf) with ([EvCall s] ++ evf).
      by rewrite failure_signals_app, Hff.
Qed.
End LoopFacts.

(** *** Consequences of the shape *)

Lemma loop_shape_calls ss evs v :
  loop_shape ss evs v → ∃ n, stage_calls evs = take n ss.
Proof.
  revert evs. induction ss as [|s ss IH]; intros evs; simpl.
  - intros [-> _]. by exists 0%nat.
  - intros [[-> _]|[(m & -> & _)|(evs' & -> & Hs)]].
    + by exists 1%nat.
    + by exists 1%nat.
    + destruct (IH _ Hs) as [n Hn]. exists (S n). simpl. by rewrite Hn.
Qed.

Lemma loop_shape_match_last ss evs v pre s m post :
  loop_shape ss evs v → evs = pre ++ EvRet s (Some m) :: post →
  post = [] ∧ v = Ok (Some m).
Proof.
  revert evs pre. induction ss as [|s0 ss IH]; intros evs pre; simpl.
  - intros [-> _] Heq. by destruct pre.
  - intros [[-> _]|[(m0 & -> & ->)|(evs' & -> & Hs)]] Heq.
    + by destruct pre as [|? [|? ?]].
    + destruct pre as [|? [|? [|? ?]]]; simplify_eq/=; done.
    + destruct pre as [|? [|? pre]]; simplify_eq/=; by eapply IH.
Qed.

Lemma loop_shape_match_calls ss evs v s m :
  loop_shape ss evs v → EvRet s (Some m) ∈ evs →
  ∃ i, ss !! i = Some s ∧ stage_calls evs = take (S i) ss.
Proof.
  revert evs. induction ss as [|s0 ss IH]; intros evs; simpl.
  - intros [-> _] Hin. by apply elem_of_nil in Hin.
  - intros [[-> _]|[(m0 & -> & ->)|(evs' & -> & Hs)]] Hin.
    + set_solver.
    + exists 0%nat. assert (s = s0) as -> by set_solver. by rewrite take_0.
    + assert (Hin' : EvRet s (Some m) ∈ evs') by set_solver.
      destruct (IH _ Hs Hin') as (i & Hi & Hc). exists (S i).
      split; [done|]. simpl. by rewrite Hc.
Qed.

Lemma loop_shape_all_declined ss evs v :
  NoDup ss → loop_shape ss evs v →
  (∀ s, s ∈ ss → EvRet s None ∈ evs) → v = Ok None.
Proof.
  intros Hnd. revert evs. induction Hnd as [|s ss Hs Hnd IH]; intros evs; simpl.
  - by intros [_ ->].
  - intros [[-> _]|[(m0 & -> & ->)|(evs' & -> & Hshape)]] Hall.
    + specialize (Hall s (list_elem_of_here _ _)). set_solver.
    + specialize (Hall s (list_elem_of_here _ _)). set_solver.
    + apply (IH _ Hshape). intros s' Hs'.
      specialize (Hall s' (list_elem_of_further _ _ _ Hs')).
      apply elem_of_cons in Hall as [?|Hall]; [done|].
      apply elem_of_cons in Hall as [Heq|Hall]; [|done].
      injection Heq as ->. done.
Qed.

(** A stage is called only after every stage listed before it returned no
    match. *)
Lemma loop_shape_called_after_declines ss evs v pre s post :
  loop_shape ss evs v → evs = pre ++ EvCall s :: post →
  ∃ i, ss !! i = Some s ∧ ∀ s', s' ∈ take i ss → EvRet s' None ∈ pre.
Proof.
  revert evs pre. induction ss as [|s0 ss IH]; intros evs pre; simpl.
  - intros [-> _] Heq. by destruct pre.
  - intros [[-> _]|[(m0 & -> & ->)|(evs' & -> & Hs)]] Heq.
    + destruct pre as [|? [|? ?]]; simplify_eq/=.
      exists 0%nat. split; [done|]. intros s' Hs'. by apply elem_of_nil in Hs'.
    + destruct pre as [|? [|? [|? ?]]]; simplify_eq/=.
      exists 0%nat. split; [done|]. intros s' Hs'. by apply elem_of_nil in Hs'.
    + destruct pre as [|? [|? pre]]; simplify_eq/=.
      * exists 0%nat. split; [done|]. intros s' Hs'.
        by apply elem_of_nil in Hs'.
      * destruct (IH _ _ Hs eq_refl) as (i & Hi & Hpre).
        exists (S i). split; [done|]. simpl. intros s' Hs'.
        apply elem_of_cons in Hs' as [->|Hs']; set_solver.
Qed.

(** ** The router *)

Section RouterFacts.
Context (env : Env) (fc : FallbackConfig) (config : Configuration).

Lemma handle_transformers_world msg w :
  (_handle_transformers env msg w).2 = w.
Proof.
  unfold _handle_transformers, bind, lift.
  destruct (utterance_transform env _ _) as [[u c]|e]; [|done]. simpl.
  by destruct (metadata_transform env c).
Qed.

Lemma try_setup_locale_run lng w :
  try_ (setup_locale env lng) w = (Ok tt, add_event (EvSetupLocale lng) w).
Proof.
  unfold try_, setup_locale, bind, log.
  by destruct (setup_locale_ok env lng).
Qed.

(** The events of one routing call: those before the loop, those of the
    loop, and those after it. *)
Lemma handle_utterance_run msg w out w' :
  handle_utterance env fc config msg w = (out, w') →
  ∃ pre loop post v,
    trace w' = trace w ++ pre ++ loop ++ post
    ∧ Forall quiet_event pre
    ∧ failure_signals loop = 0%nat
    ∧ stage_events post = []
    ∧ ((loop = [] ∧ ∃ e, v = Raise e)
       ∨ loop_shape nine_stages (stage_events loop) v)
    ∧ match v with
      | Ok (Some m) =>
          failure_signals post = 0%nat
          ∧ (out = Ok None ∨ ∃ ctx, out = Ok (Some (Some m, ctx)))
      | Ok None =>
          (∀ h, emit_ok env h "complete_intent_failure" = true) →
          failure_signals post = 1%nat ∧ ∃ ctx, out = Ok (Some (None, ctx))
      | Raise _ => post = [] ∧ out = Ok None
      end.
Proof.
  unfold handle_utterance, handle_utterance_body.
  unfold bind at 1.
  pose proof (handle_transformers_world msg w) as Hw0.
  destruct (_handle_transformers env msg w) as [[mt|e] w0]; simpl in Hw0;
    subst w0.
  2:{ intros [= <- <-]. exists [], [], [], (Raise e).
      rewrite !app_nil_r. split_and!; try done. left. by eauto. }
  unfold bind at 1. rewrite try_setup_locale_run.
  set (lng := disambiguate_lang env config mt).
  set (w1 := add_event (EvSetupLocale lng) w).
  unfold bind at 1.
  destruct (match_loop (match_funcs env fc) (data_utterances mt) lng mt w1)
    as [r w2] eqn:Eloop.
  destruct (match_loop_run _ _ _ _ _ _ _ (match_funcs_quiet env fc) Eloop)
    as (loop & Ht2 & Hshape & Hfail).
  rewrite match_funcs_stages in Hshape.
  assert (Hpre : Forall quiet_event [EvSetupLocale lng]) by (by repeat constructor).
  destruct r as [[[m|] msg2]|e]; cbn [match_of fst] in Hshape.
  - (* a stage returned a match *)
    cbn [fst snd]. unfold bind at 1. unfold bind at 1.
    set (activate := match skill_id m with
                     | Some sid => if truthy_str (Some sid)
                                   then log (EvActivate sid) else ret tt
                     | None => ret tt
                     end).
    assert (Hact : ∃ evs, activate w2
                          = (Ok tt, mkWorld (registered_fallbacks w2)
                                      (listeners w2) (trace w2 ++ evs))
                          ∧ stage_events evs = []
                          ∧ failure_signals evs = 0%nat).
    { unfold activate. destruct (skill_id m) as [sid|].
      - destruct (truthy_str (Some sid)).
        + by exists [EvActivate sid].
        + exists []. by rewrite world_eta.
      - exists []. by rewrite world_eta. }
    destruct Hact as (eva & -> & Hsa & Hfa).
    set (w3 := mkWorld _ _ _).
    set (launch := match intent_type m with
                   | Some ty => if truthy_str (Some ty)
                                then bus_emit env ty
                                       (PIntent (data_utterances msg2)
                                          (data_lang msg2) (intent_data m))
                                else ret tt
                   | None => ret tt
                   end).
    assert (Hla : ∃ evs o, launch w3
                          = (o, mkWorld (registered_fallbacks w3)
                                  (listeners w3) (trace w3 ++ evs))
                          ∧ stage_events evs = []
                          ∧ failure_signals evs = 0%nat).
    { unfold launch. destruct (intent_type m) as [ty|].
      - destruct (truthy_str (Some ty)).
        + unfold bus_emit. destruct (emit_ok env _ _).
          * by eexists [EvEmit ty _], _.
          * eexists [], _. by rewrite world_eta.
        + eexists [], _. by rewrite world_eta.
      - eexists [], _. by rewrite world_eta. }
    destruct Hla as (evl & o & -> & Hsl & Hfl).
    intros Hout.
    exists [EvSetupLocale lng], loop, (eva ++ evl), (Ok (Some m)).
    split_and!; try done.
    + destruct o; simpl in Hout; injection Hout as <- <-; simpl;
        rewrite Ht2; simpl; by rewrite <-!app_assoc.
    + by rewrite stage_events_app, Hsa, Hsl.
    + by right.
    + by rewrite failure_signals_app, Hfa, Hfl.
    + destruct o; simpl in Hout; injection Hout as <- <-; eauto.
  - (* every stage declined *)
    cbn [fst snd]. unfold bind at 1. unfold send_complete_intent_failure at 1.
    unfold bind at 1, log at 1. unfold bus_emit.
    destruct (emit_ok env _ _) eqn:Eemit.
    + intros [= <- <-].
      exists [EvSetupLocale lng], loop,
        [EvErrorSound; EvEmit "complete_intent_failure" PEmpty], (Ok None).
      split_and!; try done.
      * simpl. rewrite Ht2. simpl. by rewrite <-!app_assoc.
      * by right.
      * intros _. eauto.
    + intros [= <- <-].
      exists [EvSetupLocale lng], loop, [EvErrorSound], (Ok None).
      split_and!; try done.
      * simpl. rewrite Ht2. simpl. by rewrite <-!app_assoc.
      * by right.
      * intros Hok. by rewrite Hok in Eemit.
  - (* a stage raised *)
    intros [= <- <-]. exists [EvSetupLocale lng], loop, [], (Raise e).
    rewrite app_nil_r. split_and!; try done.
    + rewrite Ht2. simpl. by rewrite <-app_assoc.
    + by right.
Qed.
End RouterFacts.

Lemma nine_stages_NoDup : NoDup nine_stages.
Proof. compute_done. Qed.

Lemma stage_events_of_run pre loop post :
  Forall quiet_event pre → stage_events post = [] →
  stage_events (pre ++ loop ++ post) = stage_events loop.
Proof.
  intros Hpre Hpost.
  by rewrite !stage_events_app, (stage_events_quiet pre), Hpost, app_nil_r.
Qed.

(** C1. In every routing call the matching functions are called in the order
    converse, statistical high, keyword, question answering, fallback high,
    statistical medium, fallback medium, statistical low, fallback low: the
    calls made are a prefix of that list, so none is called twice; a stage is
    called only after every stage before it returned no match; after a stage
    returned a match no stage is called; and when the keyword stage returns
    a match the stages called are converse, statistical high and keyword, so
    no fallback band and no later statistical stage is called. *)
Theorem stages_in_fixed_order_first_match_wins (env : Env)
    (fc : FallbackConfig) (config : Configuration) (msg : Message)
    (w : World) :
  let out := handle_utterance env fc config msg w in
  let evs := events_since w out.2 in
  (∃ n, stage_calls evs = take n nine_stages)
  ∧ NoDup (stage_calls evs)
  ∧ (∀ pre s post, evs = pre ++ EvCall s :: post →
       ∃ i, nine_stages !! i = Some s
            ∧ ∀ s', s' ∈ take i nine_stages → EvRet s' None ∈ pre)
  ∧ (∀ pre s m post, evs = pre ++ EvRet s (Some m) :: post →
       stage_calls post = [])
  ∧ (∀ m, EvRet Adapt (Some m) ∈ evs →
       stage_calls evs = [Converse; PadatiousHigh; Adapt]).
Proof.
  intros out evs.
  destruct out as [o w'] eqn:Eout. unfold out in Eout.
  destruct (handle_utterance_run _ _ _ _ _ _ _ Eout)
    as (pre0 & loop & post0 & v & Ht & Hpre & _ & Hpost & Hshape & Hv).
  assert (Hevs : evs = pre0 ++ loop ++ post0).
  { unfold evs. simpl. by apply events_since_app. }
  pose proof (stage_events_of_run _ loop _ Hpre Hpost) as Hsev.
  rewrite <-Hevs in Hsev.
  assert (Hcases : stage_events evs = []
                   ∨ loop_shape nine_stages (stage_events evs) v).
  { destruct Hshape as [[-> _]|Hshape]; [left|right]; by rewrite Hsev. }
  clear Hshape Hv Hsev Hevs Ht Hpre Hpost.
  assert (Hprefix : ∃ n, stage_calls evs = take n nine_stages).
  { rewrite <-stage_calls_stage_events.
    destruct Hcases as [->|Hshape]; [by exists 0%nat|].
    by eapply loop_shape_calls. }
  split_and!.
  - done.
  - destruct Hprefix as [n ->].
    eapply sublist_NoDup; [apply nine_stages_NoDup|apply sublist_take].
  - intros pre s post Heq.
    assert (Hs : stage_events evs
                 = stage_events pre ++ EvCall s :: stage_events post).
    { by rewrite Heq, stage_events_app. }
    destruct Hcases as [Hnil|Hshape].
    { rewrite Hnil in Hs. by destruct (stage_events pre). }
    destruct (loop_shape_called_after_declines _ _ _ _ _ _ Hshape Hs)
      as (i & Hi & Hdecl).
    exists i. split; [done|]. intros s' Hs'.
    by apply Hdecl, elem_of_stage_events in Hs' as [? _].
  - intros pre s m post Heq.
    assert (Hs : stage_events evs
                 = stage_events pre ++ EvRet s (Some m) :: stage_events post).
    { by rewrite Heq, stage_events_app. }
    destruct Hcases as [Hnil|Hshape].
    { rewrite Hnil in Hs. by destruct (stage_events pre). }
    destruct (loop_shape_match_last _ _ _ _ _ _ _ Hshape Hs) as [Hp _].
    by rewrite <-stage_calls_stage_events, Hp.
  - intros m Hin.
    assert (Hin' : EvRet Adapt (Some m) ∈ stage_events evs)
      by (by apply elem_of_stage_events).
    destruct Hcases as [Hnil|Hshape].
    { rewrite Hnil in Hin'. by apply elem_of_nil in Hin'. }
    destruct (loop_shape_match_calls _ _ _ _ _ Hshape Hin') as (i & Hi & Hc).
    rewrite stage_calls_stage_events in Hc. rewrite Hc.
    do 9 (destruct i as [|i]; [by simplify_eq/=|]). done.
Qed.

(** The events of a routing call with respect to the failure signal. *)
Lemma handle_utterance_failure_signal (env : Env) (fc : FallbackConfig)
    (config : Configuration) (msg : Message) (w : World) :
  let out := handle_utterance env fc config msg w in
  let evs := events_since w out.2 in
  ((∀ s, s ∈ nine_stages → EvRet s None ∈ evs) →
   (∀ h, emit_ok env h "complete_intent_failure" = true) →
   (∃ ctx, out.1 = Ok (Some (None, ctx))) ∧ failure_signals evs = 1%nat)
  ∧ (∀ s m, EvRet s (Some m) ∈ evs → failure_signals evs = 0%nat).
Proof.
  intros out evs.
  destruct out as [o w'] eqn:Eout. unfold out in Eout.
  destruct (handle_utterance_run _ _ _ _ _ _ _ Eout)
    as (pre0 & loop & post0 & v & Ht & Hpre & Hfl & Hpost & Hshape & Hv).
  assert (Hevs : evs = pre0 ++ loop ++ post0).
  { unfold evs. simpl. by apply events_since_app. }
  pose proof (stage_events_of_run _ loop _ Hpre Hpost) as Hsev.
  rewrite <-Hevs in Hsev.
  assert (Hfail : failure_signals evs = failure_signals post0).
  { by rewrite Hevs, !failure_signals_app, (failure_signals_quiet pre0), Hfl. }
  split.
  - intros Hall Hemit.
    assert (Hall' : ∀ s, s ∈ nine_stages → EvRet s None ∈ stage_events loop).
    { intros s Hs. rewrite <-Hsev. apply elem_of_stage_events. auto. }
    destruct Hshape as [[Hnil _]|Hshape].
    { specialize (Hall' Converse). rewrite Hnil in Hall'.
      apply elem_of_nil in Hall'; [done|]. apply list_elem_of_here. }
    rewrite (loop_shape_all_declined _ _ _ nine_stages_NoDup Hshape Hall')
      in Hv.
    destruct (Hv Hemit) as [Hone Hout]. simpl. by rewrite Hfail.
  - intros s m Hin.
    assert (Hin' : EvRet s (Some m) ∈ stage_events loop).
    { rewrite <-Hsev. by apply elem_of_stage_events. }
    destruct Hshape as [[Hnil _]|Hshape].
    { rewrite Hnil in Hin'. by apply elem_of_nil in Hin'. }
    apply list_elem_of_split in Hin' as (l1 & l2 & Hsplit).
    destruct (loop_shape_match_last _ _ _ _ _ _ _ Hshape Hsplit) as [_ ->].
    destruct Hv as [Hzero _]. by rewrite Hfail.
Qed.

Lemma stages_in_fixed_order_first_match_wins_witness :
  stage_calls
    (events_since empty_world
       (handle_utterance keyword_env no_overrides english weather
          empty_world).2)
  = [Converse; PadatiousHigh; Adapt].
Proof.
  destruct (stages_in_fixed_order_first_match_wins keyword_env no_overrides
              english weather empty_world) as (_ & _ & _ & _ & H).
  apply (H keyword_match). apply list_elem_of_In. vm_compute.
  repeat first [left; reflexivity|right].
Defined.

(** ** Exhaustion *)

(** A stage function that, with nothing registered, returns no match. *)
Local Abbreviation declining utts lng f :=
  (∀ msg w, registered_fallbacks w = [] →
     ∃ msg' evs, f utts lng msg w
                 = (Ok (None, msg'),
                    mkWorld [] (listeners w) (trace w ++ evs))).

Lemma match_loop_all_decline funcs utts lng :
  Forall (λ sf, declining utts lng sf.2) funcs →
  ∀ msg w, registered_fallbacks w = [] →
    ∃ msg' evs,
      match_loop funcs utts lng msg w
      = (Ok (None, msg'), mkWorld [] (listeners w) (trace w ++ evs))
      ∧ ∀ s, s ∈ funcs.*1 → EvRet s None ∈ evs.
Proof.
  induction 1 as [|[s f] funcs Hf _ IH]; intros msg w Hreg; simpl.
  { exists msg, []. unfold ret. rewrite <-Hreg, world_eta.
    split; [done|]. intros s Hs. by apply elem_of_nil in Hs. }
  unfold bind at 1, log at 1. unfold bind at 1.
  destruct (Hf msg (add_event (EvCall s) w) Hreg) as (msg1 & evf & Hrun).
  simpl in Hrun. rewrite Hrun. clear Hrun.
  unfold bind at 1, log at 1. simpl.
  match goal with |- context [match_loop funcs utts lng msg1 ?w1] =>
    destruct (IH msg1 w1 eq_refl) as (msg2 & evs & -> & Hall)
  end.
  exists msg2, (EvCall s :: evf ++ [EvRet s None] ++ evs). split.
  - simpl. by rewrite <-!app_assoc.
  - intros s' [->|Hs']%elem_of_cons; [set_solver|].
    specialize (Hall s' Hs'). set_solver.
Qed.
Section ExhaustionFacts.
Context (env : Env) (fc : FallbackConfig).
Context (Hmatcher : ∀ s h u l m, matcher env s h u l m = Ok None).
Context (Hresponse : ∀ h ty, response env h ty = None).
Context (Hemit : ∀ h ty, emit_ok env h ty = true).

Lemma external_declines s utts lng : declining utts lng (external env s).
Proof.
  intros msg w Hreg. exists msg, [].
  unfold external, bind, history, lift. rewrite Hmatcher. simpl.
  by rewrite <-Hreg, world_eta.
Qed.

Lemma fallback_range_declines band u us lng :
  declining (u :: us) lng (λ utts lng msg, _fallback_range env fc utts lng msg band).
Proof.
  intros msg w Hreg. unfold _fallback_range.
  unfold bind at 1, registry at 1. rewrite Hreg. simpl.
  unfold bind at 1, ret at 1. simpl.
  unfold bind at 1, ret at 1. simpl.
  unfold bind at 1. rewrite bus_wait_run, Hemit, Hresponse. simpl.
  eexists _, [_; _]. unfold ret, add_event. simpl.
  by rewrite Hreg, <-app_assoc.
Qed.

Lemma match_funcs_declining u us lng :
  Forall (λ sf, declining (u :: us) lng sf.2) (match_funcs env fc).
Proof.
  repeat constructor; simpl;
    first [apply external_declines | apply fallback_range_declines].
Qed.

End ExhaustionFacts.

(** C8. When every one of the nine stages returned no match and the bus
    takes the failure message, the routing call returns a null match and
    emits exactly one terminal failure signal; when some stage returned a
    match, no terminal failure signal is emitted.  In particular, with no
    fallback handler registered, every matcher declining, nobody answering a
    request and a transformed utterance that has a transcript, the call
    returns a null match and emits exactly one terminal failure signal. *)
Theorem exhaustion_emits_one_failure_signal (env : Env)
    (fc : FallbackConfig) (config : Configuration) (msg : Message)
    (w : World) :
  let out := handle_utterance env fc config msg w in
  let evs := events_since w out.2 in
  ((∀ s, s ∈ nine_stages → EvRet s None ∈ evs) →
   (∀ h, emit_ok env h "complete_intent_failure" = true) →
   (∃ ctx, out.1 = Ok (Some (None, ctx))) ∧ failure_signals evs = 1%nat)
  ∧ (∀ s m, EvRet s (Some m) ∈ evs → failure_signals evs = 0%nat)
  ∧ (∀ u us c1 c2,
       registered_fallbacks w = [] →
       (∀ s h u l m, matcher env s h u l m = Ok None) →
       (∀ h ty, response env h ty = None) →
       (∀ h ty, emit_ok env h ty = true) →
       utterance_transform env (data_utterances msg)
         (<["lang" := get_message_lang env msg]> (context msg))
       = Ok (u :: us, c1) →
       metadata_transform env c1 = Ok c2 →
       (∃ ctx, out.1 = Ok (Some (None, ctx))) ∧ failure_signals evs = 1%nat).
Proof.
  intros out evs.
  destruct (handle_utterance_failure_signal env fc config msg w)
    as [Hnone Hsome].
  split_and!; [exact Hnone|exact Hsome|].
  intros u us c1 c2 Hreg Hmatcher Hresponse Hemit Hut Hmt.
  apply Hnone; [|done].
  intros s Hs. unfold evs, out.
  unfold handle_utterance, handle_utterance_body.
  unfold bind at 1. unfold _handle_transformers at 1.
  unfold bind at 1, lift at 1. rewrite Hut. cbn [fst snd].
  unfold bind at 1, lift at 1. rewrite Hmt. unfold ret at 1.
  unfold bind at 1. rewrite try_setup_locale_run.
  set (mt := mkMessage _ _ _ _).
  set (lng := disambiguate_lang env config mt).
  unfold bind at 1. change (data_utterances mt) with (u :: us).
  destruct (match_loop_all_decline (match_funcs env fc) (u :: us) lng
              (match_funcs_declining env fc Hmatcher Hresponse Hemit u us lng)
              mt (add_event (EvSetupLocale lng) w) Hreg)
    as (msg' & loop & -> & Hall).
  cbn [fst snd]. unfold bind at 1.
  unfold send_complete_intent_failure, bind, log, bus_emit. simpl.
  rewrite Hemit. simpl.
  erewrite events_since_app;
    [|simpl; rewrite <-!app_assoc; reflexivity].
  rewrite match_funcs_stages in Hall. specialize (Hall s Hs). set_solver.
Qed.

Lemma exhaustion_emits_one_failure_signal_witness :
  (∃ ctx, (handle_utterance quiet_env no_overrides english weather
             empty_world).1 = Ok (Some (None, ctx)))
  ∧ failure_signals
      (events_since empty_world
         (handle_utterance quiet_env no_overrides english weather
            empty_world).2) = 1%nat.
Proof.
  destruct (exhaustion_emits_one_failure_signal quiet_env no_overrides
              english weather empty_world) as (H & _ & _).
  apply H.
  - intros s Hs. apply list_elem_of_In.
    repeat (apply elem_of_cons in Hs as [->|Hs];
            [vm_compute; repeat first [left; reflexivity|right]|]).
    by apply elem_of_nil in Hs.
  - reflexivity.
Defined.

(** * Further properties of the code *)

(** ** The access policy and the registry in a band *)

Lemma fallback_allowed_spec fc sid :
  _fallback_allowed fc sid = true ↔
  match default ACCEPT_ALL (fallback_mode fc) with
  | ACCEPT_ALL => True
  | BLACKLIST => sid ∉ fallback_blacklist fc
  | WHITELIST => sid ∈ fallback_whitelist fc
  end.
Proof.
  unfold _fallback_allowed.
  destruct (default ACCEPT_ALL (fallback_mode fc)); [done|..].
  - rewrite negb_true_iff, bool_decide_eq_false. done.
  - by rewrite bool_decide_eq_true.
Qed.

Lemma band_requests env fc utts lng msg band w :
  ∃ fallbacks k,
    fallbacks `sublist_of` registered_fallbacks w
    ∧ requests (events_since w (_fallback_range env fc utts lng msg band w).2)
      = filter (allowed fc) (take k (py_sorted snd fallbacks).*1).
Proof.
  destruct (_fallback_range env fc utts lng msg band w) as [r w'] eqn:Erun.
  destruct (fallback_range_run _ _ _ _ _ _ _ _ _ Erun)
    as (disc & att & leg & v & Ht & Hd & Ha & Hl & _ & _
        & fallbacks & k & Hsub & Hreq & _).
  exists fallbacks, k. split; [done|]. simpl.
  rewrite (events_since_app _ _ _ Ht), !requests_app.
  rewrite (requests_discovery disc), (requests_legacy leg) by done.
  simpl. by rewrite app_nil_r.
Qed.

(** X1. Whatever answers the pings, a band sends a direct request only to
    handlers the access policy lets through: under a blacklist to none of the
    blacklisted ids, under a whitelist only to whitelisted ids. *)
Theorem requests_respect_access_policy (env : Env) (fc : FallbackConfig)
    (utts : list string) (lng : string) (msg : Message)
    (band : FallbackRange) (w : World) (sid : string) :
  sid ∈ requests (events_since w
                    (_fallback_range env fc utts lng msg band w).2) →
  match default ACCEPT_ALL (fallback_mode fc) with
  | ACCEPT_ALL => True
  | BLACKLIST => sid ∉ fallback_blacklist fc
  | WHITELIST => sid ∈ fallback_whitelist fc
  end.
Proof.
  destruct (band_requests env fc utts lng msg band w)
    as (fallbacks & k & _ & ->).
  intros [Hal _]%list_elem_of_filter. by apply fallback_allowed_spec.
Qed.

Lemma requests_respect_access_policy_witness :
  requests (events_since weather_world
              (_fallback_range weather_env blacklist_A
                 ["what is the weather"] "en-us" weather (mkRange 0 5)
                 weather_world).2) = ["B"]
  ∧ "B" ∉ fallback_blacklist blacklist_A.
Proof.
  split; [vm_compute; reflexivity|].
  apply (requests_respect_access_policy weather_env blacklist_A
           ["what is the weather"] "en-us" weather (mkRange 0 5)
           weather_world "B").
  apply list_elem_of_In. vm_compute. by left.
Defined.

(** X2. A band sends direct requests only to ids that are keys of the
    registry, and, the keys being unique, to each at most once: a pong from
    an id that is not registered never leads to a request. *)
Theorem requests_go_to_registered_handlers_once (env : Env)
    (fc : FallbackConfig) (utts : list string) (lng : string)
    (msg : Message) (band : FallbackRange) (w : World) :
  NoDup (registered_fallbacks w).*1 →
  let reqs := requests (events_since w
                          (_fallback_range env fc utts lng msg band w).2) in
  NoDup reqs ∧ ∀ sid, sid ∈ reqs → sid ∈ (registered_fallbacks w).*1.
Proof.
  intros Hnd reqs. unfold reqs.
  destruct (band_requests env fc utts lng msg band w)
    as (fallbacks & k & Hsub & ->).
  split.
  - by eapply reqs_NoDup.
  - intros sid Hin.
    assert (Hs : sid ∈ (py_sorted snd fallbacks).*1).
    { eapply elem_of_sublist; [done|apply reqs_sublist]. }
    rewrite py_sorted_Permutation in Hs.
    eapply elem_of_sublist; [done|]. by apply (fmap_sublist fst).
Qed.

Lemma requests_go_to_registered_handlers_once_witness :
  NoDup (requests (events_since weather_world
                     (_fallback_range weather_env no_overrides
                        ["what is the weather"] "en-us" weather (mkRange 0 5)
                        weather_world).2)).
Proof.
  assert (Hnd : NoDup (registered_fallbacks weather_world).*1)
    by compute_done.
  exact (proj1 (requests_go_to_registered_handlers_once weather_env
                  no_overrides ["what is the weather"] "en-us" weather
                  (mkRange 0 5) weather_world Hnd)).
Defined.

(** ** The registry under sequences of events *)

Lemma dict_set_elem_of {V} (k k' : string) (v v' : V) d :
  (k', v') ∈ dict_set k v d → (k' = k ∧ v' = v) ∨ (k', v') ∈ d.
Proof.
  induction d as [|[k0 v0] d IH]; simpl.
  - intros ?%list_elem_of_singleton. left. by simplify_eq.
  - destruct (decide (k = k0)) as [->|Hne].
    + intros [?|?]%elem_of_cons; [left; by simplify_eq|].
      right. by apply list_elem_of_further.
    + intros [?|Hin]%elem_of_cons.
      * right. simplify_eq. apply list_elem_of_here.
      * destruct (IH Hin) as [?|?]; [by left|].
        right. by apply list_elem_of_further.
Qed.

Lemma filter_all {A} (P : A → Prop) `{!∀ x, Decision (P x)} (l : list A) :
  Forall P l → filter P l = l.
Proof.
  induction 1 as [|x l Hx _ IH]; [done|].
  by rewrite filter_cons_True, IH.
Qed.

Lemma dict_pop_filter {V} (k : string) (d : list (string * V)) :
  NoDup d.*1 → dict_pop k d = filter (λ kv, kv.1 ≠ k) d.
Proof.
  induction d as [|[k0 v0] d IH]; simpl; intros Hd; [done|].
  apply NoDup_cons in Hd as [Hk Hd].
  destruct (decide (k = k0)) as [->|Hne].
  - rewrite filter_cons_False by (simpl; auto).
    symmetry. apply filter_all. apply Forall_forall.
    intros [k1 v1] Hin Heq. simpl in *. subst k1. apply Hk.
    apply list_elem_of_fmap. by exists (k0, v1).
  - rewrite filter_cons_True by (simpl; auto). by rewrite IH.
Qed.

Lemma register_world fc data w :
  handle_register_fallback fc data w
  = (Ok tt,
     mkWorld (dict_set (reg_skill_id data)
                (default (py_or (reg_priority data) 101)
                   (fallback_priorities fc !! reg_skill_id data))
                (registered_fallbacks w))
       (listeners w) (trace w)).
Proof.
  unfold handle_register_fallback.
  by destruct (fallback_priorities fc !! reg_skill_id data).
Qed.

Lemma py_or_nonzero q : py_or q 101 ≠ 0%Z.
Proof.
  destruct q as [z|]; simpl; [|done].
  destruct (Z.eqb_spec z 0); [done|done].
Qed.

Lemma dispatch_keeps_invariant fc e w :
  NoDup (registered_fallbacks w).*1 →
  (∀ sid p, (sid, p) ∈ registered_fallbacks w → storable fc sid p) →
  NoDup (registered_fallbacks (dispatch fc e w).2).*1
  ∧ (∀ sid p, (sid, p) ∈ registered_fallbacks (dispatch fc e w).2 →
       storable fc sid p)
  ∧ listeners (dispatch fc e w).2 = listeners w
  ∧ trace (dispatch fc e w).2 = trace w.
Proof.
  intros Hnd Hst. destruct e as [data|data]; simpl.
  - split_and!; [by apply register_keeps_keys_unique| |..];
      rewrite register_world; [|done..]. simpl.
    intros sid p [[-> ->]|Hin]%dict_set_elem_of; [|by apply Hst].
    unfold storable.
    destruct (fallback_priorities fc !! reg_skill_id data); [done|].
    apply py_or_nonzero.
  - split_and!; [by apply deregister_keeps_keys_unique|..];
      unfold handle_deregister_fallback;
      destruct (dict_contains _ _); simpl; try done.
    intros sid p Hin. apply Hst.
    eapply elem_of_sublist; [done|apply dict_pop_sublist].
Qed.

(** X3. Starting from an empty registry, after any sequence of register and
    deregister events the registry holds each id at most once, every stored
    priority is the configured override of its id or, without an override, a
    reported priority other than 0 (an absent, null or 0 priority is stored
    as 101), and the events touched neither the listener table nor the
    trace. *)
Theorem registry_stays_well_formed (fc : FallbackConfig)
    (es : list registry_event) (l : list (string * string))
    (t : list event) :
  let w' := dispatch_all fc es (mkWorld [] l t) in
  NoDup (registered_fallbacks w').*1
  ∧ (∀ sid p, (sid, p) ∈ registered_fallbacks w' → storable fc sid p)
  ∧ listeners w' = l ∧ trace w' = t.
Proof.
  simpl.
  assert (Hgen : ∀ w,
    NoDup (registered_fallbacks w).*1 →
    (∀ sid p, (sid, p) ∈ registered_fallbacks w → storable fc sid p) →
    NoDup (registered_fallbacks (dispatch_all fc es w)).*1
    ∧ (∀ sid p, (sid, p) ∈ registered_fallbacks (dispatch_all fc es w) →
         storable fc sid p)
    ∧ listeners (dispatch_all fc es w) = listeners w
    ∧ trace (dispatch_all fc es w) = trace w).
  { induction es as [|e es IH]; intros w Hnd Hst; simpl; [done|].
    destruct (dispatch_keeps_invariant fc e w Hnd Hst)
      as (Hnd' & Hst' & Hl & Ht).
    destruct (IH _ Hnd' Hst') as (? & ? & -> & ->). done. }
  apply Hgen; simpl.
  - constructor.
  - intros sid p Hin. by apply elem_of_nil in Hin.
Qed.

(** X4. The registry is ordered like a Python dict, which decides ties
    between equal priorities: registering an id that is already registered
    keeps its position, registering a new id puts it last, and deregistering
    removes that id only, the others keeping their order and priority. *)
Theorem registry_keeps_insertion_order (fc : FallbackConfig) (w : World)
    (sid : string) (q : option Z) :
  NoDup (registered_fallbacks w).*1 →
  let registered := handle_register_fallback fc (mkRegister sid q) w in
  let deregistered := handle_deregister_fallback (mkRegister sid q) w in
  (registered_fallbacks registered.2).*1
  = (if bool_decide (sid ∈ (registered_fallbacks w).*1)
     then (registered_fallbacks w).*1
     else (registered_fallbacks w).*1 ++ [sid])
  ∧ (∀ sid', sid' ≠ sid →
       dict_get sid' (registered_fallbacks registered.2)
       = dict_get sid' (registered_fallbacks w))
  ∧ registered_fallbacks deregistered.2
    = filter (λ kv, kv.1 ≠ sid) (registered_fallbacks w).
Proof.
  intros Hnd registered deregistered. unfold registered, deregistered.
  rewrite register_world. simpl. split_and!.
  - apply dict_set_keys.
  - intros sid' Hne. by apply dict_get_set_ne.
  - unfold handle_deregister_fallback, dict_contains. simpl.
    case_bool_decide as Hin; simpl; [by apply dict_pop_filter|].
    symmetry. apply filter_all. apply Forall_forall.
    intros [k v] Hkv Heq. simpl in *. subst k. apply Hin.
    apply list_elem_of_fmap. by exists (sid, v).
Qed.

Lemma registry_keeps_insertion_order_witness :
  (registered_fallbacks
     (handle_register_fallback no_overrides (mkRegister "B" (Some 1%Z))
        weather_world).2) = [("B", 1%Z); ("A", 2%Z)]
  ∧ registered_fallbacks
      (handle_deregister_fallback (mkRegister "B" None) weather_world).2
    = [("A", 2%Z)].
Proof.
  assert (Hnd : NoDup (registered_fallbacks weather_world).*1)
    by compute_done.
  destruct (registry_keeps_insertion_order no_overrides weather_world "B"
              (Some 1%Z) Hnd) as (_ & _ & H).
  split; [reflexivity|].
  etrans; [|etrans; [exact H|reflexivity]]. reflexivity.
Defined.

(** ** Discovery rounds *)

Lemma willing_app reg l1 l2 :
  willing reg (l1 ++ l2) = willing reg l1 ++ willing reg l2.
Proof. apply omap_app. Qed.

Lemma sleeps_app l1 l2 : sleeps (l1 ++ l2) = (sleeps l1 + sleeps l2)%nat.
Proof. unfold sleeps. by rewrite List.filter_app, length_app. Qed.

Lemma pings_app l1 l2 : pings (l1 ++ l2) = (pings l1 + pings l2)%nat.
Proof. unfold pings. by rewrite List.filter_app, length_app. Qed.

Lemma sleeps_pongs ps : sleeps (EvPong <$> ps) = 0%nat.
Proof. by induction ps. Qed.

Lemma pings_pongs ps : pings (EvPong <$> ps) = 0%nat.
Proof. by induction ps. Qed.

Lemma willing_elem_of reg evs sid :
  sid ∈ willing reg evs →
  ∃ p, EvPong p ∈ evs ∧ pong_skill_id p = sid
       ∧ can_handle p ≠ Some false ∧ sid ∈ reg.*1.
Proof.
  unfold willing. intros ([] & He & Hw)%list_elem_of_omap; try done.
  unfold willing_pong in Hw.
  destruct (default true (can_handle p)) eqn:Hc; [|done]. simpl in Hw.
  unfold dict_contains in Hw. case_bool_decide as Hin; [|done].
  injection Hw as <-. exists p. split_and!; try done.
  intros Hf. by rewrite Hf in Hc.
Qed.

Section RoundFacts.
Context (env : Env).

Lemma deliver_result ps acc w :
  deliver ps acc w
  = (Ok (acc.1 ++ (pong_skill_id <$> ps),
         acc.2 ++ willing (registered_fallbacks w) (EvPong <$> ps)),
     mkWorld (registered_fallbacks w) (listeners w)
       (trace w ++ (EvPong <$> ps))).
Proof.
  revert acc w. induction ps as [|p ps IH]; intros [ids skills] w; simpl.
  { unfold ret. by rewrite world_eta, !app_nil_r. }
  unfold bind at 1, handle_ack, bind, log, registry, ret. simpl.
  rewrite IH. simpl. unfold willing_pong.
  destruct (default true (can_handle p)); simpl;
    [destruct (dict_contains _ _); simpl|]; by rewrite <-!app_assoc.
Qed.

(** The waiting loop: it sleeps at most [n] times, and not at all when
    every registered id has answered already. *)
Lemma wait_for_acks_result n acc w :
  ∃ ids evs,
    wait_for_acks env n acc w
    = (Ok (acc.1 ++ ids, acc.2 ++ willing (registered_fallbacks w) evs),
       mkWorld (registered_fallbacks w) (listeners w) (trace w ++ evs))
    ∧ (sleeps evs ≤ n)%nat
    ∧ pings evs = 0%nat
    ∧ (all_answered acc.1 (registered_fallbacks w) = true → evs = []).
Proof.
  revert acc w. induction n as [|n IH]; intros [ids0 skills0] w;
    cbn [wait_for_acks]; unfold bind at 1, registry at 1; cbn [fst snd].
  - exists [], []. unfold ret. rewrite world_eta, !app_nil_r.
    split_and!; [by destruct (all_answered _ _)|done|done|done].
  - destruct (all_answered ids0 (registered_fallbacks w)) eqn:Hall.
    { exists [], []. unfold ret. rewrite world_eta, !app_nil_r.
      split_and!; [done|apply Nat.le_0_l|done|done]. }
    unfold bind, log, history. rewrite deliver_result. cbn [fst snd registered_fallbacks listeners trace].
    match goal with |- context [wait_for_acks env n ?acc1 ?w1] =>
      destruct (IH acc1 w1) as (ids & evs & -> & Hs & Hp & _)
    end.
    unfold add_event. cbn [fst snd registered_fallbacks listeners trace].
    exists ((pong_skill_id <$> pongs env (trace w ++ [EvSleep])) ++ ids),
      ([EvSleep] ++ (EvPong <$> pongs env (trace w ++ [EvSleep])) ++ evs).
    split_and!.
    + by rewrite !willing_app, <-!app_assoc.
    + rewrite !sleeps_app, sleeps_pongs.
      change (sleeps [EvSleep]) with 1%nat. lia.
    + by rewrite !pings_app, pings_pongs, Hp.
    + done.
Qed.

(** One discovery round whose ping the bus accepts. *)
Lemma collect_round msg band w :
  let pong := ("ovos.skills.fallback.pong", "handle_ack") in
  let h := trace w ++ [EvOn pong.1 pong.2] in
  let h' := h ++ [EvEmit "ovos.skills.fallback.ping"
                    (PData (data_utterances msg) (data_lang msg))] in
  emit_ok env h "ovos.skills.fallback.ping" = true →
  ∃ evs,
    _collect_fallback_skills env msg band w
    = (Ok (willing (registered_fallbacks w) evs),
       mkWorld (registered_fallbacks w)
         (remove_first pong (listeners w ++ [pong])) (trace w ++ evs))
    ∧ (sleeps evs ≤ polls env h')%nat
    ∧ pings evs = 1%nat
    ∧ (all_answered
         (List.filter
            (λ s, negb (bool_decide
               (s ∈ (List.filter (λ sp, in_band band sp.2)
                       (registered_fallbacks w)).*1)))
            (registered_fallbacks w).*1
          ++ (pong_skill_id <$> pongs env h'))
         (registered_fallbacks w) = true →
       sleeps evs = 0%nat).
Proof.
  intros pong h h'. subst pong h h'. cbn [fst snd]. intros Hemit.
  unfold _collect_fallback_skills, bind, registry, bus_on, bus_emit, history,
    add_event, set_listeners.
  cbn [fst snd registered_fallbacks listeners trace].
  rewrite Hemit. rewrite deliver_result.
  cbn [fst snd registered_fallbacks listeners trace].
  match goal with |- context [wait_for_acks env ?n ?acc1 ?w1] =>
    destruct (wait_for_acks_result n acc1 w1)
      as (ids & evs & -> & Hs & Hp & Hnone)
  end.
  unfold bus_remove, ret, add_event, set_listeners.
  cbn [fst snd registered_fallbacks listeners trace] in *.
  exists ([EvOn "ovos.skills.fallback.pong" "handle_ack";
           EvEmit "ovos.skills.fallback.ping"
             (PData (data_utterances msg) (data_lang msg))]
          ++ (EvPong <$> pongs env
                ((trace w ++ [EvOn "ovos.skills.fallback.pong" "handle_ack"])
                 ++ [EvEmit "ovos.skills.fallback.ping"
                       (PData (data_utterances msg) (data_lang msg))]))
          ++ evs
          ++ [EvRemove "ovos.skills.fallback.pong" "handle_ack"]).
  split_and!.
  - rewrite !willing_app. cbn [willing omap]. rewrite app_nil_r.
    by rewrite <-!app_assoc.
  - rewrite !sleeps_app, sleeps_pongs. unfold sleeps at 1 3.
    cbn [List.filter is_sleep length]. lia.
  - rewrite !pings_app, pings_pongs, Hp. reflexivity.
  - intros Hall. rewrite (Hnone Hall).
    rewrite !sleeps_app, sleeps_pongs. reflexivity.
Qed.
End RoundFacts.

Lemma all_answered_out_of_band band reg extra :
  (∀ sp, sp ∈ reg → in_band band sp.2 = false) →
  all_answered
    (List.filter
       (λ s, negb (bool_decide
          (s ∈ (List.filter (λ sp, in_band band sp.2) reg).*1)))
       reg.*1 ++ extra) reg = true.
Proof.
  intros Hout. unfold all_answered.
  assert (Hnone : List.filter (λ sp : string * Z, in_band band sp.2) reg = []).
  { clear extra. induction reg as [|sp reg IH]; [done|]. simpl.
    rewrite (Hout sp) by left. apply IH. intros ? ?. apply Hout. by right. }
  rewrite Hnone. apply forallb_forall. intros s Hs.
  apply bool_decide_eq_true_2, elem_of_app. left.
  apply list_elem_of_In, filter_In. split; [done|].
  apply negb_true_iff, bool_decide_eq_false_2. csimpl. apply not_elem_of_nil.
Qed.

Section Rounds.
Context (env : Env).

(** The rounds of the comprehension over the registry: one per item. *)
Lemma fallbacks_of_rounds msg band hs w r w1 :
  fallbacks_of env msg band hs w = (r, w1) →
  ∃ evs,
    trace w1 = trace w ++ evs
    ∧ registered_fallbacks w1 = registered_fallbacks w
    ∧ (pings evs ≤ length hs)%nat
    ∧ (∀ fb, r = Ok fb →
         pings evs = length hs
         ∧ Forall (λ kv, kv.1 ∈ willing (registered_fallbacks w) evs) fb)
    ∧ ((∀ sp, sp ∈ registered_fallbacks w → in_band band sp.2 = false) →
       sleeps evs = 0%nat).
Proof.
  revert w r w1. induction hs as [|[k v] hs IH]; intros w r w1;
    cbn [fallbacks_of].
  { intros [= <- <-]. exists []. rewrite app_nil_r.
    split_and!; try done. intros fb [= <-]. by split. }
  unfold bind at 1.
  pose proof (collect_run env msg band w) as Hfail.
  pose proof (collect_round env msg band w) as Hround.
  cbn [fst snd] in Hfail, Hround.
  destruct (emit_ok env _ _).
  2:{ rewrite Hfail. intros [= <- <-]. eexists. split; [done|].
      split_and!; try done. unfold pings. simpl. lia. }
  destruct (Hround eq_refl) as (evs & -> & Hs & Hp & Hnone). clear Hfail Hround.
  unfold bind at 1.
  match goal with |- context [fallbacks_of env msg band hs ?w2] =>
    destruct (fallbacks_of env msg band hs w2) as [r2 w3] eqn:E
  end.
  destruct (IH _ _ _ E) as (evs2 & Ht & Hreg & Hp2 & Hok & Hsl).
  cbn [registered_fallbacks trace] in Ht, Hreg, Hok, Hsl.
  assert (Hw : ∀ x, (match r2 with
                     | Ok a => ret (if bool_decide (k ∈ willing
                                 (registered_fallbacks w) evs)
                               then (k, v) :: a else a) w3
                     | Raise e => (Raise e, w3)
                     end) = (x, w1) → w1 = w3).
  { intros x. destruct r2; unfold ret; by intros [= _ <-]. }
  intros Hrun. pose proof (Hw _ Hrun) as ->.
  exists (evs ++ evs2). rewrite Ht, Hreg, <-app_assoc.
  split_and!; try done.
  - rewrite pings_app, Hp. simpl. lia.
  - intros fb ->. destruct r2 as [rest|]; [|done].
    destruct (Hok rest eq_refl) as [Hn Hall].
    split; [rewrite pings_app, Hp, Hn; reflexivity|].
    unfold ret in Hrun. injection Hrun as <-.
    assert (Hrest : Forall (λ kv : string * Z,
              kv.1 ∈ willing (registered_fallbacks w) (evs ++ evs2)) rest).
    { eapply Forall_impl; [done|]. intros kv Hkv. rewrite willing_app.
      apply elem_of_app. by right. }
    case_bool_decide; [|done]. constructor; [|done].
    rewrite willing_app. apply elem_of_app. by left.
  - intros Hout. rewrite sleeps_app, (Hsl Hout).
    rewrite Hnone; [done|]. by apply all_answered_out_of_band.
Qed.
End Rounds.

(** Requests and replies are neither sleeps, pings nor pongs. *)
Lemma after_discovery_quiet reg l :
  Forall (λ e, attempt_event e ∨ legacy_event e) l →
  sleeps l = 0%nat ∧ pings l = 0%nat ∧ willing reg l = [].
Proof.
  unfold sleeps, pings, willing.
  induction 1 as [|e l He _ IH]; [done|].
  destruct e as [| |ty []|[] | | | | | | |]; simpl in *;
    by destruct He.
Qed.

Lemma attempts_attempt_events att v :
  attempts att v → Forall (λ e, attempt_event e ∨ legacy_event e) att.
Proof. induction 1; repeat constructor; try done; by left. Qed.

Section BandPhases.
Context (env : Env) (fc : FallbackConfig).

(** A band is a sequence of discovery rounds followed by requests; only
    candidates the rounds returned are sent one. *)
Lemma band_phases utts lng msg band w r w' :
  let msg' := mkMessage (msg_type msg) utts (Some lng) (context msg) in
  _fallback_range env fc utts lng msg band w = (r, w') →
  ∃ r1 w1 rest,
    fallbacks_of env msg' band (registered_fallbacks w) w = (r1, w1)
    ∧ trace w' = trace w1 ++ rest
    ∧ registered_fallbacks w' = registered_fallbacks w1
    ∧ Forall (λ e, attempt_event e ∨ legacy_event e) rest
    ∧ (∀ sid, sid ∈ requests rest → ∃ fb, r1 = Ok fb ∧ sid ∈ fb.*1)
    ∧ (∀ m, r = Ok m → ∃ fb, r1 = Ok fb).
Proof.
  intros msg'. unfold _fallback_range. fold msg'.
  unfold bind at 1, registry at 1. unfold bind at 1.
  destruct (fallbacks_of env msg' band (registered_fallbacks w) w)
    as [[fallbacks|e] w1] eqn:Efb.
  2:{ intros [= <- <-]. exists (Raise e), w1, []. rewrite app_nil_r.
      split_and!; try done. intros sid Hsid. by apply elem_of_nil in Hsid. }
  unfold bind at 1.
  destruct (attempt_each env fc utts lng msg' (py_sorted snd fallbacks) w1)
    as [v w2] eqn:Eatt.
  destruct (attempt_each_run env fc _ _ _ _ _ _ _ Eatt)
    as (att & k & Hatt & Hshape & Hreq).
  assert (Hregs : registered_fallbacks w2 = registered_fallbacks w1).
  { clear -Eatt. revert w1 v w2 Eatt.
    induction (py_sorted snd fallbacks) as [|[sid p] hs IH];
      intros w1 v w2; simpl.
    { by intros [= _ <-]. }
    unfold bind at 1. rewrite attempt_fallback_run.
    destruct (_fallback_allowed fc sid); [|by apply IH].
    destruct utts as [|u us]; [by intros [= _ <-]|].
    cbn zeta. destruct (emit_ok env _ _); [|by intros [= _ <-]].
    cbn beta iota.
    match goal with |- context [if ?b then _ else _] => destruct b end.
    - by intros [= _ <-].
    - intros E. by apply IH in E. }
  assert (Hask : ∀ sid, sid ∈ requests att → sid ∈ fallbacks.*1).
  { intros sid. rewrite Hreq. intros [_ Hin]%list_elem_of_filter.
    pose proof (elem_of_sublist _ _ _ Hin (sublist_take _ _)) as Hs.
    by rewrite py_sorted_Permutation in Hs. }
  assert (Hatts := attempts_attempt_events _ _ Hshape).
  assert (Hend : ∀ leg, Forall legacy_event leg →
            trace w' = trace w2 ++ leg →
            registered_fallbacks w' = registered_fallbacks w2 →
            ∃ r1 w0 rest,
              (Ok fallbacks, w1) = (r1, w0)
              ∧ trace w' = trace w0 ++ rest
              ∧ registered_fallbacks w' = registered_fallbacks w0
              ∧ Forall (λ e, attempt_event e ∨ legacy_event e) rest
              ∧ (∀ sid, sid ∈ requests rest → ∃ fb, r1 = Ok fb ∧ sid ∈ fb.*1)
              ∧ (∀ m, r = Ok m → ∃ fb, r1 = Ok fb)).
  { intros leg Hleg Ht Hr. exists (Ok fallbacks), w1, (att ++ leg).
    rewrite Ht, Hatt, Hr, Hregs, <-app_assoc. split_and!; try done.
    - apply Forall_app. split; [done|].
      eapply Forall_impl; [done|]. by right.
    - intros sid. rewrite requests_app, (requests_legacy leg), app_nil_r
        by done. intros Hsid. exists fallbacks. auto.
    - intros m _. by exists fallbacks. }
  destruct v as [[|]|e].
  - intros [= <- <-]. apply (Hend []); [done|by rewrite app_nil_r|done].
  - destruct utts as [|u utts'].
    { intros [= <- <-]. apply (Hend []); [done|by rewrite app_nil_r|done]. }
    unfold bind at 1. rewrite bus_wait_run.
    destruct (emit_ok env _ _).
    2:{ intros [= <- <-].
        apply (Hend []); [done|by rewrite app_nil_r|done]. }
    cbn zeta.
    set (d := PLegacy u lng (start band, stop band)).
    set (rty := "mycroft.skills.fallback.response").
    set (rep := response env _ rty).
    intros Hrun.
    apply (Hend [EvEmit "mycroft.skills.fallback" d; EvResponse d rty rep]).
    + by repeat constructor.
    + destruct rep as [x|]; [destruct (data_handled x) as [[]|]|];
        injection Hrun as <- <-; simpl; by rewrite <-!app_assoc.
    + destruct rep as [x|]; [destruct (data_handled x) as [[]|]|];
        by injection Hrun as <- <-.
  - intros [= <- <-]. apply (Hend []); [done|by rewrite app_nil_r|done].
Qed.
End BandPhases.

Section BandDiscovery.
Context (env : Env) (fc : FallbackConfig).

Lemma band_discovery utts lng msg band w :
  let w' := (_fallback_range env fc utts lng msg band w).2 in
  let evs := events_since w w' in
  (pings evs ≤ length (registered_fallbacks w))%nat
  ∧ (∀ m, (_fallback_range env fc utts lng msg band w).1 = Ok m →
       pings evs = length (registered_fallbacks w))
  ∧ (∀ sid, sid ∈ requests evs → sid ∈ willing (registered_fallbacks w) evs)
  ∧ ((∀ sp, sp ∈ registered_fallbacks w → in_band band sp.2 = false) →
     sleeps evs = 0%nat)
  ∧ registered_fallbacks w' = registered_fallbacks w.
Proof.
  destruct (_fallback_range env fc utts lng msg band w) as [r w'] eqn:Erun.
  cbn [fst snd].
  destruct (band_phases _ _ _ _ _ _ _ _ _ Erun)
    as (r1 & w1 & rest & Efb & Ht & Hreg & Hrest & Hask & Hok).
  destruct (fallbacks_of_rounds _ _ _ _ _ _ _ Efb)
    as (disc & Ht1 & Hreg1 & Hp & Hfb & Hsl).
  destruct (after_discovery_quiet (registered_fallbacks w) _ Hrest)
    as (Hs0 & Hp0 & Hw0).
  assert (Hdisc : Forall discovery_event disc).
  { destruct (appends_fallbacks_of env
                (mkMessage (msg_type msg) utts (Some lng) (context msg))
                band (registered_fallbacks w) w) as (d & Hd & HP).
    rewrite Efb in Hd. cbn [snd] in Hd. rewrite Ht1 in Hd.
    by apply app_inv_head in Hd as ->. }
  rewrite (events_since_app w w' (disc ++ rest))
    by (by rewrite Ht, Ht1, <-app_assoc).
  rewrite pings_app, sleeps_app, willing_app, requests_app, Hs0, Hp0, Hw0,
    (requests_discovery disc), !app_nil_r, !Nat.add_0_r by done.
  cbn [app]. split_and!.
  - done.
  - intros m ->. destruct (Hok m eq_refl) as [fb ->].
    by destruct (Hfb fb eq_refl).
  - intros sid Hsid. destruct (Hask sid Hsid) as (fb & -> & Hin).
    destruct (Hfb fb eq_refl) as [_ Hall].
    apply list_elem_of_fmap in Hin as (kv & -> & Hkv).
    by apply (proj1 (Forall_forall _ _) Hall).
  - done.
  - by rewrite Hreg, Hreg1.
Qed.
End BandDiscovery.

(** X6. A band sends a direct request only to a handler that answered one of
    the band's pings, and whose answer did not carry [can_handle = False]: a
    handler that stays silent, or that declines at discovery, is never asked
    in that band. *)
Theorem request_needs_willing_pong env fc utts lng msg band w sid :
  let evs := events_since w (_fallback_range env fc utts lng msg band w).2 in
  sid ∈ requests evs →
  ∃ p, EvPong p ∈ evs ∧ pong_skill_id p = sid ∧ can_handle p ≠ Some false.
Proof.
  intros evs Hsid.
  destruct (band_discovery env fc utts lng msg band w)
    as (_ & _ & Hwill & _).
  destruct (willing_elem_of _ _ _ (Hwill sid Hsid)) as (p & ? & ? & ? & _).
  by exists p.
Qed.

Lemma request_needs_willing_pong_witness :
  ∃ p, EvPong p ∈ events_since weather_world
                    (_fallback_range weather_env no_overrides
                       ["what is the weather"] "en-us" weather (mkRange 0 5)
                       weather_world).2
       ∧ pong_skill_id p = "B" ∧ can_handle p ≠ Some false.
Proof.
  apply (request_needs_willing_pong weather_env no_overrides
           ["what is the weather"] "en-us" weather (mkRange 0 5)
           weather_world "B").
  vm_compute. apply list_elem_of_In. right. left. reflexivity.
Defined.

(** X7. The discovery call sits in the condition of the comprehension over
    the registry, so a band that returns has run one discovery round, with
    one ping on the bus, for every registered handler, whatever its
    priority; with an empty registry no ping is sent at all.  A band never
    sends more pings than that. *)
Theorem one_ping_per_registered_handler env fc utts lng msg band w :
  let run := _fallback_range env fc utts lng msg band w in
  (pings (events_since w run.2) ≤ length (registered_fallbacks w))%nat
  ∧ ∀ m, run.1 = Ok m →
      pings (events_since w run.2) = length (registered_fallbacks w).
Proof.
  intros run.
  destruct (band_discovery env fc utts lng msg band w) as (? & ? & _).
  by split.
Qed.

(** X8. Handlers whose priority lies outside the band count as having
    answered, so a band in which no registered handler has its priority
    never sleeps while waiting for pongs. *)
Theorem band_without_handlers_in_range_never_waits
    env fc utts lng msg band w :
  (∀ sp, sp ∈ registered_fallbacks w → in_band band sp.2 = false) →
  sleeps (events_since w (_fallback_range env fc utts lng msg band w).2)
  = 0%nat.
Proof.
  intros Hout.
  destruct (band_discovery env fc utts lng msg band w)
    as (_ & _ & _ & Hsl & _).
  by apply Hsl.
Qed.

Lemma band_without_handlers_in_range_never_waits_witness :
  sleeps (events_since medium_world
            (_fallback_range quiet_env no_overrides ["what is the weather"]
               "en-us" weather (mkRange 0 5) medium_world).2)
  = 0%nat.
Proof.
  apply (band_without_handlers_in_range_never_waits quiet_env no_overrides
           ["what is the weather"] "en-us" weather (mkRange 0 5)
           medium_world).
  intros sp Hsp. apply list_elem_of_singleton in Hsp as ->. reflexivity.
Defined.

(** ** The three bands *)

Section SilentHandler.
Context (env : Env).

(** While a registered id has not answered, the waiting loop sleeps. *)
Lemma wait_for_acks_sleeps n acc w :
  all_answered acc.1 (registered_fallbacks w) = false →
  ∃ evs, trace (wait_for_acks env (S n) acc w).2 = trace w ++ EvSleep :: evs.
Proof.
  intros Hall. cbn [wait_for_acks]. unfold bind at 1, registry at 1.
  rewrite Hall. unfold bind, log, history. rewrite deliver_result.
  match goal with |- context [wait_for_acks env n ?acc1 ?w1] =>
    destruct (wait_for_acks_result env n acc1 w1) as (ids & evs & -> & _)
  end.
  unfold add_event. cbn [snd trace].
  exists ((EvPong <$> pongs env (trace w ++ [EvSleep])) ++ evs).
  by rewrite <-!app_assoc.
Qed.

(** A discovery round for a single registered handler that lies in the band
    and does not answer. *)
Lemma collect_waits msg band w sid p :
  registered_fallbacks w = [(sid, p)] →
  in_band band p = true →
  (∀ h, pongs env h = []) →
  (∀ h, emit_ok env h "ovos.skills.fallback.ping" = true) →
  (∀ h, (0 < polls env h)%nat) →
  ∃ evs, trace (_collect_fallback_skills env msg band w).2 = trace w ++ evs
         ∧ (0 < sleeps evs)%nat.
Proof.
  intros Hreg Hband Hpongs Hemit Hpolls.
  unfold _collect_fallback_skills, bind, registry, bus_on, bus_emit, history,
    add_event, set_listeners.
  cbn [fst snd registered_fallbacks listeners trace].
  rewrite Hemit, deliver_result, Hpongs.
  cbn [fst snd registered_fallbacks listeners trace fmap list_fmap].
  match goal with |- context [polls env ?h] =>
    pose proof (Hpolls h) as Hn; destruct (polls env h) as [|n]; [lia|]
  end.
  match goal with |- context [wait_for_acks env (S n) ?acc1 ?w1] =>
    destruct (wait_for_acks_sleeps n acc1 w1) as (evs & Hevs);
      [|destruct (wait_for_acks env (S n) acc1 w1) as [[acc2|e] w2]]
  end.
  - cbn [fst snd registered_fallbacks]. rewrite Hreg. unfold all_answered.
    cbn [List.filter fmap list_fmap snd fst]. rewrite Hband.
    cbn [List.filter fmap list_fmap snd fst].
    rewrite (bool_decide_eq_true_2 (sid ∈ [sid])) by apply list_elem_of_here.
    cbn [negb app forallb].
    by rewrite (bool_decide_eq_false_2 (sid ∈ [])) by apply not_elem_of_nil.
  - cbn [snd trace] in Hevs. unfold bus_remove, ret, add_event, set_listeners.
    cbn [snd trace]. rewrite Hevs, <-!app_assoc.
    eexists. split; [reflexivity|].
    rewrite !sleeps_app. cbn [app].
    change (EvSleep :: ?l) with ([EvSleep] ++ l).
    rewrite !sleeps_app. change (sleeps [EvSleep]) with 1%nat. lia.
  - cbn [snd trace] in Hevs. cbn [snd]. rewrite Hevs, <-!app_assoc.
    eexists. split; [reflexivity|].
    rewrite !sleeps_app. cbn [app].
    change (EvSleep :: ?l) with ([EvSleep] ++ l).
    rewrite !sleeps_app. change (sleeps [EvSleep]) with 1%nat. lia.
Qed.

(** A band waits for a silent handler exactly when the handler's priority
    lies in the band. *)
Lemma band_waits fc utts lng msg band w sid p :
  registered_fallbacks w = [(sid, p)] →
  (∀ h, pongs env h = []) →
  (∀ h, emit_ok env h "ovos.skills.fallback.ping" = true) →
  (∀ h, (0 < polls env h)%nat) →
  bool_decide
    (0 < sleeps (events_since w
                   (_fallback_range env fc utts lng msg band w).2))%nat
  = in_band band p.
Proof.
  intros Hreg Hpongs Hemit Hpolls.
  destruct (in_band band p) eqn:Hband.
  2:{ apply bool_decide_eq_false_2.
      destruct (band_discovery env fc utts lng msg band w)
        as (_ & _ & _ & Hsl & _).
      rewrite Hsl; [lia|]. intros sp. rewrite Hreg.
      by intros ->%list_elem_of_singleton. }
  apply bool_decide_eq_true_2.
  destruct (_fallback_range env fc utts lng msg band w) as [r w'] eqn:Erun.
  destruct (band_phases _ _ _ _ _ _ _ _ _ Erun)
    as (r1 & w1 & rest & Efb & Ht & _).
  rewrite Hreg in Efb. cbn [fallbacks_of] in Efb. unfold bind at 1 in Efb.
  destruct (collect_waits
              (mkMessage (msg_type msg) utts (Some lng) (context msg))
              band w sid p Hreg Hband Hpongs Hemit Hpolls)
    as (evs & Hevs & Hsl).
  destruct (_collect_fallback_skills env _ band w) as [[c|e] wc];
    cbn [snd] in Hevs; unfold bind, ret in Efb; injection Efb as _ <-;
    cbn [snd]; rewrite (events_since_app w w' (evs ++ rest))
      by (by rewrite Ht, Hevs, <-app_assoc);
    rewrite sleeps_app; lia.
Qed.
End SilentHandler.

(** X5. The ranges [high_prio], [medium_prio] and [low_prio] pass on are
    (0, 5], (5, 90] and (90, 101], read off what the three functions do: with
    one handler registered, which never answers a ping, [high_prio] waits
    for it exactly when its priority is in 1..5, [medium_prio] exactly when
    it is in 6..90 and [low_prio] exactly when it is in 91..101.  So a
    priority from 1 to 101 is waited for by exactly one of the three, and a
    priority of 0 or less or above 101 (which only an override can store) by
    none. *)
Theorem silent_handler_waited_for_in_one_band env fc utts lng msg w sid p :
  registered_fallbacks w = [(sid, p)] →
  (∀ h, pongs env h = []) →
  (∀ h, emit_ok env h "ovos.skills.fallback.ping" = true) →
  (∀ h, (0 < polls env h)%nat) →
  let waits (prio : Env → FallbackConfig → list string → string → Message →
                    M (option IntentMatch * Message)) :=
    bool_decide
      (0 < sleeps (events_since w (prio env fc utts lng msg w).2))%nat in
  waits high_prio = ((0 <? p) && (p <=? 5))%Z
  ∧ waits medium_prio = ((5 <? p) && (p <=? 90))%Z
  ∧ waits low_prio = ((90 <? p) && (p <=? 101))%Z
  ∧ length (List.filter id [waits high_prio; waits medium_prio; waits low_prio])
    = (if (0 <? p)%Z && (p <=? 101)%Z then 1 else 0)%nat.
Proof.
  intros Hreg Hpongs Hemit Hpolls waits. subst waits. cbn beta.
  unfold high_prio, medium_prio, low_prio.
  rewrite !(band_waits env fc utts lng msg _ w sid p Hreg Hpongs Hemit Hpolls).
  unfold in_band. cbn [start stop].
  split_and!; try reflexivity.
  cbn [List.filter id].
  repeat match goal with
         | |- context [(?a <? ?b)%Z] => destruct (Z.ltb_spec a b)
         | |- context [(?a <=? ?b)%Z] => destruct (Z.leb_spec a b)
         end; cbn; try reflexivity; lia.
Qed.

Lemma silent_handler_waited_for_in_one_band_witness :
  bool_decide
    (0 < sleeps (events_since medium_world
                   (high_prio quiet_env no_overrides ["what is the weather"]
                      "en-us" weather medium_world).2))%nat = false
  ∧ bool_decide
      (0 < sleeps (events_since medium_world
                     (medium_prio quiet_env no_overrides
                        ["what is the weather"] "en-us" weather
                        medium_world).2))%nat = true
  ∧ bool_decide
      (0 < sleeps (events_since medium_world
                     (low_prio quiet_env no_overrides ["what is the weather"]
                        "en-us" weather medium_world).2))%nat = false.
Proof.
  destruct (silent_handler_waited_for_in_one_band quiet_env no_overrides
              ["what is the weather"] "en-us" weather medium_world "A" 50%Z)
    as (Hh & Hm & Hl & _); try reflexivity.
  - intros h. cbn. lia.
  - split_and!; [exact Hh|exact Hm|exact Hl].
Defined.

(** ** The legacy request and the utterance list *)

Section BandTail.
Context (env : Env) (fc : FallbackConfig).

Lemma attempts_only_attempt_events att v :
  attempts att v → Forall (λ e, discovery_event e ∨ attempt_event e) att.
Proof. induction 1; repeat constructor; try done; by right. Qed.

(** What a band ends with: either nothing more after the attempts, and then
    it raised or a candidate took the utterance, or the legacy request and
    its reply, which then decides. *)
Lemma band_tail utts lng msg band w r w' :
  let msg' := mkMessage (msg_type msg) utts (Some lng) (context msg) in
  _fallback_range env fc utts lng msg band w = (r, w') →
  ∃ pre leg,
    events_since w w' = pre ++ leg
    ∧ Forall (λ e, discovery_event e ∨ attempt_event e) pre
    ∧ ((leg = []
        ∧ (r = Ok (Some fallback_match, msg') ∨ ∃ e, r = Raise e))
       ∨ ∃ u us rep,
           utts = u :: us
           ∧ leg = [EvEmit "mycroft.skills.fallback"
                      (PLegacy u lng (start band, stop band));
                    EvResponse (PLegacy u lng (start band, stop band))
                      "mycroft.skills.fallback.response" rep]
           ∧ r = match rep with
                 | Some x =>
                     match data_handled x with
                     | Some true => Ok (Some fallback_match, msg')
                     | Some false => Ok (None, msg')
                     | None => Raise KeyError
                     end
                 | None => Ok (None, msg')
                 end).
Proof.
  intros msg'. unfold _fallback_range. fold msg'.
  unfold bind at 1, registry at 1. unfold bind at 1.
  destruct (appends_fallbacks_of env msg' band (registered_fallbacks w) w)
    as (disc & Hdisc & HPdisc).
  destruct (fallbacks_of env msg' band (registered_fallbacks w) w)
    as [[fallbacks|e] w1] eqn:Efb; cbn [snd] in Hdisc.
  2:{ intros [= <- <-]. exists disc, [].
      rewrite (events_since_app _ _ _ Hdisc), app_nil_r.
      split_and!; [done| |by left; eauto].
      eapply Forall_impl; [done|]. by left. }
  unfold bind at 1.
  destruct (attempt_each env fc utts lng msg' (py_sorted snd fallbacks) w1)
    as [v w2] eqn:Eatt.
  destruct (attempt_each_run env fc _ _ _ _ _ _ _ Eatt)
    as (att & k & Hatt & Hshape & _).
  assert (Hpre : Forall (λ e, discovery_event e ∨ attempt_event e)
                   (disc ++ att)).
  { apply Forall_app. split; [|by eapply attempts_only_attempt_events].
    eapply Forall_impl; [done|]. by left. }
  assert (Ht2 : trace w2 = trace w ++ disc ++ att)
    by (by rewrite Hatt, Hdisc, <-app_assoc).
  assert (Hquit : ∀ x, x = Ok (Some fallback_match, msg') ∨ (∃ e, x = Raise e) →
            (x, w2) = (r, w') →
            ∃ pre leg,
              events_since w w' = pre ++ leg
              ∧ Forall (λ e, discovery_event e ∨ attempt_event e) pre
              ∧ ((leg = []
                  ∧ (r = Ok (Some fallback_match, msg') ∨ ∃ e, r = Raise e))
                 ∨ ∃ u us rep,
                     utts = u :: us
                     ∧ leg = [EvEmit "mycroft.skills.fallback"
                                (PLegacy u lng (start band, stop band));
                              EvResponse (PLegacy u lng (start band, stop band))
                                "mycroft.skills.fallback.response" rep]
                     ∧ r = match rep with
                           | Some x =>
                               match data_handled x with
                               | Some true => Ok (Some fallback_match, msg')
                               | Some false => Ok (None, msg')
                               | None => Raise KeyError
                               end
                           | None => Ok (None, msg')
                           end)).
  { intros x Hx [= <- <-]. exists (disc ++ att), [].
    rewrite (events_since_app _ _ _ Ht2), app_nil_r.
    split_and!; [done|done|by left]. }
  destruct v as [[|]|e].
  - apply Hquit. by left.
  - destruct utts as [|u utts'].
    { apply Hquit. right. by eauto. }
    unfold bind at 1. rewrite bus_wait_run.
    destruct (emit_ok env _ _).
    2:{ apply Hquit. right. by eauto. }
    cbn zeta.
    set (d := PLegacy u lng (start band, stop band)).
    set (rty := "mycroft.skills.fallback.response").
    set (rep := response env _ rty).
    intros Hrun.
    exists (disc ++ att),
      [EvEmit "mycroft.skills.fallback" d; EvResponse d rty rep].
    assert (Ht : trace w' = trace w ++ (disc ++ att)
                   ++ [EvEmit "mycroft.skills.fallback" d;
                       EvResponse d rty rep]).
    { destruct rep as [x|]; [destruct (data_handled x) as [[]|]|];
        injection Hrun as <- <-; simpl;
        rewrite Ht2, <-!app_assoc; done. }
    rewrite (events_since_app _ _ _ Ht).
    split_and!; [done|done|]. right. exists u, utts', rep.
    split_and!; [done|done|].
    destruct rep as [x|]; [destruct (data_handled x) as [[]|]|];
      unfold ret, raise in Hrun; by injection Hrun as <- _.
  - apply Hquit. right. by eauto.
Qed.

(** The only exception a discovery phase raises is the transport's. *)
Lemma fallbacks_of_raise msg band hs w e w1 :
  fallbacks_of env msg band hs w = (Raise e, w1) → e = TransportError.
Proof.
  revert w e w1.
  induction hs as [|[k v] hs IH]; intros w e w1; cbn [fallbacks_of].
  { done. }
  unfold bind at 1.
  pose proof (collect_run env msg band w) as Hrun. cbn [fst snd] in Hrun.
  destruct (emit_ok env _ _).
  2:{ rewrite Hrun. by intros [= <- _]. }
  destruct Hrun as (skills & evs & -> & _).
  unfold bind at 1.
  match goal with |- context [fallbacks_of env msg band hs ?w2] =>
    destruct (fallbacks_of env msg band hs w2) as [[rest|e'] w3] eqn:E
  end.
  - by unfold ret.
  - intros [= <- _]. by eapply IH.
Qed.

(** With no utterance, the first candidate the policy lets through makes
    [utterances[0]] raise; nothing is sent. *)
Lemma attempt_each_no_utterance lng msg hs w :
  ∃ v, attempt_each env fc [] lng msg hs w = (v, w)
       ∧ (v = Ok false ∨ v = Raise IndexError).
Proof.
  induction hs as [|[sid p] hs IH]; cbn [attempt_each].
  { exists (Ok false). by split; [|left]. }
  unfold bind at 1. rewrite attempt_fallback_run.
  destruct (_fallback_allowed fc sid); [|done].
  exists (Raise IndexError). by split; [|right].
Qed.
End BandTail.

(** X9. When a band consulted the legacy fallback service, the reply alone
    decides what the band returns: a reply with [handled] true gives the
    Fallback match, one with [handled] false or no reply in time gives no
    match, and a reply without the key [handled] makes the band raise
    [KeyError].  The request carried the first utterance, the language and
    the bounds of the band. *)
Theorem legacy_reply_decides_band env fc utts lng msg band w u l rg rty rep :
  let run := _fallback_range env fc utts lng msg band w in
  let msg' := mkMessage (msg_type msg) utts (Some lng) (context msg) in
  EvResponse (PLegacy u l rg) rty rep ∈ events_since w run.2 →
  head utts = Some u ∧ l = lng ∧ rg = (start band, stop band)
  ∧ run.1 = match rep with
            | Some x =>
                match data_handled x with
                | Some true => Ok (Some fallback_match, msg')
                | Some false => Ok (None, msg')
                | None => Raise KeyError
                end
            | None => Ok (None, msg')
            end.
Proof.
  intros run msg'. subst run.
  destruct (_fallback_range env fc utts lng msg band w) as [r w'] eqn:Erun.
  cbn [fst snd]. intros Hin.
  destruct (band_tail _ _ _ _ _ _ _ _ _ Erun) as (pre & leg & Hevs & Hpre & Hleg).
  rewrite Hevs in Hin. apply elem_of_app in Hin as [Hin|Hin].
  { apply (proj1 (Forall_forall _ _) Hpre) in Hin. by destruct Hin. }
  destruct Hleg as [[-> _]|(u' & us & rep' & -> & -> & ->)].
  { by apply elem_of_nil in Hin. }
  apply elem_of_cons in Hin as [Hin|Hin]; [done|].
  apply list_elem_of_singleton in Hin. by injection Hin as -> -> -> _ ->.
Qed.

Lemma legacy_reply_decides_band_witness :
  (_fallback_range quiet_env no_overrides ["what is the weather"] "en-us"
     weather (mkRange 90 101) empty_world).1
  = Ok (None, mkMessage "recognizer_loop:utterance" ["what is the weather"]
                (Some "en-us") ∅).
Proof.
  apply (legacy_reply_decides_band quiet_env no_overrides
           ["what is the weather"] "en-us" weather (mkRange 90 101)
           empty_world "what is the weather" "en-us" (90, 101)%Z
           "mycroft.skills.fallback.response" None).
  apply list_elem_of_In. vm_compute. right. left. reflexivity.
Defined.

(** X10. A band returns without a match only after it asked the legacy
    fallback service: its last event is then the reply to the legacy
    request for the first utterance, and that reply did not come in time or
    said [handled] false. *)
Theorem no_match_only_after_legacy_request env fc utts lng msg band w m :
  let run := _fallback_range env fc utts lng msg band w in
  run.1 = Ok (None, m) →
  ∃ u rep,
    last (events_since w run.2)
    = Some (EvResponse (PLegacy u lng (start band, stop band))
              "mycroft.skills.fallback.response" rep)
    ∧ head utts = Some u
    ∧ (rep = None ∨ ∃ x, rep = Some x ∧ data_handled x = Some false).
Proof.
  intros run. subst run.
  destruct (_fallback_range env fc utts lng msg band w) as [r w'] eqn:Erun.
  cbn [fst snd]. intros ->.
  destruct (band_tail _ _ _ _ _ _ _ _ _ Erun) as (pre & leg & -> & _ & Hleg).
  destruct Hleg as [[_ [?|[e ?]]]|(u & us & rep & -> & -> & Hr)]; [done..|].
  exists u, rep. split_and!; [|done|].
  - by rewrite last_app.
  - destruct rep as [x|]; [|by left]. right. exists x. split; [done|].
    by destruct (data_handled x) as [[]|].
Qed.

Lemma no_match_only_after_legacy_request_witness :
  ∃ u rep,
    last (events_since empty_world
            (_fallback_range quiet_env no_overrides ["what is the weather"]
               "en-us" weather (mkRange 90 101) empty_world).2)
    = Some (EvResponse (PLegacy u "en-us" (90, 101)%Z)
              "mycroft.skills.fallback.response" rep)
    ∧ head ["what is the weather"] = Some u
    ∧ (rep = None ∨ ∃ x, rep = Some x ∧ data_handled x = Some false).
Proof.
  apply (no_match_only_after_legacy_request quiet_env no_overrides
           ["what is the weather"] "en-us" weather (mkRange 90 101)
           empty_world
           (mkMessage "recognizer_loop:utterance" ["what is the weather"]
              (Some "en-us") ∅)).
  reflexivity.
Defined.

(** With no utterance a band raises before it sends any request. *)
Lemma band_no_utterance env fc lng msg band w :
  let run := _fallback_range env fc [] lng msg band w in
  (run.1 = Raise IndexError ∨ run.1 = Raise TransportError)
  ∧ Forall discovery_event (events_since w run.2).
Proof.
  intros run. subst run.
  destruct (_fallback_range env fc [] lng msg band w) as [r w'] eqn:Erun.
  cbn [fst snd]. revert Erun. unfold _fallback_range.
  set (msg' := mkMessage (msg_type msg) [] (Some lng) (context msg)).
  unfold bind at 1, registry at 1. unfold bind at 1.
  destruct (appends_fallbacks_of env msg' band (registered_fallbacks w) w)
    as (disc & Hdisc & HPdisc).
  destruct (fallbacks_of env msg' band (registered_fallbacks w) w)
    as [[fallbacks|e] w1] eqn:Efb; cbn [fst snd] in Hdisc.
  2:{ intros [= <- <-]. rewrite (events_since_app _ _ _ Hdisc).
      split; [|done]. right. f_equal. by eapply fallbacks_of_raise. }
  unfold bind at 1.
  destruct (attempt_each_no_utterance env fc lng msg'
              (py_sorted snd fallbacks) w1) as (v & -> & [-> | ->]);
    unfold raise; intros [= <- <-];
    rewrite (events_since_app _ _ _ Hdisc); by split; [left|].
Qed.

(** X11. A band called with an empty utterance list never returns: it raises
    [IndexError] at the first [utterances[0]] it reaches (in the first
    attempt the policy lets through, else when it builds the legacy
    request), or the transport's error when a ping was refused.  Discovery
    still runs, but no request of either kind is sent. *)
Theorem band_without_utterance_raises env fc lng msg band w :
  let run := _fallback_range env fc [] lng msg band w in
  (run.1 = Raise IndexError ∨ run.1 = Raise TransportError)
  ∧ Forall discovery_event (events_since w run.2).
Proof. apply band_no_utterance. Qed.

(** ** The routing call, phase by phase *)

Section RouterPhases.
Context (env : Env) (fc : FallbackConfig) (config : Configuration).

Lemma handle_utterance_phases msg w out w' :
  handle_utterance env fc config msg w = (out, w') →
  (∃ e, _handle_transformers env msg w = (Raise e, w)
        ∧ out = Ok None ∧ w' = w)
  ∨ ∃ mt r w2 post,
      _handle_transformers env msg w = (Ok mt, w)
      ∧ match_loop (match_funcs env fc) (data_utterances mt)
          (disambiguate_lang env config mt) mt
          (add_event (EvSetupLocale (disambiguate_lang env config mt)) w)
        = (r, w2)
      ∧ trace w' = trace w2 ++ post
      ∧ registered_fallbacks w' = registered_fallbacks w2
      ∧ match r with
        | Raise _ => post = [] ∧ out = Ok None
        | Ok (None, msg2) =>
            (post = [EvErrorSound; EvEmit "complete_intent_failure" PEmpty]
             ∧ out = Ok (Some (None, context msg2)))
            ∨ (post = [EvErrorSound] ∧ out = Ok None)
        | Ok (Some m, msg2) =>
            ∃ launched,
              post = (if truthy_str (skill_id m)
                      then [EvActivate (default "" (skill_id m))] else [])
                     ++ launched
              ∧ ((launched
                  = (if truthy_str (intent_type m)
                     then [EvEmit (default "" (intent_type m))
                             (PIntent (data_utterances msg2) (data_lang msg2)
                                (intent_data m))]
                     else [])
                  ∧ out = Ok (Some (Some m, context msg2)))
                 ∨ (launched = [] ∧ truthy_str (intent_type m) = true
                    ∧ out = Ok None))
        end.
Proof.
  unfold handle_utterance, handle_utterance_body.
  unfold bind at 1.
  pose proof (handle_transformers_world env msg w) as Hw0.
  destruct (_handle_transformers env msg w) as [[mt|e] w0]; cbn [snd] in Hw0;
    subst w0.
  2:{ intros [= <- <-]. left. by exists e. }
  unfold bind at 1. rewrite try_setup_locale_run.
  set (lng := disambiguate_lang env config mt).
  set (w1 := add_event (EvSetupLocale lng) w).
  unfold bind at 1.
  destruct (match_loop (match_funcs env fc) (data_utterances mt) lng mt w1)
    as [r w2] eqn:Eloop.
  intros Hout. right. exists mt, r, w2.
  destruct r as [[[m|] msg2]|e]; cbn [fst snd] in Hout.
  - revert Hout. unfold bind at 1. unfold bind at 1.
    set (eva := if truthy_str (skill_id m)
                then [EvActivate (default "" (skill_id m))] else []).
    set (activate := match skill_id m with
                     | Some sid => if truthy_str (Some sid)
                                   then log (EvActivate sid) else ret tt
                     | None => ret tt
                     end).
    assert (Hact : activate w2
                   = (Ok tt, mkWorld (registered_fallbacks w2)
                               (listeners w2) (trace w2 ++ eva))).
    { unfold activate, eva. destruct (skill_id m) as [sid|].
      - by destruct (truthy_str (Some sid));
          [|unfold ret; rewrite world_eta].
      - unfold ret. cbn [truthy_str]. by rewrite world_eta. }
    rewrite Hact. clear Hact. clearbody activate eva.
    set (w3 := mkWorld _ _ _).
    set (evl := if truthy_str (intent_type m)
                then [EvEmit (default "" (intent_type m))
                        (PIntent (data_utterances msg2) (data_lang msg2)
                           (intent_data m))]
                else []).
    set (launch := match intent_type m with
                   | Some ty => if truthy_str (Some ty)
                                then bus_emit env ty
                                       (PIntent (data_utterances msg2)
                                          (data_lang msg2) (intent_data m))
                                else ret tt
                   | None => ret tt
                   end).
    assert (Hla : launch w3
                  = (Ok tt, mkWorld (registered_fallbacks w3)
                              (listeners w3) (trace w3 ++ evl))
                  ∨ (launch w3 = (Raise TransportError, w3)
                     ∧ truthy_str (intent_type m) = true)).
    { unfold launch, evl. destruct (intent_type m) as [ty|].
      - destruct (truthy_str (Some ty)).
        + unfold bus_emit. destruct (emit_ok env _ _); [by left|by right].
        + left. unfold ret. by rewrite world_eta.
      - left. unfold ret. cbn [truthy_str]. by rewrite world_eta. }
    clearbody launch evl.
    destruct Hla as [-> | [-> Hty]]; unfold ret; intros [= <- <-].
    + exists (eva ++ evl). split_and!; try done.
      * subst w3. cbn [trace]. by rewrite <-app_assoc.
      * exists evl. split; [done|]. by left.
    + exists eva. split_and!; try done.
      exists []. rewrite app_nil_r. split; [done|]. by right.
  - revert Hout. unfold bind at 1. unfold send_complete_intent_failure at 1.
    unfold bind at 1, log at 1. unfold bus_emit.
    destruct (emit_ok env _ _); intros [= <- <-].
    + exists [EvErrorSound; EvEmit "complete_intent_failure" PEmpty].
      split_and!; try done; [|by left].
      cbn [add_event trace]. by rewrite <-app_assoc.
    + exists [EvErrorSound]. split_and!; try done. by right.
  - injection Hout as <- <-. exists []. by rewrite app_nil_r.
Qed.
End RouterPhases.

Section LoopFacts.
Context (env : Env) (fc : FallbackConfig).

Lemma appends_match_loop (P : event → Prop) funcs utts lng msg :
  (∀ s, P (EvCall s)) → (∀ s r, P (EvRet s r)) →
  Forall (λ sf, ∀ utts lng msg, appends P (sf.2 utts lng msg)) funcs →
  appends P (match_loop funcs utts lng msg).
Proof.
  intros Hcall Hret Hfuncs. revert msg.
  induction Hfuncs as [|[s f] funcs Hf _ IH]; intros msg; cbn [match_loop].
  { apply appends_ret. }
  apply appends_bind; [by apply appends_log|]. intros _.
  apply appends_bind; [apply Hf|]. intros r.
  apply appends_bind; [by apply appends_log|]. intros _.
  destruct r.1; [apply appends_ret|apply IH].
Qed.

Lemma match_funcs_events :
  Forall (λ sf, ∀ utts lng msg,
            appends (λ e, band_event e ∨ is_stage_event e = true)
              (sf.2 utts lng msg))
         (match_funcs env fc).
Proof.
  repeat constructor; cbn [snd]; intros utts lng msg;
    try apply appends_external;
    (eapply appends_impl; [|apply appends_fallback_range]); by left.
Qed.

(** The events of the matching loop are stage calls and returns and the
    events of the three bands. *)
Lemma match_loop_events utts lng msg w r w2 :
  match_loop (match_funcs env fc) utts lng msg w = (r, w2) →
  ∃ loop, trace w2 = trace w ++ loop
          ∧ Forall (λ e, band_event e ∨ is_stage_event e = true) loop.
Proof.
  intros Hrun.
  destruct (appends_match_loop (λ e, band_event e ∨ is_stage_event e = true)
              (match_funcs env fc) utts lng msg
              (λ _, or_intror eq_refl) (λ _ _, or_intror eq_refl)
              match_funcs_events w) as (loop & Ht & Hloop).
  rewrite Hrun in Ht. by exists loop.
Qed.

Lemma loop_events_quiet l :
  Forall (λ e, band_event e ∨ is_stage_event e = true) l →
  activations l = [] ∧ launches l = [] ∧ (EvErrorSound ∉ l)
  ∧ failure_signals l = 0%nat.
Proof.
  unfold activations, launches, failure_signals.
  induction 1 as [|e l He _ (IHa & IHl & IHs & IHf)].
  { split_and!; try done. apply not_elem_of_nil. }
  assert (He' : match e with
                | EvActivate _ | EvErrorSound | EvEmit _ (PIntent _ _ _)
                | EvEmit _ PEmpty => False
                | _ => True
                end).
  { destruct He as [[He|[He|He]]|He]; destruct e as [| |ty []|[] | | | | | | |];
      done. }
  split_and!.
  - destruct e; done.
  - destruct e as [| |ty []| | | | | | | |]; done.
  - rewrite not_elem_of_cons. split; [|done]. by intros <-.
  - destruct e as [| |ty []| | | | | | | |]; done.
Qed.

(** No matching function changes the registry. *)
Lemma match_loop_keeps_registry funcs utts lng msg w :
  Forall (λ sf, ∀ utts lng msg w,
            registered_fallbacks (sf.2 utts lng msg w).2
            = registered_fallbacks w) funcs →
  registered_fallbacks (match_loop funcs utts lng msg w).2
  = registered_fallbacks w.
Proof.
  intros Hfuncs. revert msg w.
  induction Hfuncs as [|[s f] funcs Hf _ IH]; intros msg w; cbn [match_loop].
  { done. }
  unfold bind at 1, log at 1. unfold bind at 1.
  specialize (Hf utts lng msg (add_event (EvCall s) w)). cbn [snd] in Hf.
  destruct (f utts lng msg (add_event (EvCall s) w)) as [[r|e] w1];
    cbn [snd] in Hf; [|done].
  unfold bind at 1, log at 1.
  destruct r.1.
  - exact Hf.
  - rewrite IH. exact Hf.
Qed.

Lemma match_funcs_keep_registry :
  Forall (λ sf, ∀ utts lng msg w,
            registered_fallbacks (sf.2 utts lng msg w).2
            = registered_fallbacks w) (match_funcs env fc).
Proof.
  repeat constructor; cbn [snd]; intros utts lng msg w;
    try (unfold external, bind, history, lift;
         by destruct (matcher env _ _ _ _ _));
    apply band_discovery.
Qed.

(** A matching function that always raises is where the loop ends, unless
    an earlier one returned a match or raised. *)
Lemma match_loop_stops_at_raiser funcs1 s f funcs2 utts lng msg w m :
  (∀ lng msg w, ∃ e, (f utts lng msg w).1 = Raise e) →
  (match_loop (funcs1 ++ (s, f) :: funcs2) utts lng msg w).1 ≠ Ok (None, m).
Proof.
  intros Hf. revert msg w.
  induction funcs1 as [|[s1 f1] funcs1 IH]; intros msg w;
    cbn [app match_loop]; unfold bind at 1, log at 1; unfold bind at 1.
  - destruct (Hf lng msg (add_event (EvCall s) w)) as [e He].
    destruct (f utts lng msg (add_event (EvCall s) w)) as [r w1].
    cbn [fst] in He. by subst r.
  - destruct (f1 utts lng msg (add_event (EvCall s1) w)) as [[r|e] w1];
      [|done].
    unfold bind at 1, log at 1.
    destruct r as [[m1|] msg1]; cbn [fst snd]; [done|apply IH].
Qed.
End LoopFacts.

Lemma activations_app l1 l2 :
  activations (l1 ++ l2) = activations l1 ++ activations l2.
Proof. apply omap_app. Qed.

Lemma launches_app l1 l2 : launches (l1 ++ l2) = launches l1 ++ launches l2.
Proof. apply omap_app. Qed.

(** X12. When the routing call returns a match, the router marks the
    matching skill active exactly when the match names a non-empty skill id,
    and puts exactly one intent message on the bus, of the match's intent
    type and carrying its intent data, exactly when the match has a non-empty
    intent type; nothing else is activated or launched, and no error sound is
    played.  A match such as the fallback service's, which has neither,
    activates and launches nothing. *)
Theorem match_is_activated_then_launched env fc config msg w m ctx :
  let run := handle_utterance env fc config msg w in
  run.1 = Ok (Some (Some m, ctx)) →
  activations (events_since w run.2)
  = match skill_id m with
    | Some sid => if String.eqb sid "" then [] else [sid]
    | None => []
    end
  ∧ launches (events_since w run.2)
    = match intent_type m with
      | Some ty => if String.eqb ty "" then [] else [(ty, intent_data m)]
      | None => []
      end
  ∧ EvErrorSound ∉ events_since w run.2.
Proof.
  intros run. subst run.
  destruct (handle_utterance env fc config msg w) as [out w'] eqn:Erun.
  cbn [fst snd]. intros ->.
  destruct (handle_utterance_phases _ _ _ _ _ _ _ Erun)
    as [(e & _ & ? & _)|(mt & r & w2 & post & _ & Eloop & Ht & _ & Hpost)];
    [done|].
  destruct (match_loop_events _ _ _ _ _ _ _ _ Eloop) as (loop & Ht2 & Hloop).
  destruct (loop_events_quiet _ Hloop) as (Ha & Hl & Hs & _).
  destruct r as [[[m'|] msg2]|e].
  2:{ by destruct Hpost as [[_ ?]|[_ ?]]. }
  2:{ by destruct Hpost. }
  destruct Hpost as (launched & -> & [[-> [= -> ->]]|(_ & _ & ?)]); [|done].
  rewrite (events_since_app w w'
             ([EvSetupLocale (disambiguate_lang env config mt)] ++ loop ++ _))
    by (rewrite Ht, Ht2; cbn [add_event trace];
        rewrite <-!app_assoc; reflexivity).
  rewrite !activations_app, !launches_app, Ha, Hl.
  split_and!.
  - destruct (skill_id m') as [sid|]; cbn [truthy_str default];
      destruct (intent_type m') as [ty|]; cbn [truthy_str default];
      try destruct (String.eqb sid ""); try destruct (String.eqb ty "");
      reflexivity.
  - destruct (skill_id m') as [sid|]; cbn [truthy_str default];
      destruct (intent_type m') as [ty|]; cbn [truthy_str default];
      try destruct (String.eqb sid ""); try destruct (String.eqb ty "");
      reflexivity.
  - rewrite !not_elem_of_app. split_and!; [|done| |].
    + by intros [= ]%list_elem_of_singleton.
    + by destruct (truthy_str (skill_id m'));
        [intros [= ]%list_elem_of_singleton|apply not_elem_of_nil].
    + by destruct (truthy_str (intent_type m'));
        [intros [= ]%list_elem_of_singleton|apply not_elem_of_nil].
Qed.

Lemma match_is_activated_then_launched_witness :
  activations (events_since empty_world
                 (handle_utterance keyword_env no_overrides english weather
                    empty_world).2)
  = ["weather"]
  ∧ launches (events_since empty_world
                (handle_utterance keyword_env no_overrides english weather
                   empty_world).2)
    = [("weather:WeatherIntent", ∅)]
  ∧ EvErrorSound ∉ events_since empty_world
                     (handle_utterance keyword_env no_overrides english
                        weather empty_world).2.
Proof.
  apply (match_is_activated_then_launched keyword_env no_overrides english
           weather empty_world keyword_match {["lang" := "en-us"]}).
  vm_compute. reflexivity.
Defined.

(** X13. The transformers run before anything else.  When one of them
    raises, the routing call returns [None] and leaves no trace at all: no
    locale is set, no matching function is called and no failure signal is
    sent.  Otherwise the first thing the call does is to set the locale to
    the language [disambiguate_lang] picks for the transformed message. *)
Theorem transformers_run_first env fc config msg w :
  match (_handle_transformers env msg w).1 with
  | Raise _ => handle_utterance env fc config msg w = (Ok None, w)
  | Ok mt =>
      head (events_since w (handle_utterance env fc config msg w).2)
      = Some (EvSetupLocale (disambiguate_lang env config mt))
  end.
Proof.
  destruct (handle_utterance env fc config msg w) as [out w'] eqn:Erun.
  destruct (handle_utterance_phases _ _ _ _ _ _ _ Erun)
    as [(e & -> & -> & ->)|(mt & r & w2 & post & -> & Eloop & Ht & _)];
    [done|].
  destruct (match_loop_events _ _ _ _ _ _ _ _ Eloop) as (loop & Ht2 & _).
  cbn [fst snd].
  by rewrite (events_since_app w w'
             ([EvSetupLocale (disambiguate_lang env config mt)] ++ loop ++ post))
    by (rewrite Ht, Ht2; cbn [add_event trace];
        rewrite <-!app_assoc; reflexivity).
Qed.

(** X14. An utterance message whose utterance list is empty never gets the
    "no intent" treatment: the high band raises on [utterances[0]], the
    exception is swallowed by the routing call, and so the call either
    returns a match one of the four stages before that band made, or returns
    [None]; it plays no error sound and sends no failure signal. *)
Theorem no_utterance_no_failure_signal env fc config msg w mt :
  let run := handle_utterance env fc config msg w in
  (_handle_transformers env msg w).1 = Ok mt →
  data_utterances mt = [] →
  (∀ ctx, run.1 ≠ Ok (Some (None, ctx)))
  ∧ failure_signals (events_since w run.2) = 0%nat
  ∧ EvErrorSound ∉ events_since w run.2.
Proof.
  intros run Hmt Hutts. subst run.
  destruct (handle_utterance env fc config msg w) as [out w'] eqn:Erun.
  cbn [fst snd].
  destruct (handle_utterance_phases _ _ _ _ _ _ _ Erun)
    as [(e & He & _)|(mt' & r & w2 & post & Emt & Eloop & Ht & _ & Hpost)].
  { by rewrite He in Hmt. }
  rewrite Emt in Hmt. injection Hmt as ->. rewrite Hutts in Eloop.
  destruct (match_loop_events _ _ _ _ _ _ _ _ Eloop) as (loop & Ht2 & Hloop).
  destruct (loop_events_quiet _ Hloop) as (_ & _ & Hs & Hf).
  rewrite (events_since_app w w'
             ([EvSetupLocale (disambiguate_lang env config mt)] ++ loop ++ post))
    by (rewrite Ht, Ht2; cbn [add_event trace];
        rewrite <-!app_assoc; reflexivity).
  rewrite !failure_signals_app, Hf, !not_elem_of_app.
  assert (Hnone : ∀ m2, r ≠ Ok (None, m2)).
  { intros m2 Hr.
    pose proof (match_loop_stops_at_raiser
                  [(Converse, external env Converse);
                   (PadatiousHigh, external env PadatiousHigh);
                   (Adapt, external env Adapt);
                   (CommonQA, external env CommonQA)]
                  FallbackHigh (high_prio env fc)
                  [(PadatiousMedium, external env PadatiousMedium);
                   (FallbackMedium, medium_prio env fc);
                   (PadatiousLow, external env PadatiousLow);
                   (FallbackLow, low_prio env fc)]
                  [] (disambiguate_lang env config mt) mt
                  (add_event (EvSetupLocale (disambiguate_lang env config mt)) w)
                  m2) as Hstop.
    change (_ ++ _ :: _) with (match_funcs env fc) in Hstop.
    rewrite Eloop in Hstop. apply Hstop; [|by rewrite Hr].
    intros lng' msg' w0.
    destruct (band_no_utterance env fc lng' msg' (mkRange 0 5) w0)
      as [[H|H] _]; eauto. }
  destruct r as [[[m'|] msg2]|e].
  - destruct Hpost as (launched & -> & Hl).
    assert (Hla : failure_signals launched = 0%nat ∧ (EvErrorSound ∉ launched)
                  ∧ ∀ ctx, out ≠ Ok (Some (None, ctx))).
    { destruct Hl as [[-> ->]|(-> & _ & ->)].
      - split_and!; [| |done];
          by destruct (truthy_str (intent_type m'));
            [try intros [= ]%list_elem_of_singleton|try apply not_elem_of_nil].
      - split_and!; [done|apply not_elem_of_nil|done]. }
    destruct Hla as (Hlf & Hls & Hout).
    rewrite failure_signals_app, Hlf.
    split_and!; [done| |by intros [= ]%list_elem_of_singleton|done|].
    + by destruct (truthy_str (skill_id m')).
    + apply not_elem_of_app. split; [|done].
      by destruct (truthy_str (skill_id m'));
        [intros [= ]%list_elem_of_singleton|apply not_elem_of_nil].
  - by destruct (Hnone msg2).
  - destruct Hpost as [-> ->].
    split_and!; [done|done|by intros [= ]%list_elem_of_singleton|done|].
    apply not_elem_of_nil.
Qed.

Lemma no_utterance_no_failure_signal_witness :
  (∀ ctx, (handle_utterance quiet_env no_overrides english
             (mkMessage "recognizer_loop:utterance" [] None ∅)
             empty_world).1 ≠ Ok (Some (None, ctx)))
  ∧ failure_signals
      (events_since empty_world
         (handle_utterance quiet_env no_overrides english
            (mkMessage "recognizer_loop:utterance" [] None ∅)
            empty_world).2) = 0%nat
  ∧ EvErrorSound ∉ events_since empty_world
                     (handle_utterance quiet_env no_overrides english
                        (mkMessage "recognizer_loop:utterance" [] None ∅)
                        empty_world).2.
Proof.
  apply (no_utterance_no_failure_signal quiet_env no_overrides english
           (mkMessage "recognizer_loop:utterance" [] None ∅) empty_world
           (mkMessage "recognizer_loop:utterance" [] None
              {["lang" := "en-us"]})).
  - vm_compute. reflexivity.
  - reflexivity.
Defined.

(** X15. Neither a band nor the routing call changes the registry of
    fallback handlers, whatever the bus does: only the register and
    deregister handlers write to it. *)
Theorem routing_keeps_registry env fc config utts lng msg band w :
  registered_fallbacks (_fallback_range env fc utts lng msg band w).2
  = registered_fallbacks w
  ∧ registered_fallbacks (handle_utterance env fc config msg w).2
    = registered_fallbacks w.
Proof.
  split; [apply band_discovery|].
  destruct (handle_utterance env fc config msg w) as [out w'] eqn:Erun.
  destruct (handle_utterance_phases _ _ _ _ _ _ _ Erun)
    as [(e & _ & _ & ->)|(mt & r & w2 & post & _ & Eloop & _ & Hreg & _)];
    [done|].
  cbn [snd]. rewrite Hreg.
  pose proof (match_loop_keeps_registry (match_funcs env fc)
                (data_utterances mt) (disambiguate_lang env config mt) mt
                (add_event (EvSetupLocale (disambiguate_lang env config mt)) w)
                (match_funcs_keep_registry env fc)) as Hk.
  by rewrite Eloop in Hk.
Qed.

(** ** Language tags *)

Lemma first_valid_lang_spec config ctx keys d :
  first_valid_lang config ctx keys d
  = default d (head (filter (λ v, v ∈ valid_langs config)
                       (omap (λ k, ctx !! k) keys))).
Proof.
  induction keys as [|k keys IH]; [done|].
  cbn [first_valid_lang omap list_omap].
  destruct (ctx !! k) as [v|]; [|done].
  rewrite filter_cons, IH.
  case_bool_decide; by destruct (decide _).
Qed.

(** X16. [disambiguate_lang] returns the first of the context values under
    [stt_lang], [request_lang] and [detected_lang], in this order, that is
    in the set of enabled languages, skipping keys that are absent and values
    that are not enabled; when there is none it returns the language
    [get_message_lang] gives.  So its result is always an enabled language
    or that default. *)
Theorem disambiguate_lang_picks_first_enabled_tag env config msg :
  disambiguate_lang env config msg
  = default (get_message_lang env msg)
      (head (filter (λ v, v ∈ valid_langs config)
               (omap (λ k, context msg !! k)
                  ["stt_lang"; "request_lang"; "detected_lang"])))
  ∧ (disambiguate_lang env config msg ∈ valid_langs config
     ∨ disambiguate_lang env config msg = get_message_lang env msg).
Proof.
  unfold disambiguate_lang. rewrite first_valid_lang_spec.
  split; [done|]. unfold lang_keys.
  destruct (head _) as [v|] eqn:Hv; [left|by right].
  apply head_Some_elem_of in Hv. cbn [default].
  by apply list_elem_of_filter in Hv as [? _].
Qed.

(** X17. The set of enabled languages is read from the keys [lang] and
    [secondary_langs'] of the configuration.  With a configuration that has
    no key of that second name, the only language a context tag can put in
    the place of the default is the configured primary language. *)
Theorem only_primary_lang_overrides env config msg :
  cfg_lists config !! "secondary_langs'" = None →
  disambiguate_lang env config msg = default "en-us" (cfg_strings config !! "lang")
  ∨ disambiguate_lang env config msg = get_message_lang env msg.
Proof.
  intros Hkey. unfold disambiguate_lang. rewrite first_valid_lang_spec.
  destruct (head _) as [v|] eqn:Hv; [left|by right].
  apply head_Some_elem_of in Hv. cbn [default].
  apply list_elem_of_filter in Hv as [Hv _].
  unfold valid_langs in Hv. rewrite Hkey in Hv. cbn [default app] in Hv.
  by apply list_elem_of_singleton in Hv.
Qed.

Lemma only_primary_lang_overrides_witness :
  disambiguate_lang quiet_env bilingual portuguese = "en-us"
  ∨ disambiguate_lang quiet_env bilingual portuguese
    = get_message_lang quiet_env portuguese.
Proof.
  apply (only_primary_lang_overrides quiet_env bilingual portuguese).
  vm_compute. reflexivity.
Defined.

(** ** Skill names and vocabulary *)

Lemma update_skill_names_snoc msgs data names :
  update_skill_names (msgs ++ [data]) names
  = (update_skill_name_dict data (update_skill_names msgs names)).2.
Proof. unfold update_skill_names. by rewrite foldl_app. Qed.

Lemma update_skill_name_lookup data names skill_id :
  (update_skill_name_dict data names).2 !! skill_id
  = match names_skill skill_id data with
    | Some name => Some name
    | None => names !! skill_id
    end.
Proof.
  unfold update_skill_name_dict, names_skill.
  destruct (data !! "name") as [name|]; destruct (data !! "id") as [id|];
    cbn [snd]; try done.
  destruct (decide (id = skill_id)) as [->|Hne].
  - by rewrite lookup_insert_eq.
  - by rewrite lookup_insert_ne.
Qed.

(** X18. After any sequence of name messages, [get_skill_name] gives for a
    skill id the name of the last message that had both keys [id] and [name]
    and was about that id; messages that lack a key raise and change nothing;
    an id no message named is returned as it is. *)
Theorem get_skill_name_is_last_update msgs skill_id :
  get_skill_name (update_skill_names msgs ∅) skill_id
  = default skill_id (last (omap (names_skill skill_id) msgs)).
Proof.
  unfold get_skill_name.
  induction msgs as [|data msgs IH] using rev_ind; [done|].
  rewrite update_skill_names_snoc, omap_app, last_app.
  rewrite update_skill_name_lookup. cbn [omap list_omap].
  by destruct (names_skill skill_id data).
Qed.

Lemma old_style_has_start data :
  _is_old_style_keyword_message data = true →
  data !! "entity_value" = None ∧ ∃ v, data !! "start" = Some v.
Proof.
  unfold _is_old_style_keyword_message. intros [H1 H2]%andb_true_iff.
  apply negb_true_iff, bool_decide_eq_false in H1.
  apply bool_decide_eq_true in H2 as [v Hv].
  split; [by apply eq_None_not_Some|by exists v].
Qed.

(** X19. Upgrading an old-style keyword message that has both [start] and
    [end] copies them to [entity_value] and [entity_type], leaves every other
    key, [start] and [end] included, as it was, and the result is no longer
    an old-style message, so the upgrade is applied to a message at most
    once. *)
Theorem keyword_upgrade_completes data t :
  _is_old_style_keyword_message data = true →
  data !! "end" = Some t →
  ∃ v data',
    data !! "start" = Some v
    ∧ _update_keyword_message data = (Ok tt, data')
    ∧ data' !! "entity_value" = Some v
    ∧ data' !! "entity_type" = Some t
    ∧ (∀ k, k ≠ "entity_value" → k ≠ "entity_type" → data' !! k = data !! k)
    ∧ _is_old_style_keyword_message data' = false.
Proof.
  intros [Hnew [v Hv]]%old_style_has_start Hend.
  exists v, (<["entity_type" := t]> (<["entity_value" := v]> data)).
  unfold _update_keyword_message. rewrite Hv. cbn zeta.
  rewrite lookup_insert_ne, Hend by done.
  split_and!; try done.
  - by rewrite lookup_insert_ne, lookup_insert_eq.
  - by rewrite lookup_insert_eq.
  - intros k H1 H2. by rewrite !lookup_insert_ne.
  - unfold _is_old_style_keyword_message.
    rewrite lookup_insert_ne, lookup_insert_eq by done.
    by rewrite (bool_decide_eq_true_2 _ (mk_is_Some _ _ eq_refl)).
Qed.

Lemma keyword_upgrade_completes_witness :
  ∃ v data',
    ({["start" := "weather"; "end" := "WeatherKeyword"]}
       : gmap string string) !! "start" = Some v
    ∧ _update_keyword_message
        {["start" := "weather"; "end" := "WeatherKeyword"]} = (Ok tt, data')
    ∧ data' !! "entity_value" = Some v
    ∧ data' !! "entity_type" = Some "WeatherKeyword"
    ∧ (∀ k, k ≠ "entity_value" → k ≠ "entity_type" →
         data' !! k
         = ({["start" := "weather"; "end" := "WeatherKeyword"]}
              : gmap string string) !! k)
    ∧ _is_old_style_keyword_message data' = false.
Proof.
  apply (keyword_upgrade_completes
           {["start" := "weather"; "end" := "WeatherKeyword"]}
           "WeatherKeyword").
  - vm_compute. reflexivity.
  - vm_compute. reflexivity.
Defined.

(** X20. [handle_register_vocab] raises [KeyError] exactly when the message
    is old-style and has no [end]; it has then called nothing and stored
    nothing.  In every other case it calls the keyword matcher once, with the
    message's [alias_of] and [regex] and with [entity_value] and
    [entity_type] taken from [start] and [end] for an old-style message and
    from the keys of these names otherwise; when that call returns, the
    message data as it then is, upgraded or not, is appended to
    [registered_vocab], and when it raises nothing is appended. *)
Theorem register_vocab_outcome lang_of accepts st :
  let data := message_data st in
  let old := _is_old_style_keyword_message data in
  let run := handle_register_vocab lang_of accepts st in
  if old && negb (bool_decide (is_Some (data !! "end")))
  then run.1 = Raise KeyError
       ∧ registered_vocab run.2 = registered_vocab st
       ∧ vocab_calls run.2 = vocab_calls st
  else ∃ call,
      vocab_calls run.2 = vocab_calls st ++ [call]
      ∧ entity_value call
        = (if old then data !! "start" else data !! "entity_value")
      ∧ entity_type call
        = (if old then data !! "end" else data !! "entity_type")
      ∧ alias_of call = data !! "alias_of"
      ∧ regex_str call = data !! "regex"
      ∧ if accepts call
        then run.1 = Ok tt
             ∧ registered_vocab run.2
               = registered_vocab st ++ [message_data run.2]
        else run.1 = Raise ExternalError
             ∧ registered_vocab run.2 = registered_vocab st.
Proof.
  intros data old run. subst data old run. unfold handle_register_vocab.
  destruct (_is_old_style_keyword_message (message_data st)) eqn:Hold;
    cbn [andb fst snd].
  - destruct (old_style_has_start _ Hold) as [Hnew [v Hv]].
    unfold _update_keyword_message. rewrite Hv. cbn zeta.
    rewrite lookup_insert_ne by done.
    destruct (message_data st !! "end") as [t|] eqn:Hend; cbn [negb fst snd].
    + rewrite (bool_decide_eq_true_2 _ (mk_is_Some _ _ eq_refl)). cbn [negb].
      match goal with |- context [accepts ?c] => set (call := c) end.
      exists call.
      assert (Hcall : entity_value call = Some v ∧ entity_type call = Some t
                      ∧ alias_of call = message_data st !! "alias_of"
                      ∧ regex_str call = message_data st !! "regex").
      { subst call. cbn [entity_value entity_type alias_of regex_str].
        rewrite lookup_insert_eq.
        rewrite lookup_insert_ne by done. rewrite lookup_insert_eq.
        by rewrite !lookup_insert_ne by done. }
      destruct Hcall as (-> & -> & -> & ->). clearbody call.
      by destruct (accepts call).
    + by rewrite bool_decide_eq_false_2 by (by intros [? ?]).
  - match goal with |- context [accepts ?c] => set (call := c) end.
    exists call.
    change (entity_value call) with (message_data st !! "entity_value").
    change (entity_type call) with (message_data st !! "entity_type").
    change (alias_of call) with (message_data st !! "alias_of").
    change (regex_str call) with (message_data st !! "regex").
    clearbody call. by destruct (accepts call).
Qed.
